(** * Frequency-domain watermarking lab (Lab04.py): model and properties

    A shallow embedding of [msdt-4/Lab04.py].  Floating-point array values
    are exact reals, pixel arrays of dtype uint8 are integers with their
    wrap-around, attack proportions are exact rationals.  numpy's scalar
    division keeps its IEEE outcomes (nan, +inf, -inf) and Python's own
    division raises [ZeroDivisionError].  numpy arrays that are assigned
    into live in a heap, so that two names of one array see each other's
    changes.  The Fourier transform, [cmath.phase] and the image codec are
    library code and enter through the record [externals]; the random
    generator is a sequence of samples consumed in order. *)

From Stdlib Require Import Reals Lra Lia ZArith QArith.
From stdpp Require Import base list gmap.

(** ** Python outcomes *)

Inductive exn := ValueError | ZeroDivisionError | NameError.

Inductive result (A : Type) : Type :=
  | Ok (a : A)
  | Raise (e : exn).
Arguments Ok {A} a.
Arguments Raise {A} e.

#[global] Instance result_ret : MRet result := @Ok.
#[global] Instance result_bind : MBind result :=
  fun A B f m => match m with Ok a => f a | Raise e => Raise e end.
#[global] Instance result_fmap : FMap result :=
  fun A B f m => match m with Ok a => Ok (f a) | Raise e => Raise e end.

Definition is_error {A} (r : result A) : Prop :=
  match r with Raise _ => True | Ok _ => False end.

(** ** Scalars *)

(** A float64 scalar: a real number or one of the IEEE special values. *)
Inductive npfloat := Finite (x : R) | PInf | NInf | NaN.

(** A finite Python number together with the type that carries it: the type
    decides what a division by zero does. *)
Inductive pynum := PyInt (z : Z) | PyFloat (x : R) | NpFloat (x : R).

Module Num.
Local Open Scope R_scope.

Definition pyval (n : pynum) : R :=
  match n with PyInt z => IZR z | PyFloat x => x | NpFloat x => x end.

Definition is_np (n : pynum) : bool :=
  match n with NpFloat _ => true | _ => false end.

(** [a + b]: a numpy operand makes the result a numpy scalar. *)
Definition py_add (a b : pynum) : pynum :=
  if is_np a || is_np b then NpFloat (pyval a + pyval b)
  else match a, b with
       | PyInt x, PyInt y => PyInt (x + y)
       | _, _ => PyFloat (pyval a + pyval b)
       end.

Definition py_mul (a b : pynum) : pynum :=
  if is_np a || is_np b then NpFloat (pyval a * pyval b)
  else match a, b with
       | PyInt x, PyInt y => PyInt (x * y)
       | _, _ => PyFloat (pyval a * pyval b)
       end.

(** [x ** (1 / 2)].  It is only applied to sums of squares, which are never
    negative; an int becomes a float. *)
Definition py_pow_half (a : pynum) : pynum :=
  match a with
  | NpFloat x => NpFloat (sqrt x)
  | _ => PyFloat (sqrt (pyval a))
  end.

(** float64 division: no exception, a zero divisor gives nan or an
    infinity. *)
Definition np_div (x y : R) : npfloat :=
  if Req_dec_T y 0 then
    if Req_dec_T x 0 then NaN else if Rlt_dec 0 x then PInf else NInf
  else Finite (x / y).

(** [a / b]: numpy's division when an operand is a numpy scalar, Python's
    otherwise. *)
Definition py_div (a b : pynum) : result npfloat :=
  if is_np a || is_np b then Ok (np_div (pyval a) (pyval b))
  else if Req_dec_T (pyval b) 0 then Raise ZeroDivisionError
  else Ok (Finite (pyval a / pyval b)).

(** The builtin [sum] over a one-dimensional float64 array: left to right
    from the int [0]. *)
Definition py_sum (l : list R) : pynum :=
  fold_left py_add (map NpFloat l) (PyInt 0).

Definition log10 (x : R) : R := ln x / ln 10.

(** [math.sqrt]: a [ValueError] below zero, nan and +inf pass through. *)
Definition math_sqrt (x : npfloat) : result npfloat :=
  match x with
  | Finite r => if Rlt_dec r 0 then Raise ValueError else Ok (Finite (sqrt r))
  | PInf => Ok PInf
  | NInf => Raise ValueError
  | NaN => Ok NaN
  end.

(** [math.log10]: a [ValueError] at zero and below. *)
Definition math_log10 (x : npfloat) : result npfloat :=
  match x with
  | Finite r => if Rle_dec r 0 then Raise ValueError else Ok (Finite (log10 r))
  | PInf => Ok PInf
  | NInf => Raise ValueError
  | NaN => Ok NaN
  end.

(** [x / y] for a Python float [x]: Python's division raises on zero. *)
Definition pyfloat_div (x : R) (y : npfloat) : result npfloat :=
  match y with
  | Finite r =>
      if Req_dec_T r 0 then Raise ZeroDivisionError else Ok (Finite (x / r))
  | PInf | NInf => Ok (Finite 0)
  | NaN => Ok NaN
  end.

(** [x / y] for a numpy integer [x] and a float64 [y]. *)
Definition np_div_by (x : R) (y : npfloat) : npfloat :=
  match y with
  | Finite r => np_div x r
  | PInf | NInf => Finite 0
  | NaN => NaN
  end.

(** [np.log10]: -inf at zero, nan below, no exception. *)
Definition np_log10 (x : npfloat) : npfloat :=
  match x with
  | Finite r =>
      if Req_dec_T r 0 then NInf
      else if Rlt_dec r 0 then NaN else Finite (log10 r)
  | PInf => PInf
  | NInf => NaN
  | NaN => NaN
  end.

(** [k * x] for a positive constant [k]. *)
Definition scale (k : R) (x : npfloat) : npfloat :=
  match x with Finite r => Finite (k * r) | other => other end.

(** [x > y] on float64: false as soon as a nan is involved. *)
Definition np_gt (x y : npfloat) : bool :=
  match x, y with
  | NaN, _ | _, NaN => false
  | PInf, PInf => false
  | PInf, _ => true
  | _, PInf => false
  | NInf, _ => false
  | Finite _, NInf => true
  | Finite a, Finite b => if Rlt_dec b a then true else false
  end.

End Num.

(** ** Arrays *)

Abbreviation vector A := (list A).
Abbreviation matrix A := (list (list A)).

(** The element arithmetic of a numpy dtype, as far as the lab uses it. *)
Class DType (A : Type) := {
  dt_sub : A -> A -> A;      (* x - y *)
  dt_sq : A -> A;            (* x ** 2, np.power(x, 2) *)
  dt_float : A -> R;         (* the value as float64 *)
}.

(** uint8 wraps around modulo 256. *)
#[global] Instance uint8 : DType Z := {|
  dt_sub x y := ((x - y) mod 256)%Z;
  dt_sq x := ((x * x) mod 256)%Z;
  dt_float := IZR;
|}.

#[global] Instance float64 : DType R := {|
  dt_sub := Rminus;
  dt_sq x := (x ^ 2)%R;
  dt_float x := x;
|}.

(** What the PSNR facts need of a dtype: a difference of equal elements
    squares to zero, and squares are never negative. *)
Class DTypeLaws (A : Type) `{DType A} := {
  dt_sq_sub_diag : forall x : A, dt_float (dt_sq (dt_sub x x)) = 0%R;
  dt_sq_nonneg : forall x : A, (0 <= dt_float (dt_sq x))%R;
}.

Module Np.
Import Num.
Local Open Scope R_scope.

(** numpy broadcasting along one axis: equal lengths pair up, a length of 1
    is stretched, anything else is a [ValueError]. *)
Definition broadcast {A B C} (f : A -> B -> result C)
    (a : list A) (b : list B) : result (list C) :=
  if (length a =? length b)%nat then mapM (fun '(x, y) => f x y) (zip a b)
  else match a, b with
       | [x], _ => mapM (f x) b
       | _, [y] => mapM (fun x => f x y) a
       | _, _ => Raise ValueError
       end.

Definition elementwise {A B C} (f : A -> B -> C) : A -> B -> result C :=
  fun x y => Ok (f x y).

(** [a * b] on one-dimensional arrays. *)
Definition mul1 (a b : vector R) : result (vector R) :=
  broadcast (elementwise Rmult) a b.

(** [a ** 2] on a one-dimensional array. *)
Definition square1 (a : vector R) : vector R := map (fun x => x ^ 2) a.

(** Dot product and squared norm, the two sums of the correlation. *)
Definition dot (a b : vector R) : R := fold_left Rplus (zip_with Rmult a b) 0.
Definition sumsq (a : vector R) : R := fold_left Rplus (square1 a) 0.

(** The zero vector of any length (the empty vector included). *)
Definition is_zero_vector (a : vector R) : Prop := Forall (fun x => x = 0) a.

(** [a.flatten()] of a two-dimensional array, row by row. *)
Definition flatten {A} (m : matrix A) : vector A := concat m.

(** [a - b] on two-dimensional arrays of one dtype. *)
Definition sub2 `{DType A} (a b : matrix A) : result (matrix A) :=
  broadcast (broadcast (elementwise dt_sub)) a b.

(** [a ** 2] and [np.power(a, 2)] on a two-dimensional array. *)
Definition square2 `{DType A} (a : matrix A) : matrix A := map (map dt_sq) a.

(** [np.mean(a)]: the float64 mean over all elements, nan on an empty
    array. *)
Definition mean `{DType A} (a : matrix A) : npfloat :=
  np_div (fold_right Rplus 0 (map dt_float (flatten a)))
         (INR (length (flatten a))).

(** A rectangular array of [h] rows and [w] columns. *)
Definition has_shape {A} (h w : nat) (m : matrix A) : Prop :=
  length m = h /\ Forall (fun row => length row = w) m.

(** *** Slices *)

(** A slice bound as Python normalises it for a sequence of length [n]:
    negative bounds count from the end, everything is clamped to [0, n]. *)
Definition clamp_index (n : nat) (k : Z) : nat :=
  Z.to_nat (if (k <? 0)%Z then Z.max 0 (k + Z.of_nat n)
            else Z.min k (Z.of_nat n)).

(** [l[start:stop]]. *)
Definition slice {A} (start stop : Z) (l : list A) : list A :=
  let a := clamp_index (length l) start in
  let b := clamp_index (length l) stop in
  take (b - a) (drop a l).

(** [m[r0:r1, c0:c1]]. *)
Definition slice2 {A} (r0 r1 c0 c1 : Z) (m : matrix A) : matrix A :=
  map (slice c0 c1) (slice r0 r1 m).

(** Broadcasting a value along one axis of an assignment target of length
    [n]. *)
Definition stretch {A} (n : nat) (l : list A) : result (list A) :=
  if (length l =? n)%nat then Ok l
  else match l with
       | [x] => Ok (repeat x n)
       | _ => Raise ValueError
       end.

(** [l[start:stop] = v], in place. *)
Definition setitem {A} (start stop : Z) (v : list A) (l : list A)
    : result (list A) :=
  let a := clamp_index (length l) start in
  let b := clamp_index (length l) stop in
  v' ← stretch (b - a) v;
  Ok (take a l ++ v' ++ drop (a + (b - a)) l).

(** [m[r0:r1, c0:c1] = v], in place: the value must have the shape of the
    target region, up to broadcasting; nothing is out of bounds, the bounds
    are clamped.  (A matrix without rows has no recorded width.) *)
Definition setitem2 {A} (r0 r1 c0 c1 : Z) (v : matrix A) (m : matrix A)
    : result (matrix A) :=
  let a := clamp_index (length m) r0 in
  let b := clamp_index (length m) r1 in
  let rows := take (b - a) (drop a m) in
  v' ← stretch (length rows) v;
  rows' ← mapM (fun '(row, vrow) => setitem c0 c1 vrow row) (zip rows v');
  Ok (take a m ++ rows' ++ drop (a + (b - a)) m).

(** *** Complex arrays *)

Definition C : Type := R * R.

Definition Cabs (z : C) : R := sqrt (z.1 ^ 2 + z.2 ^ 2).

(** [exp(t * 1j)]. *)
Definition Cexp_i (t : R) : C := (cos t, sin t).

Definition Cdiv (z w : C) : C :=
  ((z.1 * w.1 + z.2 * w.2) / (w.1 ^ 2 + w.2 ^ 2),
   (z.2 * w.1 - z.1 * w.2) / (w.1 ^ 2 + w.2 ^ 2)).

(** A real magnitude times a complex number. *)
Definition Cscale (x : R) (w : C) : C := (x * w.1, x * w.2).

(** Element by element on two-dimensional arrays, with broadcasting. *)
Definition zip2 {A B D} (f : A -> B -> D) (a : matrix A) (b : matrix B)
    : result (matrix D) :=
  broadcast (broadcast (elementwise f)) a b.

(** A uint8 array read as floats. *)
Definition as_float (m : matrix Z) : matrix R := map (map IZR) m.

(** [int(x)] for a float [x], here a rational: truncation towards zero. *)
Definition py_int (x : Q) : Z := Z.quot (Qnum x) (Z.pos (Qden x)).

End Np.

(** ** Library code *)

(** numpy's transforms, [cmath.phase] and the PNG round trip
    ([Image.fromarray(a).convert("RGB").save(f)] followed by
    [np.asarray(Image.open(f).convert("L"))]) are not part of the lab. *)
Record externals := {
  fft2 : matrix R -> matrix Np.C;
  ifft2 : matrix Np.C -> matrix Np.C;
  phase : Np.C -> R;
  save_and_reload : matrix R -> matrix Z;
}.

(** ** The random generator *)

(** numpy's global generator: a sequence of standard-normal samples and the
    position of the next one.  [np.random.normal(0, 1, size)] hands out the
    next samples in order, as many as [size] asks for. *)
Record rng := { samples : nat -> R; cursor : nat }.

Module Random.

Definition advance (n : nat) (g : rng) : rng :=
  {| samples := samples g; cursor := cursor g + n |}.

(** [np.random.normal(0, 1, size=[n])]. *)
Definition normal1 (n : Z) (g : rng) : vector R * rng :=
  (map (samples g) (seq (cursor g) (Z.to_nat n)), advance (Z.to_nat n) g).

(** [np.random.normal(0, 1, size=[r, c])], filled row by row. *)
Definition normal2 (r c : Z) (g : rng) : matrix R * rng :=
  (map (fun i => map (samples g) (seq (cursor g + i * Z.to_nat c) (Z.to_nat c)))
       (seq 0 (Z.to_nat r)),
   advance (Z.to_nat r * Z.to_nat c) g).

End Random.

(** ** The correlation primitive *)

Module Lab04.
Import Num Np Random.
Local Open Scope R_scope.

(** Line 15. *)
Definition ALPHA : R := 1.

(** [process_threshold], lines 19-25. *)
Definition process_threshold (x : npfloat) : Z :=
  if np_gt x (Finite 0.1) then 1%Z else 0%Z.

(** [calculate_proximity], lines 114-121. *)
Definition calculate_proximity (first_cvz second_cvz : vector R)
    : result npfloat :=
  prod ← mul1 first_cvz second_cvz;
  py_div (py_sum prod)
         (py_mul (py_pow_half (py_sum (square1 first_cvz)))
                 (py_pow_half (py_sum (square1 second_cvz)))).

(** [calculate_psnr], lines 28-39. *)
Definition calculate_psnr `{DType A} (original compressed : matrix A)
    : result npfloat :=
  diff ← sub2 original compressed;
  let mse := mean (square2 diff) in
  if (match mse with
      | Finite m => if Req_dec_T m 0 then true else false
      | _ => false
      end)
  then Ok (Finite 100)
  else
    let max_pixel := 255 in
    root ← math_sqrt mse;
    ratio ← pyfloat_div max_pixel root;
    l ← math_log10 ratio;
    Ok (scale 20 l).

(** [calculate_psnr_alternative], lines 42-49. *)
Definition calculate_psnr_alternative `{DType A} (c cw : matrix A)
    : result npfloat :=
  diff ← sub2 c cw;
  Ok (scale 10 (np_log10 (np_div_by (255 ^ 2) (mean (square2 diff))))).

(** The block that follows every embedding and every attack (lines 82-91,
    145-154, 170-179, 195-204, 219-228, 270-279): divide the original phase
    out of the candidate's spectrum, subtract the original magnitude on the
    central block, divide by [ALPHA], correlate with [CVZ] by the formula of
    [calculate_proximity], written out in place. *)
Definition extract_cvz (lib : externals)
    (phase_array original_abs_spectrum candidate : matrix R)
    : result (matrix R) :=
  let reverse_spectre_array := fft2 lib candidate in
  quotient ← zip2 Cdiv reverse_spectre_array (map (map Cexp_i) phase_array);
  let reverse_abs_spectrum := map (map Cabs) quotient in
  diff ← zip2 Rminus (slice2 128 384 128 384 reverse_abs_spectrum)
            (slice2 128 384 128 384 original_abs_spectrum);
  Ok (map (map (fun x => x / ALPHA)) diff).

Definition extract_and_correlate (lib : externals)
    (CVZ phase_array original_abs_spectrum candidate : matrix R)
    : result npfloat :=
  included_cvz ← extract_cvz lib phase_array original_abs_spectrum candidate;
  let flatten_cvz := flatten CVZ in
  let flatten_included_cvz := flatten included_cvz in
  calculate_proximity flatten_cvz flatten_included_cvz.

(** The mean squared error both PSNR functions start from. *)
Definition mean_squared_error `{DType A} (c cw : matrix A) : result npfloat :=
  diff ← sub2 c cw; Ok (mean (square2 diff)).

(** [generate_false_detection_vectors], lines 104-111: [count] draws of
    65536 samples each, appended in order.  [draw_vectors size n] is the
    loop, run [n] times. *)
Fixpoint draw_vectors (size : Z) (n : nat)
    (false_detection_cvz : list (vector R)) (g : rng)
    : list (vector R) * rng :=
  match n with
  | O => (false_detection_cvz, g)
  | S n' =>
      draw_vectors size n'
        (false_detection_cvz ++ [(normal1 size g).1]) (normal1 size g).2
  end.

Definition generate_false_detection_vectors (count : Z) (g : rng)
    : list (vector R) * rng :=
  draw_vectors 65536 (Z.to_nat count) [] g.

(** [detect_false_proximity], lines 124-134: one call of
    [calculate_proximity(cvz, false_cvz)] per decoy, in order. *)
Definition detect_false_proximity (false_detection_cvz : list (vector R))
    (cvz : vector R) : result (list npfloat) :=
  mapM (fun false_cvz => calculate_proximity cvz false_cvz) false_detection_cvz.

(** The false-positive stage of the script: line 16 draws the watermark,
    lines 233-236 draw the decoys and score them.  It runs before the image
    is loaded. *)
Record false_positive_stage := {
  CVZ : matrix R;
  false_detection_cvz : list (vector R);
  false_detection_proximity_array : result (list npfloat);
  generator : rng;
}.

Definition run_false_positive_stage (g : rng) : false_positive_stage :=
  let cvz := normal2 256 256 g in
  let decoys := generate_false_detection_vectors 100 cvz.2 in
  {| CVZ := cvz.1;
     false_detection_cvz := decoys.1;
     false_detection_proximity_array :=
       detect_false_proximity decoys.1 (flatten cvz.1);
     generator := decoys.2 |}.

(** The score series the false-positive analysis would report if every decoy
    were correlated against [reference]. *)
Definition scores_against (reference : vector R) (decoys : list (vector R))
    : result (list npfloat) :=
  mapM (fun decoy => calculate_proximity reference decoy) decoys.

End Lab04.

(** ** Embedding and the search for alpha *)

(** numpy arrays are objects: a name holds a reference, an assignment to a
    slice changes the object for every name that refers to it. *)
Record heap := { cells : gmap nat (matrix R); next : nat }.

Definition prog (A : Type) : Type := heap -> result A * heap.

Module Heap.

Definition empty : heap := {| cells := ∅; next := 0 |}.

Definition ret {A} (a : A) : prog A := fun h => (Ok a, h).

Definition bind {A B} (c : prog A) (k : A -> prog B) : prog B :=
  fun h => match c h with
           | (Ok a, h') => k a h'
           | (Raise e, h') => (Raise e, h')
           end.

(** A pure step that may raise. *)
Definition lift {A} (r : result A) : prog A := fun h => (r, h).

(** A new array object. *)
Definition alloc (a : matrix R) : prog nat :=
  fun h => (Ok (next h),
            {| cells := <[next h := a]> (cells h); next := S (next h) |}).

(** The array a name refers to (a name always refers to a live array). *)
Definition load (l : nat) : prog (matrix R) :=
  fun h => match cells h !! l with
           | Some a => (Ok a, h)
           | None => (Raise NameError, h)
           end.

Definition store (l : nat) (a : matrix R) : prog unit :=
  fun h => (Ok tt, {| cells := <[l := a]> (cells h); next := next h |}).

(** [name[r0:r1, c0:c1] = v]. *)
Definition assign2 (l : nat) (r0 r1 c0 c1 : Z) (v : matrix R) : prog unit :=
  bind (load l) (fun a =>
  bind (lift (Np.setitem2 r0 r1 c0 c1 v a)) (fun a' =>
  store l a')).

End Heap.

#[global] Instance prog_ret : MRet prog := @Heap.ret.
#[global] Instance prog_bind : MBind prog := fun A B k c => Heap.bind c k.

Module Embedder.
Import Num Np Lab04 Heap.
Local Open Scope R_scope.

(** The names an embedding leaves behind: four references into the heap and
    two arrays nobody assigns into. *)
Record embedded := {
  phase_array : nat;
  abs_spectrum : nat;
  original_abs_spectrum : nat;
  modified_abs_spectrum : nat;
  modified_spectrum : matrix C;
  reverse_array : matrix R;
}.

(** Lines 62-74 and, word for word, lines 250-261: the embedding at the
    strength the module constant [ALPHA] gives.  [abs(...)] makes a new
    array each time; [modified_abs_spectrum = abs_spectrum] does not. *)
Definition embed (lib : externals) (ALPHA : R) (CVZ : matrix R)
    (image_array : matrix R) : prog embedded :=
  let spectre_array := fft2 lib image_array in
  phase_array ← alloc (map (map (phase lib)) spectre_array);
  abs_spectrum ← alloc (map (map Cabs) spectre_array);
  original_abs_spectrum ← alloc (map (map Cabs) spectre_array);
  let modified_abs_spectrum := abs_spectrum in
  a ← load abs_spectrum;
  block ← lift (zip2 Rplus (slice2 128 384 128 384 a)
                  (map (map (Rmult ALPHA)) CVZ));
  _ ← assign2 modified_abs_spectrum 128 384 128 384 block;
  m ← load modified_abs_spectrum;
  ph ← load phase_array;
  modified_spectrum ← lift (zip2 Cscale m (map (map Cexp_i) ph));
  let reverse_array := map (map Cabs) (ifft2 lib modified_spectrum) in
  mret {| phase_array := phase_array;
         abs_spectrum := abs_spectrum;
         original_abs_spectrum := original_abs_spectrum;
         modified_abs_spectrum := modified_abs_spectrum;
         modified_spectrum := modified_spectrum;
         reverse_array := reverse_array |}.

(** [range(start, stop, step)] for a positive step. *)
Definition py_range (start stop step : Z) : list Z :=
  map (fun i => (start + step * Z.of_nat i)%Z)
      (seq 0 (Z.to_nat ((stop - start + step - 1) / step))).

(** What one pass of the loop of [select_best_alpha] computes before it
    compares: the proximity, and the PSNR when the watermark was detected.
    Lines 61-95.  [alpha] is the loop variable; the body logs it and embeds
    and extracts with [ALPHA]. *)
Definition alpha_trial (lib : externals) (CVZ : matrix R) (image : matrix Z)
    (alpha : Z) : prog (npfloat * option npfloat) :=
  let image_array := image in
  e ← embed lib ALPHA CVZ (as_float image_array);
  let reverse_array := save_and_reload lib (reverse_array e) in
  ph ← load (phase_array e);
  orig ← load (original_abs_spectrum e);
  p ← lift (extract_and_correlate lib CVZ ph orig (as_float reverse_array));
  let included_cvz_estimation := process_threshold p in
  if (included_cvz_estimation =? 0)%Z then mret (p, None)
  else
    new_psnr ← lift (calculate_psnr_alternative image_array reverse_array);
    mret (p, Some new_psnr).

(** Lines 96-99: the best candidate so far is replaced only by a strictly
    larger PSNR. *)
Definition update_best (alpha : Z) (trial : npfloat * option npfloat)
    (best : Z * npfloat * npfloat) : Z * npfloat * npfloat :=
  let '(best_alpha, psnr, best_proximities) := best in
  match trial with
  | (p, Some new_psnr) =>
      if np_gt new_psnr psnr then (alpha, new_psnr, p) else best
  | (_, None) => best
  end.

(** The first two components of the triple the loop carries. *)
Definition best_alpha_of (best : Z * npfloat * npfloat) : Z := best.1.1.
Definition psnr_of (best : Z * npfloat * npfloat) : npfloat := best.1.2.

(** The loop of lines 60-100 over a grid, for any way of evaluating a
    candidate. *)
Fixpoint search (trial : Z -> prog (npfloat * option npfloat))
    (grid : list Z) (best : Z * npfloat * npfloat)
    : prog (Z * npfloat * npfloat) :=
  match grid with
  | [] => mret best
  | alpha :: rest =>
      t ← trial alpha;
      search trial rest (update_best alpha t best)
  end.

(** [select_best_alpha], lines 52-101; the result is
    [(best_alpha, psnr, best_proximities)]. *)
Definition select_best_alpha (lib : externals) (CVZ : matrix R)
    (image : matrix Z) : prog (Z * npfloat * npfloat) :=
  search (alpha_trial lib CVZ image) (py_range 1 1001 100)
         (0%Z, Finite 0, Finite 0).

(** Element [(i, j)] of a two-dimensional array. *)
Definition entry {A} (i j : nat) (m : matrix A) : option A :=
  m !! i ≫= fun row => row !! j.

(** An array with the block of rows and columns 128 to 383 replaced. *)
Definition with_block {A} (block m : matrix A) : matrix A :=
  take 128 m
  ++ zip_with (fun row b => take 128 row ++ b ++ drop 384 row)
       (take 256 (drop 128 m)) block
  ++ drop 384 m.

(** The magnitude array after the embedding at strength [s]. *)
Definition embedded_magnitude (lib : externals) (s : R) (CVZ : matrix R)
    (image_array : matrix R) : matrix R :=
  let m := map (map Cabs) (fft2 lib image_array) in
  with_block
    (zip_with (zip_with Rplus) (slice2 128 384 128 384 m)
       (map (map (Rmult s)) CVZ)) m.

(** A stand-in for the library, used to evaluate the model: a transform
    that puts every sample on the real axis, the matching phase, and a codec
    that stores zeros. *)
Definition toy_lib : externals := {|
  fft2 := map (map (fun x => (x, 0)));
  ifft2 := fun m => m;
  phase := fun _ => 0;
  save_and_reload := map (map (fun _ => 0%Z));
|}.

(** Library code keeps the shape of the array it is given. *)
Definition shape_preserving (lib : externals) : Prop :=
  (forall h w m, has_shape h w m -> has_shape h w (fft2 lib m))
  /\ (forall h w m, has_shape h w m -> has_shape h w (ifft2 lib m))
  /\ (forall h w m, has_shape h w m -> has_shape h w (save_and_reload lib m)).

(** Arrays of the lab's sizes to evaluate the model on. *)
Definition flat_image (v : Z) : matrix Z := repeat (repeat v 512) 512.
Definition flat_watermark (v : R) : matrix R := repeat (repeat v 256) 256.

(** Rows and columns 128 to 383. *)
Definition in_block (i j : nat) : bool :=
  (128 <=? i)%nat && (i <? 384)%nat && (128 <=? j)%nat && (j <? 384)%nat.

End Embedder.

(** ** The crop-replace attack *)

Module Attack.
Import Num Np Lab04.
Local Open Scope R_scope.

(** The module-level names the attack reads, and [reverse_array], which it
    assigns into. *)
Record globals := {
  CVZ : matrix R;
  image_array : matrix Z;
  phase_array : matrix R;
  original_abs_spectrum : matrix R;
  reverse_array : matrix Z;
}.

Definition set_reverse_array (a : matrix Z) (g : globals) : globals :=
  {| CVZ := CVZ g;
     image_array := image_array g;
     phase_array := phase_array g;
     original_abs_spectrum := original_abs_spectrum g;
     reverse_array := a |}.

(** [int(replacement_proportion * len(a))], with the product taken exactly:
    the proportion is read as the rational it denotes.  In float64 the
    product is rounded before [int] truncates it, which can move the bound
    by one (0.29 * 400 gives 115 where the exact product gives 116), and
    [int] raises on an infinite or nan product; neither happens on the 512
    rows of the carrier with the proportions of the sweep. *)
Definition cut_bound {A} (replacement_proportion : Q) (a : matrix A) : Z :=
  py_int (replacement_proportion * inject_Z (Z.of_nat (length a))).

(** Lines 163-169: the slice assignment into [reverse_array]. *)
Definition cut_replace (replacement_proportion : Q)
    (reverse_array image_array : matrix Z) : result (matrix Z) :=
  let kr := cut_bound replacement_proportion reverse_array in
  let ki := cut_bound replacement_proportion image_array in
  setitem2 0 kr 0 kr (slice2 0 ki 0 ki image_array) reverse_array.

(** [apply_cut_and_calculate_proximity], lines 159-181.  The assignment
    changes the module-level array, so the new globals are returned with the
    score. *)
Definition apply_cut_and_calculate_proximity (lib : externals)
    (replacement_proportion : Q) (g : globals) : result npfloat * globals :=
  match cut_replace replacement_proportion (reverse_array g) (image_array g)
  with
  | Raise e => (Raise e, g)
  | Ok a =>
      let g' := set_reverse_array a g in
      (extract_and_correlate lib (CVZ g') (phase_array g')
         (original_abs_spectrum g') (as_float (reverse_array g')), g')
  end.

(** The array a crop-replace call leaves in [reverse_array]. *)
Definition after_cut (replacement_proportion : Q)
    (reverse_array image_array : matrix Z) : matrix Z :=
  match cut_replace replacement_proportion reverse_array image_array with
  | Ok a => a
  | Raise _ => reverse_array
  end.

(** A 512x512 carrier of zeros and a watermarked version of ones, to
    evaluate the attack on. *)
Definition carrier0 : matrix Z := repeat (repeat 0%Z 512) 512.
Definition watermarked0 : matrix Z := repeat (repeat 1%Z 512) 512.

Definition pixel (r c : nat) (m : matrix Z) : Z := nth c (nth r m []) 0%Z.

End Attack.

(** ** Further definitions used by the additional properties *)

From Stdlib Require Import Sorted.

(** Element arithmetic that does not depend on the order of the operands of
    the difference once it is squared. *)
Class DTypeSymmetric (A : Type) `{DType A} := {
  dt_sq_sub_sym :
    forall x y : A, dt_float (dt_sq (dt_sub x y)) = dt_float (dt_sq (dt_sub y x));
}.

Module More.
Import Num Np.

(** The list of squared differences, as floats, row after row. *)
Definition squared_differences `{DType A} (a b : matrix A) : list R :=
  map dt_float (flatten (square2 (zip_with (zip_with dt_sub) a b))).

End More.

(** ** The other attacks and the sweep over crop proportions *)


Module Attacks.
Import Num Np Lab04 Attack.
Local Open Scope R_scope.






(** Lines 163-169 with the two bounds as [int] returned them: [kr] for
    [int(replacement_proportion * len(reverse_array))] and [ki] for
    [int(replacement_proportion * len(image_array))]. *)
Definition cut_replace_at (kr ki : Z) (reverse_array image_array : matrix Z)
    : result (matrix Z) :=
  setitem2 0 kr 0 kr (slice2 0 ki 0 ki image_array) reverse_array.

(** The loop of lines 286-292: one call per proportion, in order, the scores
    appended; an exception ends the script. *)
Fixpoint cut_loop (lib : externals) (cut_param_array : list Q)
    (cut_proximities : list npfloat) (g : globals)
    : result (list npfloat) * globals :=
  match cut_param_array with
  | [] => (Ok cut_proximities, g)
  | cut_param :: rest =>
      match apply_cut_and_calculate_proximity lib cut_param g with
      | (Ok proximity, g') =>
          cut_loop lib rest (cut_proximities ++ [proximity]) g'
      | (Raise e, g') => (Raise e, g')
      end
  end.


End Attacks.

(** * Properties *)

Module CorrelationFacts.
Import Num Np Lab04.
Local Open Scope R_scope.


Lemma fold_left_Rplus_acc (l : list R) (x : R) :
  fold_left Rplus l x = x + fold_left Rplus l 0.
Proof.
  revert x; induction l as [|y l IH]; intros x; simpl.
  - lra.
  - rewrite IH, (IH (0 + y)). lra.
Qed.

Lemma py_sum_fold (l : list R) (acc : R) :
  fold_left py_add (map NpFloat l) (NpFloat acc) = NpFloat (fold_left Rplus l acc).
Proof.
  revert acc; induction l as [|y l IH]; intros acc; simpl; [done|].
  apply IH.
Qed.

Lemma py_sum_cons (x : R) (l : list R) :
  py_sum (x :: l) = NpFloat (fold_left Rplus (x :: l) 0).
Proof.
  unfold py_sum; simpl. unfold py_add at 2; simpl.
  rewrite py_sum_fold. done.
Qed.

Lemma py_sum_nonempty (l : list R) :
  l <> [] -> py_sum l = NpFloat (fold_left Rplus l 0).
Proof. destruct l; [done|]. intros _. apply py_sum_cons. Qed.

Lemma mapM_elementwise {A B C} (f : A -> B -> C) (l : list (A * B)) :
  mapM (fun '(x, y) => elementwise f x y) l = Ok (map (fun '(x, y) => f x y) l).
Proof.
  induction l as [|[x y] l IH]; simpl; [done|].
  rewrite IH. done.
Qed.

Lemma mul1_same_length (a b : vector R) :
  length a = length b -> mul1 a b = Ok (zip_with Rmult a b).
Proof.
  intros Hlen. unfold mul1, broadcast.
  rewrite Hlen, Nat.eqb_refl, mapM_elementwise.
  f_equal. clear Hlen. revert b; induction a as [|x a IH]; intros [|y b]; simpl; try done.
  by rewrite IH.
Qed.

Lemma dot_cons (x y : R) (a b : vector R) :
  dot (x :: a) (y :: b) = x * y + dot a b.
Proof. unfold dot; simpl. rewrite fold_left_Rplus_acc. lra. Qed.

Lemma sumsq_cons (x : R) (a : vector R) : sumsq (x :: a) = x ^ 2 + sumsq a.
Proof. unfold sumsq; simpl. rewrite fold_left_Rplus_acc. lra. Qed.

Lemma sumsq_nonneg (a : vector R) : 0 <= sumsq a.
Proof.
  induction a as [|x a IH]; [unfold sumsq; simpl; lra|].
  rewrite sumsq_cons. nra.
Qed.

Lemma dot_comm (a b : vector R) : dot a b = dot b a.
Proof.
  revert b; induction a as [|x a IH]; intros [|y b]; try done.
  rewrite !dot_cons, IH. lra.
Qed.

Lemma dot_self (a : vector R) : dot a a = sumsq a.
Proof.
  induction a as [|x a IH]; [done|].
  rewrite dot_cons, sumsq_cons, IH. lra.
Qed.

Lemma sumsq_zero (a : vector R) : is_zero_vector a -> sumsq a = 0.
Proof.
  induction 1 as [|x a Hx _ IH]; [done|].
  rewrite sumsq_cons, IH, Hx. lra.
Qed.

Lemma sumsq_zero_inv (a : vector R) : sumsq a = 0 -> is_zero_vector a.
Proof.
  induction a as [|x a IH]; [constructor|].
  rewrite sumsq_cons. intros H.
  pose proof (sumsq_nonneg a). 
  constructor; [nra|apply IH; nra].
Qed.

Lemma dot_zero_l (a b : vector R) : is_zero_vector a -> dot a b = 0.
Proof.
  intros Ha; revert b; induction Ha as [|x a Hx _ IH]; intros [|y b]; try done.
  rewrite dot_cons, IH, Hx. lra.
Qed.

Lemma sumsq_pos (a : vector R) : ~ is_zero_vector a -> 0 < sumsq a.
Proof.
  intros Hnz. pose proof (sumsq_nonneg a).
  destruct (Req_dec (sumsq a) 0) as [Hz|]; [|lra].
  destruct Hnz. by apply sumsq_zero_inv.
Qed.

(** Cauchy-Schwarz, in the squared form. *)
Lemma cauchy_schwarz (a b : vector R) :
  length a = length b -> (dot a b) ^ 2 <= sumsq a * sumsq b.
Proof.
  revert b; induction a as [|x a IH]; intros [|y b] Hlen; try done.
  - unfold dot, sumsq; simpl. lra.
  - rewrite dot_cons, !sumsq_cons.
    injection Hlen as Hlen. specialize (IH b Hlen).
    pose proof (sumsq_nonneg a) as HA. pose proof (sumsq_nonneg b) as HB.
    set (A := sumsq a) in *. set (B := sumsq b) in *. set (D := dot a b) in *.
    assert (Hk : 2 * D * (x * y) <= A * y ^ 2 + B * x ^ 2).
    { destruct (Rle_dec (2 * D * (x * y)) 0) as [|Hpos]; [nra|].
      apply Rnot_le_lt in Hpos.
      assert (Hsq : (2 * D * (x * y)) ^ 2 <= (A * y ^ 2 + B * x ^ 2) ^ 2).
      { assert (0 <= (A * y ^ 2 - B * x ^ 2) ^ 2) by (apply pow2_ge_0).
        assert (D ^ 2 * (x ^ 2 * y ^ 2) <= A * B * (x ^ 2 * y ^ 2)).
        { apply Rmult_le_compat_r; [|lra]. nra. }
        nra. }
      assert (0 <= A * y ^ 2 + B * x ^ 2) by nra.
      destruct (Rle_dec (2 * D * (x * y)) (A * y ^ 2 + B * x ^ 2)); [done|nra]. }
    nra.
Qed.

(** On non-empty vectors of one length the function is the quotient of the
    dot product by the product of the norms, divided the numpy way. *)
Lemma calculate_proximity_eq (a b : vector R) :
  length a = length b -> a <> [] ->
  calculate_proximity a b
  = Ok (np_div (dot a b) (sqrt (sumsq a) * sqrt (sumsq b))).
Proof.
  intros Hlen Ha. unfold calculate_proximity.
  rewrite mul1_same_length by done. simpl.
  destruct a as [|x a]; [done|]. destruct b as [|y b]; [done|].
  simpl zip_with. unfold square1. simpl map.
  rewrite !py_sum_cons. done.
Qed.

Lemma np_div_finite (x y : R) : y <> 0 -> np_div x y = Finite (x / y).
Proof. intros Hy. unfold np_div. by destruct (Req_dec_T y 0). Qed.

Lemma np_div_zero_zero : np_div 0 0 = NaN.
Proof.
  unfold np_div. destruct (Req_dec_T 0 0) as [_|H]; [|by destruct H].
  done.
Qed.

Lemma nonzero_nonempty (a : vector R) : ~ is_zero_vector a -> a <> [].
Proof. intros H ->. apply H. constructor. Qed.

Lemma norm_product_pos (a b : vector R) :
  ~ is_zero_vector a -> ~ is_zero_vector b ->
  0 < sqrt (sumsq a) * sqrt (sumsq b).
Proof.
  intros Ha Hb. apply Rmult_lt_0_compat; apply sqrt_lt_R0; by apply sumsq_pos.
Qed.

Lemma calculate_proximity_nonzero (a b : vector R) :
  length a = length b -> ~ is_zero_vector a -> ~ is_zero_vector b ->
  calculate_proximity a b
  = Ok (Finite (dot a b / (sqrt (sumsq a) * sqrt (sumsq b)))).
Proof.
  intros Hlen Ha Hb.
  rewrite calculate_proximity_eq by auto using nonzero_nonempty.
  rewrite np_div_finite; [done|].
  pose proof (norm_product_pos a b Ha Hb). lra.
Qed.

Lemma cosine_bounds (a b : vector R) :
  length a = length b -> ~ is_zero_vector a -> ~ is_zero_vector b ->
  -1 <= dot a b / (sqrt (sumsq a) * sqrt (sumsq b)) <= 1.
Proof.
  intros Hlen Ha Hb.
  pose proof (norm_product_pos a b Ha Hb) as Hpos.
  pose proof (cauchy_schwarz a b Hlen) as Hcs.
  set (n := sqrt (sumsq a) * sqrt (sumsq b)) in *.
  assert (Hn2 : n ^ 2 = sumsq a * sumsq b).
  { unfold n. rewrite Rpow_mult_distr, !pow2_sqrt by apply sumsq_nonneg. done. }
  assert (Habs : - n <= dot a b <= n).
  { split.
    - destruct (Rle_dec (- n) (dot a b)); [done|nra].
    - destruct (Rle_dec (dot a b) n); [done|nra]. }
  assert (Hinv : 0 < / n) by (by apply Rinv_0_lt_compat).
  assert (Hni : n * / n = 1) by (field; lra).
  unfold Rdiv. split; nra.
Qed.

Lemma proximity_of_zero_vector (a b : vector R) :
  length a = length b -> a <> [] ->
  is_zero_vector a \/ is_zero_vector b ->
  calculate_proximity a b = Ok NaN.
Proof.
  intros Hlen Hne Hz.
  rewrite calculate_proximity_eq by done.
  assert (dot a b = 0) as ->.
  { destruct Hz; [by apply dot_zero_l|]. rewrite dot_comm. by apply dot_zero_l. }
  assert (sqrt (sumsq a) * sqrt (sumsq b) = 0) as ->.
  { destruct Hz as [Hz|Hz]; rewrite (sumsq_zero _ Hz), sqrt_0; lra. }
  by rewrite np_div_zero_zero.
Qed.

End CorrelationFacts.

Section Correlation.
Import Num Np Lab04 CorrelationFacts.
Local Open Scope R_scope.

(** C8: on non-zero vectors of one length the correlation is symmetric, lies
    in [-1, 1] and is 1 for a vector against itself. *)
Theorem calculate_proximity_cosine (a b v : vector R) :
  length a = length b ->
  ~ is_zero_vector a -> ~ is_zero_vector b -> ~ is_zero_vector v ->
  calculate_proximity a b = calculate_proximity b a
  /\ (exists r, calculate_proximity a b = Ok (Finite r) /\ -1 <= r <= 1)
  /\ calculate_proximity v v = Ok (Finite 1).
Proof.
  intros Hlen Ha Hb Hv. split; [|split].
  - rewrite !calculate_proximity_nonzero by done.
    rewrite (dot_comm a b), (Rmult_comm (sqrt (sumsq a))). done.
  - eexists; split; [by apply calculate_proximity_nonzero|].
    by apply cosine_bounds.
  - rewrite calculate_proximity_nonzero by done.
    rewrite dot_self, sqrt_sqrt by apply sumsq_nonneg.
    pose proof (sumsq_pos v Hv).
    do 2 f_equal. field. lra.
Qed.

Lemma calculate_proximity_cosine_witness :
  calculate_proximity [3; 4] [4; 3] = calculate_proximity [4; 3] [3; 4]
  /\ (exists r, calculate_proximity [3; 4] [4; 3] = Ok (Finite r) /\ -1 <= r <= 1)
  /\ calculate_proximity [1; 2] [1; 2] = Ok (Finite 1).
Proof.
  apply (calculate_proximity_cosine [3; 4] [4; 3] [1; 2]); [reflexivity|..];
    intros H; inversion H; lra.
Defined.

(** C3, as the code has it: no check is made.  On non-empty vectors of one
    length of which at least one is all zeros, the dot product and the
    product of the norms are both zero and the float64 division returns nan;
    no error is raised. *)
Theorem calculate_proximity_zero_norm (a b : vector R) :
  length a = length b -> a <> [] ->
  is_zero_vector a \/ is_zero_vector b ->
  calculate_proximity a b = Ok NaN.
Proof. apply proximity_of_zero_vector. Qed.

Lemma calculate_proximity_zero_norm_witness :
  calculate_proximity [0; 0] [1; 2] = Ok NaN.
Proof.
  apply calculate_proximity_zero_norm; [reflexivity|discriminate|].
  left. repeat constructor.
Defined.

(** C3 as stated fails: a zero vector against [1, 2] yields the value nan,
    not an error. *)
Lemma calculate_proximity_zero_norm_no_error :
  is_zero_vector [0; 0] /\ length [0; 0] = length [1; 2]
  /\ ~ is_error (calculate_proximity [0; 0] [1; 2]).
Proof.
  split; [repeat constructor|]. split; [reflexivity|].
  rewrite calculate_proximity_eq by done.
  replace (dot [0; 0] [1; 2]) with 0 by (unfold dot; simpl; lra).
  replace (sumsq [0; 0]) with 0 by (unfold sumsq; simpl; lra).
  rewrite sqrt_0, Rmult_0_l, np_div_zero_zero. simpl. tauto.
Qed.

End Correlation.

(** ** PSNR *)

#[global] Instance uint8_laws : DTypeLaws Z.
Proof.
  split; simpl; intros x.
  - by rewrite Z.sub_diag.
  - apply IZR_le. apply Z.mod_pos_bound. lia.
Qed.

#[global] Instance float64_laws : DTypeLaws R.
Proof.
  split; simpl; intros x.
  - lra.
  - apply pow2_ge_0.
Qed.

Module PsnrFacts.
Import CorrelationFacts.
Import Num Np Lab04.
Local Open Scope R_scope.

Lemma mapM_ok {A B} (f : A -> result B) (g : A -> B) (l : list A) :
  (forall x, In x l -> f x = Ok (g x)) -> mapM f l = Ok (map g l).
Proof.
  induction l as [|x l IH]; intros Hf; simpl; [done|].
  rewrite Hf by (by left). simpl.
  rewrite IH by (intros y Hy; apply Hf; by right). done.
Qed.

Lemma zip_diag {A} (l : list A) : zip l l = map (fun x => (x, x)) l.
Proof. induction l as [|x l IH]; simpl; [done|]. by rewrite IH. Qed.

Lemma broadcast_diag {A C} (f : A -> A -> result C) (g : A -> C) (a : list A) :
  (forall x, In x a -> f x x = Ok (g x)) -> broadcast f a a = Ok (map g a).
Proof.
  intros Hf. unfold broadcast. rewrite Nat.eqb_refl, zip_diag.
  rewrite (mapM_ok _ (fun p => g p.1)).
  - by rewrite map_map.
  - intros [x y] [z [[= <- <-] Hz]]%in_map_iff. simpl. by apply Hf.
Qed.

Lemma sub2_diag `{DType A} (img : matrix A) :
  sub2 img img = Ok (map (map (fun x => dt_sub x x)) img).
Proof.
  unfold sub2. apply broadcast_diag. intros row _.
  apply broadcast_diag. done.
Qed.

Lemma sum_zero (l : list R) :
  Forall (fun x => x = 0) l -> fold_right Rplus 0 l = 0.
Proof. induction 1 as [|x l Hx _ IH]; simpl; [done|]. rewrite IH, Hx. lra. Qed.

Lemma sum_nonneg (l : list R) :
  Forall (fun x => 0 <= x) l -> 0 <= fold_right Rplus 0 l.
Proof. induction 1 as [|x l Hx _ IH]; simpl; lra. Qed.

Lemma flatten_map_map {A B} (f : A -> B) (m : matrix A) :
  flatten (map (map f) m) = map f (flatten m).
Proof.
  unfold flatten. induction m as [|r m IH]; simpl; [done|].
  by rewrite IH, map_app.
Qed.

Lemma INR_length_pos {A} (l : list A) : l <> [] -> 0 < INR (length l).
Proof.
  destruct l; [done|]. intros _. apply lt_0_INR. simpl. lia.
Qed.

(** The squared difference of an image with itself has mean 0. *)
Lemma mean_square_diag `{DTypeLaws A} (img : matrix A) :
  flatten img <> [] ->
  mean (square2 (map (map (fun x => dt_sub x x)) img)) = Finite 0.
Proof.
  intros Hne. unfold mean, square2.
  rewrite !flatten_map_map, !map_map, !length_map.
  rewrite sum_zero.
  - pose proof (INR_length_pos _ Hne).
    rewrite np_div_finite by lra. f_equal. unfold Rdiv. lra.
  - apply List.Forall_forall. intros x [y [<- _]]%in_map_iff.
    apply dt_sq_sub_diag.
Qed.

(** A mean of squares that is a number is not negative. *)
Lemma mean_square_nonneg `{DTypeLaws A} (d : matrix A) (m : R) :
  mean (square2 d) = Finite m -> 0 <= m.
Proof.
  unfold mean, square2, np_div. rewrite flatten_map_map, map_map, length_map.
  set (n := INR (length (flatten d))).
  assert (Hn : 0 <= n) by apply pos_INR.
  assert (Hs : 0 <= fold_right Rplus 0 (map (fun x => dt_float (dt_sq x)) (flatten d))).
  { apply sum_nonneg, List.Forall_forall. intros x [y [<- _]]%in_map_iff.
    apply dt_sq_nonneg. }
  destruct (Req_dec_T n 0) as [|Hn0].
  - destruct (Req_dec_T _ 0); [done|]. by destruct (Rlt_dec 0 _).
  - intros [= <-]. apply Rmult_le_pos; [done|].
    apply Rlt_le, Rinv_0_lt_compat. lra.
Qed.

Lemma ln_10_pos : 0 < ln 10.
Proof. rewrite <- ln_1. apply ln_increasing; lra. Qed.

(** The two formulas, on a positive mean squared error. *)
Lemma psnr_formulas (m : R) :
  0 < m -> 20 * log10 (255 / sqrt m) = 10 * log10 (255 ^ 2 / m).
Proof.
  intros Hm. unfold log10.
  pose proof ln_10_pos as H10.
  pose proof (sqrt_lt_R0 m Hm) as Hs.
  assert (Hln : ln m = 2 * ln (sqrt m)).
  { rewrite <- (sqrt_sqrt m) at 1 by lra. rewrite ln_mult by done. lra. }
  unfold Rdiv at 2 4.
  rewrite !ln_mult, !ln_Rinv; try done; try lra.
  - replace (255 ^ 2) with (255 * 255) by lra.
    rewrite ln_mult by lra. rewrite Hln. field. lra.
  - by apply Rinv_0_lt_compat.
  - by apply Rinv_0_lt_compat.
Qed.

End PsnrFacts.

Section Psnr.
Import Num Np Lab04 CorrelationFacts PsnrFacts.
Local Open Scope R_scope.
Context `{DTypeLaws A}.

(** C4 on the code: an image against itself has mean squared error 0;
    [calculate_psnr] returns the sentinel 100, while
    [calculate_psnr_alternative], the one the alpha search calls, has no
    such test, divides 65025 by 0 and returns +inf. *)
Theorem psnr_of_identical_images (img : matrix A) :
  flatten img <> [] ->
  mean_squared_error img img = Ok (Finite 0)
  /\ calculate_psnr img img = Ok (Finite 100)
  /\ calculate_psnr_alternative img img = Ok PInf.
Proof.
  intros Hne.
  unfold mean_squared_error, calculate_psnr, calculate_psnr_alternative.
  rewrite sub2_diag. simpl. rewrite mean_square_diag by done.
  split; [done|]. split.
  - by destruct (Req_dec_T 0 0).
  - unfold np_div_by, np_div.
    destruct (Req_dec_T 0 0); [|done].
    destruct (Req_dec_T _ 0); [lra|].
    destruct (Rlt_dec 0 _); [done|lra].
Qed.

(** C7: whenever the mean squared error is a non-zero number, the two PSNR
    functions return the values of their formulas and these are equal. *)
Theorem psnr_definitions_agree (original compressed : matrix A) (mse : R) :
  mean_squared_error original compressed = Ok (Finite mse) ->
  mse <> 0 ->
  calculate_psnr original compressed
    = Ok (Finite (20 * log10 (255 / sqrt mse)))
  /\ calculate_psnr_alternative original compressed
    = Ok (Finite (10 * log10 (255 ^ 2 / mse)))
  /\ 20 * log10 (255 / sqrt mse) = 10 * log10 (255 ^ 2 / mse).
Proof.
  unfold mean_squared_error, calculate_psnr, calculate_psnr_alternative.
  destruct (sub2 original compressed) as [diff|e];
    cbn [mbind result_bind]; [|done].
  intros [= Hmse] Hnz. rewrite Hmse.
  pose proof (mean_square_nonneg diff mse Hmse) as Hge.
  assert (Hpos : 0 < mse) by lra.
  pose proof (sqrt_lt_R0 mse Hpos) as Hroot.
  split; [|split].
  - destruct (Req_dec_T mse 0); [done|].
    unfold math_sqrt. destruct (Rlt_dec mse 0); [lra|].
    cbn [mbind result_bind pyfloat_div].
    destruct (Req_dec_T (sqrt mse) 0); [lra|].
    cbn [mbind result_bind math_log10].
    assert (0 < 255 / sqrt mse) by (apply Rdiv_lt_0_compat; lra).
    destruct (Rle_dec (255 / sqrt mse) 0); [lra|done].
  - unfold np_div_by. rewrite np_div_finite by done.
    assert (0 < 255 ^ 2 / mse) by (apply Rdiv_lt_0_compat; lra).
    unfold np_log10.
    destruct (Req_dec_T (255 ^ 2 / mse) 0); [lra|].
    destruct (Rlt_dec (255 ^ 2 / mse) 0); [lra|done].
  - by apply psnr_formulas.
Qed.

End Psnr.

Section PsnrWitnesses.
Import Num Np Lab04 CorrelationFacts PsnrFacts.
Local Open Scope R_scope.

(** Evaluates the integer pixel expressions under [IZR]. *)
Ltac eval_pixels :=
  repeat match goal with
  | |- context [IZR ?z] =>
      let v := eval vm_compute in z in progress change z with v
  end.

Lemma psnr_of_identical_images_witness :
  mean_squared_error [[7%Z; 200%Z]] [[7%Z; 200%Z]] = Ok (Finite 0)
  /\ calculate_psnr [[7%Z; 200%Z]] [[7%Z; 200%Z]] = Ok (Finite 100)
  /\ calculate_psnr_alternative [[7%Z; 200%Z]] [[7%Z; 200%Z]] = Ok PInf.
Proof. apply (psnr_of_identical_images [[7%Z; 200%Z]]). discriminate. Defined.

Lemma psnr_definitions_agree_witness :
  calculate_psnr [[0%Z; 10%Z]] [[1%Z; 10%Z]]
    = Ok (Finite (20 * log10 (255 / sqrt (1 / 2))))
  /\ calculate_psnr_alternative [[0%Z; 10%Z]] [[1%Z; 10%Z]]
    = Ok (Finite (10 * log10 (255 ^ 2 / (1 / 2))))
  /\ 20 * log10 (255 / sqrt (1 / 2)) = 10 * log10 (255 ^ 2 / (1 / 2)).
Proof.
  apply (psnr_definitions_agree [[0%Z; 10%Z]] [[1%Z; 10%Z]] (1 / 2)).
  - unfold mean_squared_error. cbn -[np_div].
    unfold mean. cbn -[np_div]. eval_pixels.
    rewrite np_div_finite by lra. do 2 f_equal. lra.
  - lra.
Defined.

End PsnrWitnesses.

(** ** False-positive analysis *)

Module DecoyFacts.
Import Num Np Random Lab04 CorrelationFacts PsnrFacts.
Local Open Scope R_scope.

Lemma normal1_length (n : Z) (g : rng) :
  length (normal1 n g).1 = Z.to_nat n.
Proof. unfold normal1; cbn [fst]. by rewrite length_map, length_seq. Qed.

Lemma length_concat_const {A} (m : matrix A) (c : nat) :
  Forall (fun r => length r = c) m -> length (concat m) = (length m * c)%nat.
Proof.
  induction 1 as [|r m Hr _ IH]; simpl; [done|].
  rewrite length_app, IH, Hr. done.
Qed.

Lemma normal2_shape (r c : Z) (g : rng) :
  length (normal2 r c g).1 = Z.to_nat r
  /\ Forall (fun row => length row = Z.to_nat c) (normal2 r c g).1.
Proof.
  unfold normal2; cbn [fst]. split.
  - by rewrite length_map, length_seq.
  - apply List.Forall_forall. intros row [i [<- _]]%in_map_iff.
    by rewrite length_map, length_seq.
Qed.

Lemma normal2_flatten_length (r c : Z) (g : rng) :
  length (flatten (normal2 r c g).1) = (Z.to_nat r * Z.to_nat c)%nat.
Proof.
  destruct (normal2_shape r c g) as [Hr Hc].
  unfold flatten. by rewrite (length_concat_const _ _ Hc), Hr.
Qed.

Lemma draw_vectors_spec (size : Z) (n : nat) (acc : list (vector R))
    (g : rng) :
  exists vs, (draw_vectors size n acc g).1 = acc ++ vs
    /\ length vs = n
    /\ Forall (fun v => length v = Z.to_nat size) vs.
Proof.
  revert acc g; induction n as [|n IH]; intros acc g; cbn [draw_vectors].
  - exists []. by rewrite app_nil_r.
  - destruct (IH (acc ++ [(normal1 size g).1]) (normal1 size g).2)
      as (vs & Heq & Hlen & Hall).
    exists ((normal1 size g).1 :: vs). split; [|split].
    + rewrite Heq, <- app_assoc. reflexivity.
    + cbn [length]. by rewrite Hlen.
    + constructor; [apply normal1_length|exact Hall].
Qed.

Lemma generate_false_detection_vectors_spec (count : Z) (g : rng) :
  length (generate_false_detection_vectors count g).1 = Z.to_nat count
  /\ Forall (fun v => length v = Z.to_nat 65536)
       (generate_false_detection_vectors count g).1.
Proof.
  unfold generate_false_detection_vectors.
  destruct (draw_vectors_spec 65536 (Z.to_nat count) [] g)
    as (vs & Heq & Hlen & Hall).
  rewrite Heq. cbn [app]. split; [exact Hlen|exact Hall].
Qed.

(** Against a non-empty reference, decoys of the reference's length all get
    a score. *)
Lemma scores_against_ok (reference : vector R) (decoys : list (vector R)) :
  reference <> [] ->
  Forall (fun v => length v = length reference) decoys ->
  scores_against reference decoys
  = Ok (map (fun decoy => np_div (dot reference decoy)
                            (sqrt (sumsq reference) * sqrt (sumsq decoy)))
            decoys).
Proof.
  intros Hne Hall. unfold scores_against. apply mapM_ok.
  intros decoy Hin. apply calculate_proximity_eq; [|done].
  rewrite List.Forall_forall in Hall. symmetry. by apply Hall.
Qed.

Lemma Forall_concat {A} (P : A -> Prop) (m : matrix A) :
  Forall (Forall P) m -> Forall P (concat m).
Proof.
  induction 1 as [|r m Hr _ IH]; simpl; [constructor|].
  apply Forall_app. done.
Qed.

Lemma stage_CVZ (g : rng) :
  CVZ (run_false_positive_stage g) = (normal2 256 256 g).1.
Proof. reflexivity. Qed.

Lemma stage_decoys (g : rng) :
  false_detection_cvz (run_false_positive_stage g)
  = (generate_false_detection_vectors 100 (normal2 256 256 g).2).1.
Proof. reflexivity. Qed.

Lemma stage_scores (g : rng) :
  false_detection_proximity_array (run_false_positive_stage g)
  = detect_false_proximity (false_detection_cvz (run_false_positive_stage g))
      (flatten (CVZ (run_false_positive_stage g))).
Proof. reflexivity. Qed.

Lemma detect_false_proximity_eq (decoys : list (vector R)) (cvz : vector R) :
  detect_false_proximity decoys cvz = scores_against cvz decoys.
Proof. reflexivity. Qed.

Lemma watermark_size : (Z.to_nat 256 * Z.to_nat 256)%nat = Z.to_nat 65536.
Proof. lia. Qed.

Lemma decoy_size_pos : Z.to_nat 65536 <> 0%nat.
Proof. lia. Qed.

Lemma length_pos_nonempty {A} (l : list A) (n : nat) :
  length l = n -> n <> 0%nat -> l <> [].
Proof. intros Hl Hn ->. by apply Hn. Qed.

End DecoyFacts.


(** ** The crop-replace attack *)

Module SliceFacts.
Import Num Np Lab04 Attack PsnrFacts.

Lemma clamp_index_ge (n : nat) (k : Z) :
  (Z.of_nat n <= k)%Z -> clamp_index n k = n.
Proof.
  intros Hk. unfold clamp_index.
  destruct (k <? 0)%Z eqn:Hneg; [apply Z.ltb_lt in Hneg; lia|].
  rewrite Z.min_r by lia. apply Nat2Z.id.
Qed.

Lemma clamp_index_0 (n : nat) : clamp_index n 0 = 0%nat.
Proof. unfold clamp_index. simpl. lia. Qed.

Lemma slice_all {A} (k : Z) (l : list A) :
  (Z.of_nat (length l) <= k)%Z -> slice 0 k l = l.
Proof.
  intros Hk. unfold slice.
  rewrite clamp_index_0, clamp_index_ge by done.
  rewrite Nat.sub_0_r, drop_0. apply firstn_all.
Qed.

Lemma stretch_same {A} (n : nat) (l : list A) :
  length l = n -> stretch n l = Ok l.
Proof. intros <-. unfold stretch. by rewrite Nat.eqb_refl. Qed.

Lemma setitem_all {A} (k : Z) (v l : list A) :
  (Z.of_nat (length l) <= k)%Z -> length v = length l ->
  setitem 0 k v l = Ok v.
Proof.
  intros Hk Hlen. unfold setitem.
  rewrite clamp_index_0, clamp_index_ge by done.
  rewrite Nat.sub_0_r, stretch_same by done.
  cbn [mbind result_bind take app Nat.add].
  rewrite drop_all, app_nil_r. done.
Qed.

Lemma mapM_setitem_all {A} (k : Z) (rows v : matrix A) (w : nat) :
  (Z.of_nat w <= k)%Z ->
  length rows = length v ->
  Forall (fun row => length row = w) rows ->
  Forall (fun row => length row = w) v ->
  mapM (fun '(row, vrow) => setitem 0 k vrow row) (zip rows v) = Ok v.
Proof.
  intros Hk. revert v.
  induction rows as [|row rows IH]; intros [|vrow v] Hlen Hrows Hv;
    try done.
  inversion Hrows as [|? ? Hrow Hrows']; subst.
  inversion Hv as [|? ? Hvrow Hv']; subst.
  cbn [zip zip_with mapM]. rewrite setitem_all by lia.
  cbn [mbind result_bind].
  rewrite IH by (try done; by injection Hlen). done.
Qed.

(** Assigning a whole array of the same shape with bounds past the end
    replaces every element and does not fail. *)
Lemma setitem2_all {A} (k : Z) (v m : matrix A) (h w : nat) :
  (Z.of_nat h <= k)%Z -> (Z.of_nat w <= k)%Z ->
  has_shape h w m -> has_shape h w v ->
  setitem2 0 k 0 k v m = Ok v.
Proof.
  intros Hh Hw [Hm Hmw] [Hv Hvw]. unfold setitem2.
  rewrite clamp_index_0, clamp_index_ge by lia.
  rewrite Nat.sub_0_r, drop_0, firstn_all.
  rewrite stretch_same by lia. cbn [mbind result_bind].
  rewrite (mapM_setitem_all k m v w) by (try done; lia).
  cbn [mbind result_bind take app Nat.add].
  rewrite drop_all, app_nil_r. done.
Qed.

Lemma slice2_all {A} (k : Z) (m : matrix A) (h w : nat) :
  (Z.of_nat h <= k)%Z -> (Z.of_nat w <= k)%Z ->
  has_shape h w m -> slice2 0 k 0 k m = m.
Proof.
  intros Hh Hw [Hm Hmw]. unfold slice2.
  rewrite slice_all by lia.
  induction Hmw as [|row rows Hrow _ IH] in h, Hh, Hm |- *; [done|].
  cbn [map]. rewrite slice_all by lia. f_equal.
  destruct h; [done|]. apply (IH h); [lia|]. by injection Hm.
Qed.

(** [int(p * n)] is at least [n] once [p >= 1]. *)
Lemma cut_bound_ge {A} (p : Q) (a : matrix A) :
  (1 <= p)%Q -> (Z.of_nat (length a) <= cut_bound p a)%Z.
Proof.
  intros Hp. unfold cut_bound, py_int.
  destruct p as [num den]. unfold Qle in Hp. cbn in Hp |- *.
  set (n := Z.of_nat (length a)).
  assert (Hn : (0 <= n)%Z) by lia.
  rewrite Pos.mul_1_r.
  assert (Hnum : (Z.pos den <= num)%Z) by lia.
  rewrite Z.quot_div_nonneg by nia.
  apply Z.div_le_lower_bound; nia.
Qed.

End SliceFacts.

Module AttackFacts.
Import Num Np Lab04 Attack SliceFacts.

Lemma apply_cut_reverse_array (lib : externals) (p : Q) (g : globals) :
  reverse_array (apply_cut_and_calculate_proximity lib p g).2
  = after_cut p (reverse_array g) (image_array g).
Proof.
  unfold apply_cut_and_calculate_proximity, after_cut.
  by destruct (cut_replace p (reverse_array g) (image_array g)).
Qed.

Lemma apply_cut_image_array (lib : externals) (p : Q) (g : globals) :
  image_array (apply_cut_and_calculate_proximity lib p g).2 = image_array g.
Proof.
  unfold apply_cut_and_calculate_proximity.
  by destruct (cut_replace p (reverse_array g) (image_array g)).
Qed.

Lemma has_shape_repeat {A} (x : A) (h w : nat) :
  has_shape h w (repeat (repeat x w) h).
Proof.
  split; [apply repeat_length|].
  apply List.Forall_forall. intros row ->%repeat_spec. apply repeat_length.
Qed.

(** In ascending order each region covers the ones before it: on the
    evaluation arrays a call at 0.70 after a call at 0.55 works on the same
    candidate as a call at 0.70 on the untouched array. *)
Lemma ascending_cut_same_candidate :
  after_cut (70 # 100) (after_cut (55 # 100) watermarked0 carrier0) carrier0
  = after_cut (70 # 100) watermarked0 carrier0.
Proof. vm_compute. reflexivity. Qed.

End AttackFacts.

Section CropReplace.
Import Num Np Lab04 Attack SliceFacts AttackFacts.

(** C10: with a proportion of at least 1 both slice bounds are clamped to
    the array, the assignment succeeds and replaces the whole watermarked
    array by the original image (arrays of one shape, not wider than
    high, as the 512x512 carrier). *)
Theorem cut_replace_whole_image (p : Q) (g : globals) (h w : nat) :
  (1 <= p)%Q -> (w <= h)%nat ->
  has_shape h w (reverse_array g) -> has_shape h w (image_array g) ->
  cut_replace p (reverse_array g) (image_array g) = Ok (image_array g)
  /\ forall lib,
       reverse_array (apply_cut_and_calculate_proximity lib p g).2
       = image_array g.
Proof.
  intros Hp Hwh Hrev Himg.
  assert (Hcut : cut_replace p (reverse_array g) (image_array g)
                 = Ok (image_array g)).
  { unfold cut_replace.
    pose proof (cut_bound_ge p (reverse_array g) Hp) as Hkr.
    pose proof (cut_bound_ge p (image_array g) Hp) as Hki.
    destruct Hrev as [Hrh Hrw]. destruct Himg as [Hih Hiw].
    rewrite (slice2_all _ _ h w) by (try split; try done; lia).
    apply (setitem2_all _ _ _ h w); try split; try done; lia. }
  split; [exact Hcut|].
  intros lib. rewrite apply_cut_reverse_array. unfold after_cut.
  by rewrite Hcut.
Qed.

Lemma cut_replace_whole_image_witness :
  let g := {| CVZ := []; image_array := carrier0; phase_array := [];
              original_abs_spectrum := []; reverse_array := watermarked0 |} in
  cut_replace (115 # 100) (reverse_array g) (image_array g)
    = Ok (image_array g)
  /\ forall lib,
       reverse_array (apply_cut_and_calculate_proximity lib (115 # 100) g).2
       = image_array g.
Proof.
  intros g. apply (cut_replace_whole_image (115 # 100) g 512 512).
  - vm_compute. discriminate.
  - lia.
  - apply has_shape_repeat.
  - apply has_shape_repeat.
Defined.

(** C5 on the code: the attack assigns into the module-level
    [reverse_array].  On a carrier of zeros and a watermarked array of ones
    the stored array is changed by the first call of the sweep (0.55), and a
    call at 0.55 made after a call at 0.85 works on another candidate than
    a call at 0.55 on the untouched array. *)
Theorem cut_changes_stored_image (lib : externals)
    (cvz phase orig : matrix R) :
  let g := {| CVZ := cvz; image_array := carrier0; phase_array := phase;
              original_abs_spectrum := orig;
              reverse_array := watermarked0 |} in
  let fresh := (apply_cut_and_calculate_proximity lib (55 # 100) g).2 in
  let later :=
    (apply_cut_and_calculate_proximity lib (55 # 100)
       (apply_cut_and_calculate_proximity lib (85 # 100) g).2).2 in
  pixel 0 0 (reverse_array g) = 1%Z
  /\ pixel 0 0 (reverse_array fresh) = 0%Z
  /\ pixel 300 300 (reverse_array fresh) = 1%Z
  /\ pixel 300 300 (reverse_array later) = 0%Z.
Proof.
  intros g fresh later. unfold fresh, later.
  rewrite !apply_cut_reverse_array, !apply_cut_image_array.
  cbn [reverse_array image_array g].
  repeat split; vm_compute; reflexivity.
Qed.

End CropReplace.

(** ** Embedding *)

Module BlockFacts.
Import Num Np Lab04 CorrelationFacts PsnrFacts SliceFacts.

Lemma broadcast_elementwise_same {A B D} (f : A -> B -> D)
    (a : list A) (b : list B) :
  length a = length b ->
  broadcast (elementwise f) a b = Ok (zip_with f a b).
Proof.
  intros Hlen. unfold broadcast.
  rewrite Hlen, Nat.eqb_refl, mapM_elementwise. f_equal.
  clear Hlen. revert b; induction a as [|x a IH]; intros [|y b]; cbn;
    try done.
  by rewrite IH.
Qed.

Lemma mapM_zip_ok {A B D} (f : A -> B -> result D) (g : A -> B -> D)
    (a : list A) (b : list B) :
  Forall2 (fun x y => f x y = Ok (g x y)) a b ->
  mapM (fun '(x, y) => f x y) (zip a b) = Ok (zip_with g a b).
Proof.
  induction 1 as [|x y a b Hxy _ IH]; cbn; [done|].
  rewrite Hxy. cbn. rewrite IH. done.
Qed.

Lemma Forall2_same_width {A B} (w : nat) (a : matrix A) (b : matrix B) :
  length a = length b ->
  Forall (fun row => length row = w) a ->
  Forall (fun row => length row = w) b ->
  Forall2 (fun x y => length x = length y) a b.
Proof.
  intros Hlen Ha. revert b Hlen.
  induction Ha as [|x a Hx _ IH]; intros [|y b] Hlen Hb;
    try discriminate Hlen; [constructor|].
  inversion Hb; subst. constructor; [congruence|].
  apply IH; [by injection Hlen|done].
Qed.

(** Arrays of one shape combine element by element. *)
Lemma zip2_same_shape {A B D} (f : A -> B -> D) (h w : nat)
    (a : matrix A) (b : matrix B) :
  has_shape h w a -> has_shape h w b ->
  zip2 f a b = Ok (zip_with (zip_with f) a b).
Proof.
  intros [Ha Haw] [Hb Hbw]. unfold zip2, broadcast.
  rewrite Ha, Hb, Nat.eqb_refl.
  apply mapM_zip_ok.
  eapply Forall2_impl; [apply (Forall2_same_width w); [lia|done..]|].
  intros x y Hxy. by apply broadcast_elementwise_same.
Qed.

Lemma shape_row {A} (h w : nat) (m : matrix A) (i : nat) (row : list A) :
  has_shape h w m -> m !! i = Some row -> length row = w.
Proof.
  intros [_ Hw] Hi. exact (proj1 (Forall_lookup _ _) Hw i row Hi).
Qed.

Lemma has_shape_zip_with {A B D} (f : A -> B -> D) (h w : nat)
    (a : matrix A) (b : matrix B) :
  has_shape h w a -> has_shape h w b ->
  has_shape h w (zip_with (zip_with f) a b).
Proof.
  intros Hsa Hsb. split.
  - rewrite length_zip_with. destruct Hsa, Hsb. lia.
  - apply Forall_lookup. intros i row.
    rewrite lookup_zip_with.
    destruct (a !! i) as [x|] eqn:Hx; [|done].
    destruct (b !! i) as [y|] eqn:Hy; [|done].
    cbn. intros [= <-]. rewrite length_zip_with.
    rewrite (shape_row h w a i x Hsa Hx), (shape_row h w b i y Hsb Hy). lia.
Qed.

Lemma has_shape_map {A B} (f : A -> B) (h w : nat) (a : matrix A) :
  has_shape h w a -> has_shape h w (map (map f) a).
Proof.
  intros [Ha Haw]. split; [by rewrite length_map|].
  apply List.Forall_forall. intros row [r [<- Hr]]%in_map_iff.
  rewrite length_map. rewrite List.Forall_forall in Haw. by apply Haw.
Qed.

Lemma clamp_index_le (n : nat) (k : nat) :
  (k <= n)%nat -> clamp_index n (Z.of_nat k) = k.
Proof.
  intros Hk. unfold clamp_index.
  destruct (Z.of_nat k <? 0)%Z eqn:Hneg; [apply Z.ltb_lt in Hneg; lia|].
  rewrite Z.min_l by lia. apply Nat2Z.id.
Qed.

(** [l[128:384]] on a list of at least 384 elements. *)
Lemma slice_block {A} (l : list A) :
  (384 <= length l)%nat -> slice 128 384 l = take 256 (drop 128 l).
Proof.
  intros Hl. unfold slice.
  rewrite (clamp_index_le _ 128), (clamp_index_le _ 384) by lia.
  done.
Qed.

Lemma slice2_block {A} (h w : nat) (m : matrix A) :
  (384 <= h)%nat -> (384 <= w)%nat -> has_shape h w m ->
  slice2 128 384 128 384 m
  = map (fun row => take 256 (drop 128 row)) (take 256 (drop 128 m)).
Proof.
  intros Hh Hw [Hm Hmw]. unfold slice2.
  rewrite slice_block by lia.
  apply map_ext_in. intros row Hrow. apply slice_block.
  assert (Hin : In row m).
  { rewrite <- (take_drop 128 m). apply in_or_app. right.
    rewrite <- (take_drop 256 (drop 128 m)). apply in_or_app. by left. }
  rewrite List.Forall_forall in Hmw. rewrite (Hmw row Hin). lia.
Qed.

Lemma setitem_block {A} (v row : list A) :
  (384 <= length row)%nat -> length v = 256%nat ->
  setitem 128 384 v row = Ok (take 128 row ++ v ++ drop 384 row).
Proof.
  intros Hrow Hv. unfold setitem.
  rewrite (clamp_index_le _ 128), (clamp_index_le _ 384) by lia.
  change (384 - 128)%nat with 256%nat. change (128 + 256)%nat with 384%nat.
  rewrite stretch_same by done. done.
Qed.

(** The slice assignment of the embedding, on shapes that fit. *)
Lemma setitem2_block {A} (h w : nat) (block m : matrix A) :
  (384 <= h)%nat -> (384 <= w)%nat ->
  has_shape h w m -> has_shape 256 256 block ->
  setitem2 128 384 128 384 block m = Ok (Embedder.with_block block m).
Proof.
  intros Hh Hw Hm Hb. unfold setitem2, Embedder.with_block.
  destruct Hm as [Hmh Hmw]. destruct Hb as [Hbh Hbw].
  rewrite (clamp_index_le _ 128), (clamp_index_le _ 384) by lia.
  change (384 - 128)%nat with 256%nat. change (128 + 256)%nat with 384%nat.
  assert (Hrows : length (take 256 (drop 128 m)) = 256%nat).
  { rewrite length_take, length_drop. lia. }
  rewrite stretch_same by lia. cbn [mbind result_bind].
  rewrite (mapM_zip_ok _ (fun row b => take 128 row ++ b ++ drop 384 row)).
  - done.
  - apply Forall2_same_length_lookup_2; [lia|].
    intros i row b Hrow Hbi. apply setitem_block.
    + apply lookup_take_Some in Hrow as [Hrow _].
      rewrite lookup_drop in Hrow.
      rewrite (proj1 (Forall_lookup _ _) Hmw _ _ Hrow). lia.
    + exact (proj1 (Forall_lookup _ _) Hbw _ _ Hbi).
Qed.

Lemma has_shape_with_block {A} (h w : nat) (block m : matrix A) :
  (384 <= h)%nat -> (384 <= w)%nat ->
  has_shape h w m -> has_shape 256 256 block ->
  has_shape h w (Embedder.with_block block m).
Proof.
  intros Hh Hw [Hmh Hmw] [Hbh Hbw]. unfold Embedder.with_block. split.
  - rewrite !length_app, length_zip_with, !length_take, !length_drop. lia.
  - apply Forall_app. split; [by apply Forall_take|].
    apply Forall_app. split; [|by apply Forall_drop].
    apply Forall_lookup. intros i row. rewrite lookup_zip_with.
    destruct (take 256 (drop 128 m) !! i) as [r|] eqn:Hr; [|done].
    destruct (block !! i) as [b|] eqn:Hbi; [|done].
    cbn. intros [= <-].
    apply lookup_take_Some in Hr as [Hr _]. rewrite lookup_drop in Hr.
    pose proof (proj1 (Forall_lookup _ _) Hmw _ _ Hr) as H1.
    pose proof (proj1 (Forall_lookup _ _) Hbw _ _ Hbi) as H2.
    cbv beta in H1, H2.
    rewrite !length_app, length_take, length_drop. lia.
Qed.

Lemma lookup_paste {A} (row b : list A) (j : nat) :
  (384 <= length row)%nat -> length b = 256%nat ->
  (take 128 row ++ b ++ drop 384 row) !! j
  = if ((128 <=? j) && (j <? 384))%nat then b !! (j - 128)%nat else row !! j.
Proof.
  intros Hrow Hb.
  destruct (Nat.leb_spec 128 j) as [Hj|Hj]; cbn [andb].
  - rewrite lookup_app_r by (rewrite length_take; lia).
    rewrite length_take, Nat.min_l by lia.
    destruct (Nat.ltb_spec j 384) as [Hj'|Hj'].
    + rewrite lookup_app_l by lia. done.
    + rewrite lookup_app_r by lia. rewrite lookup_drop. f_equal. lia.
  - rewrite lookup_app_l by (rewrite length_take; lia).
    rewrite lookup_take. case_decide; [done|lia].
Qed.

(** Outside the block the array is as before, inside it holds the block. *)
Lemma entry_with_block {A} (h w : nat) (block m : matrix A) (i j : nat) :
  (384 <= h)%nat -> (384 <= w)%nat ->
  has_shape h w m -> has_shape 256 256 block ->
  Embedder.entry i j (Embedder.with_block block m)
  = if Embedder.in_block i j
    then Embedder.entry (i - 128) (j - 128) block
    else Embedder.entry i j m.
Proof.
  intros Hh Hw Hm Hb. unfold Embedder.entry, Embedder.with_block,
    Embedder.in_block.
  pose proof Hm as [Hmh Hmw]. pose proof Hb as [Hbh Hbw].
  destruct (Nat.leb_spec 128 i) as [Hi|Hi]; cbn [andb].
  - rewrite lookup_app_r by (rewrite length_take; lia).
    rewrite length_take, Nat.min_l by lia.
    destruct (Nat.ltb_spec i 384) as [Hi'|Hi']; cbn [andb].
    + rewrite lookup_app_l
        by (rewrite length_zip_with, length_take, length_drop; lia).
      rewrite lookup_zip_with, lookup_take, lookup_drop.
      case_decide; [|lia].
      replace (128 + (i - 128))%nat with i by lia.
      destruct (m !! i) as [row|] eqn:Hrow.
      2:{ apply lookup_ge_None in Hrow. lia. }
      destruct (block !! (i - 128)%nat) as [b|] eqn:Hbi.
      2:{ apply lookup_ge_None in Hbi. lia. }
      cbn [mbind option_bind].
      rewrite lookup_paste.
      * by destruct ((128 <=? j) && (j <? 384))%nat.
      * rewrite (shape_row h w m i row Hm Hrow). lia.
      * exact (shape_row 256 256 block _ b Hb Hbi).
    + rewrite lookup_app_r
        by (rewrite length_zip_with, length_take, length_drop; lia).
      rewrite length_zip_with, length_take, length_drop, lookup_drop.
      f_equal. f_equal. lia.
  - rewrite lookup_app_l by (rewrite length_take; lia).
    rewrite lookup_take. case_decide; [done|lia].
Qed.

Lemma entry_zip_with {A B D} (f : A -> B -> D) (a : matrix A) (b : matrix B)
    (i j : nat) :
  Embedder.entry i j (zip_with (zip_with f) a b)
  = Embedder.entry i j a ≫= fun x =>
    Embedder.entry i j b ≫= fun y => Some (f x y).
Proof.
  unfold Embedder.entry. rewrite lookup_zip_with.
  destruct (a !! i) as [ra|]; [|done].
  destruct (b !! i) as [rb|]; cbn [mbind option_bind].
  - rewrite lookup_zip_with. done.
  - by destruct (ra !! j).
Qed.

Lemma entry_map {A B} (f : A -> B) (m : matrix A) (i j : nat) :
  Embedder.entry i j (map (map f) m) = f <$> Embedder.entry i j m.
Proof.
  unfold Embedder.entry.
  change (map (map f) m) with (map f <$> m). rewrite list_lookup_fmap.
  destruct (m !! i) as [row|]; [|done]. cbn.
  change (map f row) with (f <$> row). by rewrite list_lookup_fmap.
Qed.

Lemma entry_slice2_block {A} (h w : nat) (m : matrix A) (a b : nat) :
  (384 <= h)%nat -> (384 <= w)%nat -> has_shape h w m ->
  (a < 256)%nat -> (b < 256)%nat ->
  Embedder.entry a b (slice2 128 384 128 384 m)
  = Embedder.entry (128 + a) (128 + b) m.
Proof.
  intros Hh Hw Hm Ha Hb. rewrite (slice2_block h w) by done.
  unfold Embedder.entry.
  change (map ?f ?l) with (f <$> l). rewrite list_lookup_fmap.
  rewrite lookup_take, lookup_drop. case_decide; [|lia].
  destruct (m !! (128 + a)%nat) as [row|]; [|done]. cbn.
  rewrite lookup_take, lookup_drop. case_decide; [done|lia].
Qed.

Lemma has_shape_slice2_block {A} (h w : nat) (m : matrix A) :
  (384 <= h)%nat -> (384 <= w)%nat -> has_shape h w m ->
  has_shape 256 256 (slice2 128 384 128 384 m).
Proof.
  intros Hh Hw Hm. rewrite (slice2_block h w) by done.
  destruct Hm as [Hmh Hmw]. split.
  - rewrite length_map, length_take, length_drop. lia.
  - apply List.Forall_forall. intros r [row [<- Hrow]]%in_map_iff.
    assert (Hin : In row m).
    { rewrite <- (take_drop 128 m). apply in_or_app. right.
      rewrite <- (take_drop 256 (drop 128 m)). apply in_or_app. by left. }
    rewrite List.Forall_forall in Hmw.
    rewrite length_take, length_drop, (Hmw row Hin). lia.
Qed.

End BlockFacts.

Module HeapFacts.
Import Num Np Lab04 Heap.

Lemma run_alloc {B} (a : matrix R) (k : nat -> prog B) (hp : heap) :
  (alloc a ≫= k) hp
  = k (next hp) {| cells := <[next hp := a]> (cells hp);
                   next := S (next hp) |}.
Proof. reflexivity. Qed.

Lemma run_load {B} (l : nat) (a : matrix R) (k : matrix R -> prog B)
    (hp : heap) :
  cells hp !! l = Some a -> (load l ≫= k) hp = k a hp.
Proof.
  intros Hl. unfold mbind, prog_bind, bind, load. by rewrite Hl.
Qed.

Lemma run_lift {A B} (r : result A) (a : A) (k : A -> prog B) (hp : heap) :
  r = Ok a -> (lift r ≫= k) hp = k a hp.
Proof. intros ->. reflexivity. Qed.

Lemma run_assign2 {B} (l : nat) (r0 r1 c0 c1 : Z) (v a a' : matrix R)
    (k : unit -> prog B) (hp : heap) :
  cells hp !! l = Some a ->
  setitem2 r0 r1 c0 c1 v a = Ok a' ->
  (assign2 l r0 r1 c0 c1 v ≫= k) hp
  = k tt {| cells := <[l := a']> (cells hp); next := next hp |}.
Proof.
  intros Hl Hset.
  unfold mbind, prog_bind, bind, assign2, bind, load, lift, store.
  by rewrite Hl, Hset.
Qed.

(** Looks a name up in a heap built by insertions. *)
Ltac heap_lookup :=
  cbn [cells next];
  repeat (rewrite lookup_insert_ne by lia);
  rewrite lookup_insert_eq; reflexivity.

End HeapFacts.

Module EmbedFacts.
Import Num Np Lab04 Heap Embedder BlockFacts HeapFacts.
Local Open Scope R_scope.

(** What [embed] returns and what it leaves in the heap, on shapes that
    fit. *)
Lemma embed_run (lib : externals) (s : R) (CVZ image_array : matrix R)
    (h w : nat) (hp : heap) :
  (384 <= h)%nat -> (384 <= w)%nat ->
  has_shape h w (fft2 lib image_array) -> has_shape 256 256 CVZ ->
  let spec := fft2 lib image_array in
  let m := map (map Cabs) spec in
  let ph := map (map (phase lib)) spec in
  let m' := embedded_magnitude lib s CVZ image_array in
  let ms := zip_with (zip_with Cscale) m' (map (map Cexp_i) ph) in
  embed lib s CVZ image_array hp
  = (Ok {| phase_array := next hp;
           abs_spectrum := S (next hp);
           original_abs_spectrum := S (S (next hp));
           modified_abs_spectrum := S (next hp);
           modified_spectrum := ms;
           reverse_array := map (map Cabs) (ifft2 lib ms) |},
     {| cells := <[S (next hp) := m']>
                   (<[S (S (next hp)) := m]>
                      (<[S (next hp) := m]>
                         (<[next hp := ph]> (cells hp))));
        next := S (S (S (next hp))) |}).
Proof.
  intros Hh Hw Hspec Hcvz spec m ph m' ms.
  assert (Hm : has_shape h w m) by (by apply has_shape_map).
  assert (Hph : has_shape h w ph) by (by apply has_shape_map).
  assert (Hblock : has_shape 256 256
            (zip_with (zip_with Rplus) (slice2 128 384 128 384 m)
               (map (map (Rmult s)) CVZ))).
  { apply has_shape_zip_with; [by apply (has_shape_slice2_block h w)|].
    by apply has_shape_map. }
  assert (Hm' : has_shape h w m') by (by apply has_shape_with_block).
  unfold embed. cbv zeta. fold spec. fold m. fold ph.
  rewrite !run_alloc. cbn [next cells].
  erewrite run_load; [|heap_lookup].
  erewrite run_lift.
  2:{ apply (zip2_same_shape _ 256 256);
        [by apply (has_shape_slice2_block h w)|by apply has_shape_map]. }
  erewrite run_assign2; [|heap_lookup|by apply (setitem2_block h w)].
  cbn [next cells].
  erewrite run_load; [|heap_lookup].
  erewrite run_load; [|heap_lookup].
  erewrite run_lift.
  2:{ apply (zip2_same_shape _ h w); [exact Hm'|].
      by apply has_shape_map. }
  reflexivity.
Qed.

(** The part of the description of [embed] that the facts about the search
    share: it succeeds, and inside the block the new magnitude is the old
    one plus [s] times the watermark. *)
Lemma embedding_frame_parts (lib : externals) (s : R)
    (CVZ image_array : matrix R) (h w : nat) (hp : heap) :
  (384 <= h)%nat -> (384 <= w)%nat ->
  has_shape h w (fft2 lib image_array) -> has_shape 256 256 CVZ ->
  let magnitude := map (map Cabs) (fft2 lib image_array) in
  exists e hp' m',
    embed lib s CVZ image_array hp = (Ok e, hp')
    /\ cells hp' !! modified_abs_spectrum e = Some m'
    /\ forall i j,
          entry i j m'
          = if in_block i j
            then entry i j magnitude ≫= fun x =>
                 entry (i - 128) (j - 128) CVZ ≫= fun c =>
                 Some (x + s * c)
            else entry i j magnitude.
Proof.
  intros Hh Hw Hspec Hcvz magnitude.
  assert (Hm : has_shape h w magnitude) by (by apply has_shape_map).
  assert (Hblock : has_shape 256 256
            (zip_with (zip_with Rplus) (slice2 128 384 128 384 magnitude)
               (map (map (Rmult s)) CVZ))).
  { apply has_shape_zip_with; [by apply (has_shape_slice2_block h w)|].
    by apply has_shape_map. }
  eexists _, _, (embedded_magnitude lib s CVZ image_array).
  split; [by apply (embed_run lib s CVZ image_array h w)|].
  cbn [modified_abs_spectrum cells]. split; [heap_lookup|].
  intros i j. unfold embedded_magnitude. fold magnitude.
  rewrite (entry_with_block h w) by done.
  destruct (in_block i j) eqn:Hb; [|done].
  unfold in_block in Hb.
  apply andb_prop in Hb as [Hb Hj2]. apply andb_prop in Hb as [Hb Hj1].
  apply andb_prop in Hb as [Hi1 Hi2].
  apply Nat.leb_le in Hi1, Hj1. apply Nat.ltb_lt in Hi2, Hj2.
  rewrite entry_zip_with, (entry_slice2_block h w) by (done || lia).
  replace (128 + (i - 128))%nat with i by lia.
  replace (128 + (j - 128))%nat with j by lia.
  rewrite entry_map.
  destruct (entry i j magnitude); [|done]. cbn.
  by destruct (entry (i - 128) (j - 128) CVZ).
Qed.

End EmbedFacts.

Section Embedding.
Import Num Np Lab04 Heap Embedder BlockFacts HeapFacts EmbedFacts.
Local Open Scope R_scope.

(** C6: the embedding (lines 62-73 and 250-260) changes the magnitude array
    only on rows and columns 128 to 383, where it adds [ALPHA] times the
    watermark element by element; the phase array it recomposes with is the
    phase of the original spectrum; [original_abs_spectrum] is another
    object than the array assigned into and still holds the original
    magnitudes; arrays that existed before are untouched. *)
Theorem embedding_frame (lib : externals) (ALPHA : R)
    (CVZ image_array : matrix R) (h w : nat) (hp : heap) :
  (384 <= h)%nat -> (384 <= w)%nat ->
  has_shape h w (fft2 lib image_array) -> has_shape 256 256 CVZ ->
  let spectrum := fft2 lib image_array in
  let magnitude := map (map Cabs) spectrum in
  exists e hp' m',
    embed lib ALPHA CVZ image_array hp = (Ok e, hp')
    /\ modified_abs_spectrum e = abs_spectrum e
    /\ original_abs_spectrum e <> modified_abs_spectrum e
    /\ cells hp' !! original_abs_spectrum e = Some magnitude
    /\ cells hp' !! phase_array e = Some (map (map (phase lib)) spectrum)
    /\ cells hp' !! modified_abs_spectrum e = Some m'
    /\ has_shape h w m'
    /\ (forall i j,
          entry i j m'
          = if in_block i j
            then entry i j magnitude ≫= fun x =>
                 entry (i - 128) (j - 128) CVZ ≫= fun c =>
                 Some (x + ALPHA * c)
            else entry i j magnitude)
    /\ modified_spectrum e
       = zip_with (zip_with Cscale) m'
           (map (map Cexp_i) (map (map (phase lib)) spectrum))
    /\ (forall l, (l < next hp)%nat -> cells hp' !! l = cells hp !! l).
Proof.
  intros Hh Hw Hspec Hcvz spectrum magnitude.
  assert (Hm : has_shape h w magnitude) by (by apply has_shape_map).
  assert (Hblock : has_shape 256 256
            (zip_with (zip_with Rplus) (slice2 128 384 128 384 magnitude)
               (map (map (Rmult ALPHA)) CVZ))).
  { apply has_shape_zip_with; [by apply (has_shape_slice2_block h w)|].
    by apply has_shape_map. }
  eexists _, _, (embedded_magnitude lib ALPHA CVZ image_array).
  split; [by apply (embed_run lib ALPHA CVZ image_array h w)|].
  cbn [modified_abs_spectrum abs_spectrum original_abs_spectrum phase_array
       modified_spectrum cells next].
  split; [done|]. split; [lia|].
  split; [heap_lookup|]. split; [heap_lookup|]. split; [heap_lookup|].
  split; [by apply has_shape_with_block|].
  split; [|split; [done|]].
  - intros i j. unfold embedded_magnitude. fold spectrum. fold magnitude.
    rewrite (entry_with_block h w) by done.
    destruct (in_block i j) eqn:Hb; [|done].
    unfold in_block in Hb.
    apply andb_prop in Hb as [Hb Hj2]. apply andb_prop in Hb as [Hb Hj1].
    apply andb_prop in Hb as [Hi1 Hi2].
    apply Nat.leb_le in Hi1, Hj1. apply Nat.ltb_lt in Hi2, Hj2.
    rewrite entry_zip_with, (entry_slice2_block h w) by (done || lia).
    replace (128 + (i - 128))%nat with i by lia.
    replace (128 + (j - 128))%nat with j by lia.
    rewrite entry_map.
    destruct (entry i j magnitude); [|done]. cbn.
    by destruct (entry (i - 128) (j - 128) CVZ).
  - intros l Hl. by rewrite !lookup_insert_ne by lia.
Qed.

Lemma embedding_frame_witness :
  let lib := toy_lib in
  let ALPHA := 50 in
  let CVZ := flat_watermark 1 in
  let image_array := as_float (flat_image 128) in
  let spectrum := fft2 lib image_array in
  let magnitude := map (map Cabs) spectrum in
  exists e hp' m',
    embed lib ALPHA CVZ image_array Heap.empty = (Ok e, hp')
    /\ modified_abs_spectrum e = abs_spectrum e
    /\ original_abs_spectrum e <> modified_abs_spectrum e
    /\ cells hp' !! original_abs_spectrum e = Some magnitude
    /\ cells hp' !! phase_array e = Some (map (map (phase lib)) spectrum)
    /\ cells hp' !! modified_abs_spectrum e = Some m'
    /\ has_shape 512 512 m'
    /\ (forall i j,
          entry i j m'
          = if in_block i j
            then entry i j magnitude ≫= fun x =>
                 entry (i - 128) (j - 128) CVZ ≫= fun c =>
                 Some (x + ALPHA * c)
            else entry i j magnitude)
    /\ modified_spectrum e
       = zip_with (zip_with Cscale) m'
           (map (map Cexp_i) (map (map (phase lib)) spectrum))
    /\ (forall l, (l < next Heap.empty)%nat ->
          cells hp' !! l = cells Heap.empty !! l).
Proof.
  intros lib ALPHA CVZ image_array.
  apply (embedding_frame lib ALPHA CVZ image_array 512 512 Heap.empty).
  - lia.
  - lia.
  - apply has_shape_map, has_shape_map, AttackFacts.has_shape_repeat.
  - apply AttackFacts.has_shape_repeat.
Defined.

End Embedding.

Module TrialFacts.
Import Num Np Lab04 Heap Embedder CorrelationFacts BlockFacts HeapFacts
  EmbedFacts.
Local Open Scope R_scope.

Lemma run_lift_any {A B} (r : result A) (k : A -> prog B) (hp : heap) :
  (lift r ≫= k) hp
  = match r with Ok a => k a hp | Raise e => (Raise e, hp) end.
Proof. by destruct r. Qed.

(** After the embedding a trial only reads: it leaves the heap the embedding
    made. *)
Lemma alpha_trial_heap (lib : externals) (CVZ : matrix R) (image : matrix Z)
    (alpha : Z) (h w : nat) (hp : heap) :
  (384 <= h)%nat -> (384 <= w)%nat ->
  has_shape h w (fft2 lib (as_float image)) -> has_shape 256 256 CVZ ->
  (alpha_trial lib CVZ image alpha hp).2
  = (embed lib ALPHA CVZ (as_float image) hp).2.
Proof.
  intros Hh Hw Hspec Hcvz. unfold alpha_trial. cbv zeta.
  pose proof (embed_run lib ALPHA CVZ (as_float image) h w hp
                Hh Hw Hspec Hcvz) as Hrun.
  cbv zeta in Hrun.
  unfold mbind at 1. unfold prog_bind, bind. rewrite Hrun.
  cbn [phase_array original_abs_spectrum reverse_array snd].
  erewrite run_load; [|heap_lookup].
  erewrite run_load; [|heap_lookup].
  rewrite run_lift_any.
  destruct (extract_and_correlate _ _ _ _ _) as [p|e]; [|done].
  destruct (process_threshold p =? 0)%Z; [done|].
  rewrite run_lift_any.
  by destruct (calculate_psnr_alternative _ _).
Qed.

Lemma np_gt_irrefl (x : npfloat) : np_gt x x = false.
Proof.
  destruct x as [r| | |]; cbn; try done.
  destruct (Rlt_dec r r); [lra|done].
Qed.

Lemma update_best_alpha (alpha : Z) (t : npfloat * option npfloat)
    (best : Z * npfloat * npfloat) :
  update_best alpha t best = best
  \/ best_alpha_of (update_best alpha t best) = alpha.
Proof.
  destruct best as [[a s] q], t as [p [n|]]; cbn; [|by left].
  destruct (np_gt n s); [by right|by left].
Qed.

Lemma update_best_no_improvement (alpha : Z) (p n : npfloat)
    (best : Z * npfloat * npfloat) :
  np_gt n (psnr_of best) = false ->
  update_best alpha (p, Some n) best = best.
Proof.
  destruct best as [[a s] q]. cbn. by intros ->.
Qed.

Lemma search_cons (trial : Z -> prog (npfloat * option npfloat))
    (alpha : Z) (rest : list Z) (best : Z * npfloat * npfloat) (hp : heap) :
  search trial (alpha :: rest) best hp
  = match trial alpha hp with
    | (Ok t, hp') => search trial rest (update_best alpha t best) hp'
    | (Raise e, hp') => (Raise e, hp')
    end.
Proof. reflexivity. Qed.

(** Trials that never detect leave the initial triple. *)
Lemma search_no_detection (trial : Z -> prog (npfloat * option npfloat))
    (l : list Z) (best : Z * npfloat * npfloat) (hp : heap) :
  (forall alpha hp0, In alpha l ->
     exists p hp1, trial alpha hp0 = (Ok (p, None), hp1)) ->
  exists hp', search trial l best hp = (Ok best, hp').
Proof.
  revert hp; induction l as [|a l IH]; intros hp Hall.
  - by exists hp.
  - rewrite search_cons.
    destruct (Hall a hp (or_introl eq_refl)) as (p & hp1 & ->).
    destruct best as [[ba bs] bq]. cbn [update_best].
    apply IH. intros alpha hp0 Hin. apply Hall. by right.
Qed.

Lemma has_shape_flatten_length {A} (h w : nat) (m : matrix A) :
  has_shape h w m -> length (flatten m) = (h * w)%nat.
Proof.
  intros [Hh Hw]. unfold flatten.
  rewrite (DecoyFacts.length_concat_const m w Hw). by rewrite Hh.
Qed.

(** The extraction succeeds on shapes that fit and yields a 256x256
    array. *)
Lemma extract_cvz_ok (lib : externals)
    (phase_array original_abs_spectrum candidate : matrix R) (h w : nat) :
  (384 <= h)%nat -> (384 <= w)%nat ->
  has_shape h w (fft2 lib candidate) ->
  has_shape h w phase_array -> has_shape h w original_abs_spectrum ->
  exists included_cvz,
    extract_cvz lib phase_array original_abs_spectrum candidate
    = Ok included_cvz
    /\ has_shape 256 256 included_cvz.
Proof.
  intros Hh Hw Hspec Hph Horig. unfold extract_cvz. cbv zeta.
  rewrite (zip2_same_shape _ h w) by (try done; by apply has_shape_map).
  cbn [mbind result_bind].
  assert (Habs : has_shape h w
            (map (map Cabs)
               (zip_with (zip_with Cdiv) (fft2 lib candidate)
                  (map (map Cexp_i) phase_array)))).
  { apply has_shape_map, has_shape_zip_with; [done|by apply has_shape_map]. }
  rewrite (zip2_same_shape _ 256 256)
    by (by apply (has_shape_slice2_block h w)).
  cbn [mbind result_bind]. eexists. split; [reflexivity|].
  apply has_shape_map, has_shape_zip_with;
    by apply (has_shape_slice2_block h w).
Qed.

(** With an all-zero watermark no trial detects anything: the proximity is
    nan. *)
Lemma alpha_trial_zero_watermark (lib : externals) (CVZ : matrix R)
    (image : matrix Z) (alpha : Z) (h w : nat) (hp : heap) :
  shape_preserving lib ->
  (384 <= h)%nat -> (384 <= w)%nat ->
  has_shape h w image -> has_shape 256 256 CVZ ->
  is_zero_vector (flatten CVZ) ->
  exists hp1, alpha_trial lib CVZ image alpha hp = (Ok (NaN, None), hp1).
Proof.
  intros (Hfft & Hifft & Hsave) Hh Hw Himg Hcvz Hzero.
  assert (Hspec : has_shape h w (fft2 lib (as_float image))).
  { by apply Hfft, has_shape_map. }
  unfold alpha_trial. cbv zeta.
  pose proof (embed_run lib ALPHA CVZ (as_float image) h w hp
                Hh Hw Hspec Hcvz) as Hrun.
  cbv zeta in Hrun.
  unfold mbind at 1. unfold prog_bind, bind. rewrite Hrun.
  cbn [phase_array original_abs_spectrum reverse_array].
  erewrite run_load; [|heap_lookup].
  erewrite run_load; [|heap_lookup].
  set (ms := zip_with (zip_with Cscale) _ _).
  assert (Hms : has_shape h w ms).
  { apply has_shape_zip_with.
    - apply has_shape_with_block; try done; [by apply has_shape_map|].
      apply has_shape_zip_with;
        [apply (has_shape_slice2_block h w); try done|];
        by apply has_shape_map.
    - by apply has_shape_map, has_shape_map. }
  destruct (extract_cvz_ok lib (map (map (phase lib)) (fft2 lib (as_float image)))
              (map (map Cabs) (fft2 lib (as_float image)))
              (as_float (save_and_reload lib (map (map Cabs) (ifft2 lib ms))))
              h w Hh Hw) as (incl & Hincl & Hshape).
  { apply Hfft, has_shape_map, Hsave, has_shape_map, Hifft, Hms. }
  { by apply has_shape_map. }
  { by apply has_shape_map. }
  unfold extract_and_correlate. rewrite Hincl. cbn [mbind result_bind].
  rewrite proximity_of_zero_vector.
  - rewrite run_lift_any. cbn. eexists. reflexivity.
  - rewrite (has_shape_flatten_length 256 256 CVZ Hcvz).
    by rewrite (has_shape_flatten_length 256 256 incl Hshape).
  - intros Hnil.
    pose proof (has_shape_flatten_length 256 256 CVZ Hcvz) as Hlen.
    rewrite Hnil in Hlen. cbn [length] in Hlen. lia.
  - by left.
Qed.

Lemma toy_lib_shape_preserving : shape_preserving toy_lib.
Proof.
  split; [|split]; intros h w m Hm; cbn [fft2 ifft2 save_and_reload toy_lib];
    [by apply has_shape_map|done|by apply has_shape_map].
Qed.

Lemma flat_watermark_zero : is_zero_vector (flatten (flat_watermark 0)).
Proof.
  apply DecoyFacts.Forall_concat, List.Forall_forall.
  intros row ->%repeat_spec.
  apply List.Forall_forall. by intros x ->%repeat_spec.
Qed.

(** A trial reports a PSNR exactly when the threshold says detected. *)
Lemma alpha_trial_detection (lib : externals) (CVZ : matrix R)
    (image : matrix Z) (alpha : Z) (hp hp' : heap) (p : npfloat)
    (o : option npfloat) :
  alpha_trial lib CVZ image alpha hp = (Ok (p, o), hp') ->
  process_threshold p = 0%Z -> o = None.
Proof.
  unfold alpha_trial. cbv zeta. unfold mbind, prog_bind, bind.
  destruct (embed _ _ _ _ hp) as [[e|err] h1]; [|done].
  unfold load. destruct (cells h1 !! phase_array e); [|done].
  destruct (cells h1 !! original_abs_spectrum e); [|done].
  unfold lift. destruct (extract_and_correlate _ _ _ _ _) as [q|err]; [|done].
  destruct (process_threshold q =? 0)%Z eqn:Hq.
  - by intros [= <- <- _].
  - destruct (calculate_psnr_alternative _ _); [|done].
    intros [= <- <- _] Hp. rewrite Hp in Hq. done.
Qed.

End TrialFacts.

Section AlphaSearch.
Import Num Np Lab04 Heap Embedder BlockFacts HeapFacts EmbedFacts TrialFacts.
Local Open Scope R_scope.

(** C1 on the code: whatever grid point [alpha] a pass of the loop is at,
    the embedding it performs is the embedding at strength [ALPHA = 1]: the
    magnitude array it leaves holds the original magnitude plus 1 times the
    watermark on the central block, not [alpha] times. *)
Theorem alpha_trial_embeds_with_ALPHA (lib : externals) (CVZ : matrix R)
    (image : matrix Z) (alpha : Z) (h w : nat) (hp : heap) :
  (384 <= h)%nat -> (384 <= w)%nat ->
  has_shape h w (fft2 lib (as_float image)) -> has_shape 256 256 CVZ ->
  In alpha (py_range 1 1001 100) ->
  let magnitude := map (map Cabs) (fft2 lib (as_float image)) in
  exists e hp' m',
    embed lib 1 CVZ (as_float image) hp = (Ok e, hp')
    /\ (alpha_trial lib CVZ image alpha hp).2 = hp'
    /\ cells hp' !! modified_abs_spectrum e = Some m'
    /\ forall i j, in_block i j = true ->
          entry i j m'
          = entry i j magnitude ≫= fun x =>
            entry (i - 128) (j - 128) CVZ ≫= fun c => Some (x + 1 * c).
Proof.
  intros Hh Hw Hspec Hcvz _ magnitude.
  destruct (embedding_frame_parts lib 1 CVZ (as_float image) h w hp
              Hh Hw Hspec Hcvz) as (e & hp' & m' & Hrun & Hm' & Hentry).
  exists e, hp', m'. split; [exact Hrun|]. split.
  - rewrite (alpha_trial_heap lib CVZ image alpha h w) by done.
    unfold ALPHA. by rewrite Hrun.
  - split; [exact Hm'|]. intros i j Hb. by rewrite Hentry, Hb.
Qed.

Lemma alpha_trial_embeds_with_ALPHA_witness :
  let lib := toy_lib in
  let CVZ := flat_watermark 1 in
  let image := flat_image 128 in
  let magnitude := map (map Cabs) (fft2 lib (as_float image)) in
  exists e hp' m',
    embed lib 1 CVZ (as_float image) Heap.empty = (Ok e, hp')
    /\ (alpha_trial lib CVZ image 101 Heap.empty).2 = hp'
    /\ cells hp' !! modified_abs_spectrum e = Some m'
    /\ forall i j, in_block i j = true ->
          entry i j m'
          = entry i j magnitude ≫= fun x =>
            entry (i - 128) (j - 128) CVZ ≫= fun c => Some (x + 1 * c).
Proof.
  intros lib CVZ image.
  apply (alpha_trial_embeds_with_ALPHA lib CVZ image 101 512 512 Heap.empty).
  - lia.
  - lia.
  - apply has_shape_map, has_shape_map, AttackFacts.has_shape_repeat.
  - apply AttackFacts.has_shape_repeat.
  - vm_compute. tauto.
Defined.

End AlphaSearch.

(** * Further properties of the lab's functions *)

Module ScalingFacts.
Import Num Np Lab04 CorrelationFacts.
Local Open Scope R_scope.

Lemma dot_scale_l (k : R) (a b : vector R) :
  dot (map (Rmult k) a) b = k * dot a b.
Proof.
  revert b; induction a as [|x a IH]; intros [|y b]; cbn [map];
    try (unfold dot; cbn; lra).
  rewrite !dot_cons, IH. lra.
Qed.

Lemma sumsq_scale (k : R) (a : vector R) :
  sumsq (map (Rmult k) a) = k ^ 2 * sumsq a.
Proof.
  induction a as [|x a IH]; cbn [map]; [unfold sumsq; cbn; lra|].
  rewrite !sumsq_cons, IH. lra.
Qed.

Lemma sqrt_scale (k s : R) : 0 < k -> 0 <= s -> sqrt (k ^ 2 * s) = k * sqrt s.
Proof.
  intros Hk Hs. rewrite sqrt_mult by nra.
  replace (k ^ 2) with (Rsqr k) by (unfold Rsqr; lra).
  rewrite sqrt_Rsqr by lra. done.
Qed.

(** float64 division does not see a common positive factor. *)
Lemma np_div_scale (k x y : R) : 0 < k -> np_div (k * x) (k * y) = np_div x y.
Proof.
  intros Hk. unfold np_div.
  destruct (Req_dec_T y 0) as [Hy|Hy].
  - destruct (Req_dec_T (k * y) 0) as [_|Hky]; [|nra].
    destruct (Req_dec_T x 0) as [Hx|Hx].
    + destruct (Req_dec_T (k * x) 0); [done|nra].
    + destruct (Req_dec_T (k * x) 0); [nra|].
      destruct (Rlt_dec 0 x), (Rlt_dec 0 (k * x)); try done; nra.
  - destruct (Req_dec_T (k * y) 0) as [Hky|_]; [nra|].
    f_equal. field. split; lra.
Qed.

End ScalingFacts.

Section CorrelationMore.
Import Num Np Lab04 CorrelationFacts ScalingFacts.
Local Open Scope R_scope.

(** X1: in exact real arithmetic (float64 rounding set aside, which can
    change the last digits of the two results) the correlation does not
    change when either vector is multiplied by a positive factor; in
    particular the division of the extracted block by [ALPHA] has no effect
    on the score beyond rounding. *)
Theorem calculate_proximity_scale_invariant (k : R) (a b : vector R) :
  0 < k -> length a = length b ->
  calculate_proximity (map (Rmult k) a) b = calculate_proximity a b
  /\ calculate_proximity a (map (Rmult k) b) = calculate_proximity a b.
Proof.
  intros Hk Hlen.
  destruct a as [|x a]; destruct b as [|y b]; try discriminate Hlen;
    [done|].
  assert (Hscale : forall u v : vector R, length u = length v -> u <> [] ->
            calculate_proximity (map (Rmult k) u) v = calculate_proximity u v).
  { intros u v Huv Hu.
    rewrite !calculate_proximity_eq;
      [|done|done|by rewrite length_map|by destruct u].
    rewrite dot_scale_l, sumsq_scale, sqrt_scale by (done || apply sumsq_nonneg).
    rewrite Rmult_assoc. by rewrite np_div_scale. }
  split; [by apply Hscale|].
  assert (Hsym : forall u v : vector R, length u = length v -> u <> [] ->
            calculate_proximity u v = calculate_proximity v u).
  { intros u v Huv Hu.
    rewrite !calculate_proximity_eq; [|done| |done|done].
    - by rewrite dot_comm, Rmult_comm.
    - destruct v; [by destruct u|done]. }
  rewrite (Hsym (x :: a)) by (by rewrite ?length_map).
  rewrite Hscale by done. by apply Hsym.
Qed.

Lemma calculate_proximity_scale_invariant_witness :
  calculate_proximity (map (Rmult 3) [1; 2]) [2; 5]
    = calculate_proximity [1; 2] [2; 5]
  /\ calculate_proximity [1; 2] (map (Rmult 3) [2; 5])
    = calculate_proximity [1; 2] [2; 5].
Proof.
  apply (calculate_proximity_scale_invariant 3 [1; 2] [2; 5]);
    [lra|reflexivity].
Defined.

(** X2: error behaviour of the correlation.  Vectors of different lengths,
    neither of length 1, make the element-wise product fail with
    [ValueError]; two empty vectors get past the product and fail in
    Python's division, [0 / 0.0], with [ZeroDivisionError]. *)
Theorem calculate_proximity_errors (a b : vector R) :
  length a <> length b -> length a <> 1%nat -> length b <> 1%nat ->
  calculate_proximity a b = Raise ValueError
  /\ calculate_proximity [] [] = Raise ZeroDivisionError.
Proof.
  intros Hab Ha Hb. split.
  - unfold calculate_proximity, mul1, broadcast.
    apply Nat.eqb_neq in Hab. rewrite Hab.
    destruct a as [|x [|x' a]]; destruct b as [|y [|y' b]]; cbn; try done.
  - unfold calculate_proximity. cbn.
    unfold py_div. cbn.
    destruct (Req_dec_T _ 0) as [|Hne]; [done|].
    destruct Hne. rewrite sqrt_0. lra.
Qed.

Lemma calculate_proximity_errors_witness :
  calculate_proximity [1; 2; 3] [4; 5] = Raise ValueError
  /\ calculate_proximity [] [] = Raise ZeroDivisionError.
Proof.
  apply (calculate_proximity_errors [1; 2; 3] [4; 5]); cbn; lia.
Defined.

End CorrelationMore.

(** ** PSNR, beyond the two formulas *)

#[global] Instance uint8_symmetric : DTypeSymmetric Z.
Proof.
  split. intros x y. cbn. f_equal.
  rewrite <- !Z.mul_mod by lia. f_equal. ring.
Qed.

#[global] Instance float64_symmetric : DTypeSymmetric R.
Proof. split. intros x y. cbn. ring. Qed.

Module PsnrMoreFacts.
Import Num Np Lab04 More CorrelationFacts PsnrFacts BlockFacts.
Local Open Scope R_scope.

(** Arrays whose rows pair up in length combine element by element. *)
Lemma zip2_rows {A B D} (f : A -> B -> D) (a : matrix A) (b : matrix B) :
  Forall2 (fun x y => length x = length y) a b ->
  zip2 f a b = Ok (zip_with (zip_with f) a b).
Proof.
  intros Hab. unfold zip2, broadcast.
  rewrite (Forall2_length _ _ _ Hab), Nat.eqb_refl.
  apply mapM_zip_ok.
  eapply Forall2_impl; [exact Hab|].
  intros x y Hxy. by apply broadcast_elementwise_same.
Qed.

Lemma same_shape_rows {A B} (h w : nat) (a : matrix A) (b : matrix B) :
  has_shape h w a -> has_shape h w b ->
  Forall2 (fun x y => length x = length y) a b.
Proof.
  intros [Ha Haw] [Hb Hbw]. apply (Forall2_same_width w); [lia|done..].
Qed.

Lemma squared_differences_cons `{DType A} (r1 r2 : list A) (a b : matrix A) :
  squared_differences (r1 :: a) (r2 :: b)
  = map (fun d => dt_float (dt_sq d)) (zip_with dt_sub r1 r2)
    ++ squared_differences a b.
Proof.
  unfold squared_differences, flatten, square2. cbn.
  by rewrite map_app, map_map.
Qed.

Lemma mean_squared_differences `{DType A} (a b : matrix A) :
  mean (square2 (zip_with (zip_with dt_sub) a b))
  = np_div (fold_right Rplus 0 (squared_differences a b))
           (INR (length (squared_differences a b))).
Proof. unfold mean, squared_differences. by rewrite length_map. Qed.

Lemma squared_differences_sym `{DTypeSymmetric A} (a b : matrix A) :
  squared_differences a b = squared_differences b a.
Proof.
  revert b; induction a as [|r1 a IH]; intros [|r2 b]; try done.
  rewrite !squared_differences_cons, IH. f_equal.
  clear IH. revert r2; induction r1 as [|x r1 IH]; intros [|y r2]; try done.
  cbn. by rewrite IH, dt_sq_sub_sym.
Qed.

Lemma Forall2_flip_length {A B} (a : matrix A) (b : matrix B) :
  Forall2 (fun x y => length x = length y) a b ->
  Forall2 (fun x y => length x = length y) b a.
Proof. induction 1; constructor; auto. Qed.

Lemma squared_differences_length `{DType A} (a b : matrix A) :
  Forall2 (fun x y => length x = length y) a b ->
  length (squared_differences a b) = length (flatten a).
Proof.
  induction 1 as [|r1 r2 a b Hr _ IH]; [done|].
  rewrite squared_differences_cons. unfold flatten in *. cbn [concat].
  rewrite !length_app, IH, length_map, length_zip_with. lia.
Qed.

Lemma squared_differences_elements `{DType A} (P : R -> Prop)
    (a b : matrix A) :
  (forall d : A, P (dt_float (dt_sq d))) ->
  Forall P (squared_differences a b).
Proof.
  intros HP. unfold squared_differences, square2.
  rewrite flatten_map_map, map_map.
  apply List.Forall_forall. intros v [d [<- _]]%in_map_iff. apply HP.
Qed.

Lemma sum_bounds (l : list R) (hi : R) :
  Forall (fun v => 0 <= v <= hi) l ->
  0 <= fold_right Rplus 0 l <= hi * INR (length l).
Proof.
  induction 1 as [|v l Hv _ IH]; [cbn; lra|].
  cbn [fold_right length]. rewrite S_INR. nra.
Qed.

(** A uint8 difference that is a multiple of 16 squares to 0. *)
Lemma uint8_square_of_multiple_of_16 (x y : Z) :
  ((x - y) mod 16 = 0)%Z ->
  dt_float (dt_sq (dt_sub x y)) = 0.
Proof.
  intros H16. cbn. rewrite <- Z.mul_mod by lia.
  apply Z.mod_divide in H16 as [q Hq]; [|lia]. rewrite Hq.
  replace (q * 16 * (q * 16))%Z with (q * q * 256)%Z by ring.
  by rewrite Z.mod_mul.
Qed.

Lemma squared_differences_multiples_of_16 (a b : matrix Z) :
  Forall2 (Forall2 (fun x y => ((x - y) mod 16 = 0)%Z)) a b ->
  Forall (fun v => v = 0) (squared_differences a b).
Proof.
  induction 1 as [|r1 r2 a b Hr _ IH]; [constructor|].
  rewrite squared_differences_cons. apply Forall_app. split; [|done].
  clear IH. induction Hr as [|x y r1 r2 Hxy _ IHr]; [constructor|].
  cbn [zip_with map]. constructor; [|done].
  by apply uint8_square_of_multiple_of_16.
Qed.

Lemma uint8_square_range (d : Z) : 0 <= dt_float (dt_sq d) <= 255.
Proof.
  cbn. pose proof (Z.mod_pos_bound (d * d) 256 ltac:(lia)) as [Hlo Hhi].
  split; [by apply IZR_le|]. apply IZR_le. lia.
Qed.

Lemma log10_increasing (x y : R) : 0 < x -> x < y -> log10 x < log10 y.
Proof.
  intros Hx Hxy. unfold log10. pose proof ln_10_pos.
  pose proof (ln_increasing x y Hx Hxy).
  apply Rmult_lt_compat_r; [|done]. by apply Rinv_0_lt_compat.
Qed.

Lemma log10_pow10 (n : nat) : log10 (10 ^ n) = INR n.
Proof.
  unfold log10. rewrite ln_pow by lra. pose proof ln_10_pos. field. lra.
Qed.

End PsnrMoreFacts.

Section PsnrMore.
Import Num Np Lab04 More CorrelationFacts PsnrFacts BlockFacts PsnrMoreFacts.
Local Open Scope R_scope.

(** X3: both PSNR functions are symmetric in their two images (images of
    one shape), for float arrays and for uint8 arrays with their
    wrap-around. *)
Theorem psnr_symmetric `{DTypeSymmetric A} (a b : matrix A) (h w : nat) :
  has_shape h w a -> has_shape h w b ->
  calculate_psnr a b = calculate_psnr b a
  /\ calculate_psnr_alternative a b = calculate_psnr_alternative b a.
Proof.
  intros Ha Hb.
  pose proof (same_shape_rows h w a b Ha Hb) as Hab.
  unfold calculate_psnr, calculate_psnr_alternative.
  change (sub2 a b) with (zip2 dt_sub a b).
  change (sub2 b a) with (zip2 dt_sub b a).
  rewrite !zip2_rows by (done || by apply Forall2_flip_length).
  cbn [mbind result_bind].
  rewrite !mean_squared_differences, (squared_differences_sym a b). done.
Qed.

Lemma psnr_symmetric_witness :
  calculate_psnr [[3%Z; 250%Z]] [[9%Z; 1%Z]]
    = calculate_psnr [[9%Z; 1%Z]] [[3%Z; 250%Z]]
  /\ calculate_psnr_alternative [[3%Z; 250%Z]] [[9%Z; 1%Z]]
    = calculate_psnr_alternative [[9%Z; 1%Z]] [[3%Z; 250%Z]].
Proof.
  apply (psnr_symmetric [[3%Z; 250%Z]] [[9%Z; 1%Z]] 1 2);
    (split; [reflexivity|repeat constructor]).
Defined.

(** Evaluates the integer expressions under [IZR] in a goal. *)
Ltac eval_uint8 :=
  repeat match goal with
  | |- context [IZR ?z] =>
      let v := eval vm_compute in z in progress change z with v
  end.

(** X4: uint8 arithmetic wraps around, so a pixel difference that is a
    multiple of 16 squares to 0: two uint8 images whose differences are all
    multiples of 16 get the score of identical images, 100 from
    [calculate_psnr] and +inf from [calculate_psnr_alternative]. *)
Theorem psnr_uint8_blind_to_multiples_of_16 (a b : matrix Z) :
  Forall2 (Forall2 (fun x y => ((x - y) mod 16 = 0)%Z)) a b ->
  flatten a <> [] ->
  calculate_psnr a b = Ok (Finite 100)
  /\ calculate_psnr_alternative a b = Ok PInf.
Proof.
  intros H16 Hne.
  assert (Hrows : Forall2 (fun x y : list Z => length x = length y) a b).
  { eapply Forall2_impl; [exact H16|]. intros x y Hxy.
    by apply Forall2_length in Hxy. }
  unfold calculate_psnr, calculate_psnr_alternative.
  change (sub2 a b) with (zip2 dt_sub a b).
  rewrite zip2_rows by done. cbn [mbind result_bind].
  rewrite mean_squared_differences.
  rewrite (sum_zero _ (squared_differences_multiples_of_16 a b H16)).
  rewrite squared_differences_length by done.
  pose proof (INR_length_pos _ Hne) as Hn.
  rewrite np_div_finite by lra.
  replace (0 / INR (length (flatten a))) with 0 by (unfold Rdiv; lra).
  split.
  - by destruct (Req_dec_T 0 0).
  - unfold np_div_by, np_div.
    destruct (Req_dec_T 0 0); [|done].
    destruct (Req_dec_T _ 0); [lra|].
    destruct (Rlt_dec 0 _); [done|lra].
Qed.

Lemma psnr_uint8_blind_to_multiples_of_16_witness :
  calculate_psnr [[0%Z; 200%Z]] [[16%Z; 8%Z]] = Ok (Finite 100)
  /\ calculate_psnr_alternative [[0%Z; 200%Z]] [[16%Z; 8%Z]] = Ok PInf.
Proof.
  apply psnr_uint8_blind_to_multiples_of_16; [|discriminate].
  repeat constructor.
Defined.

(** X5: on uint8 images every squared difference lies in 0..255, so
    whenever [calculate_psnr_alternative] returns a number it is at least
    10 log10(255), about 24 dB, however different the images are. *)
Theorem psnr_alternative_uint8_floor (a b : matrix Z) (v : R) :
  calculate_psnr_alternative a b = Ok (Finite v) ->
  10 * log10 255 <= v.
Proof.
  unfold calculate_psnr_alternative.
  destruct (sub2 a b) as [d|e]; cbn [mbind result_bind]; [|done].
  unfold mean, np_div_by, np_div.
  set (l := map dt_float (flatten (square2 d))).
  assert (Hl : Forall (fun v => 0 <= v <= 255) l).
  { unfold l, square2. rewrite flatten_map_map, map_map.
    apply List.Forall_forall. intros x [z [<- _]]%in_map_iff.
    apply uint8_square_range. }
  pose proof (sum_bounds l 255 Hl) as [Hlo Hhi].
  replace (length (flatten (square2 d))) with (length l)
    by (unfold l; apply length_map).
  pose proof (pos_INR (length l)) as Hn.
  set (s := fold_right Rplus 0 l) in *. set (n := INR (length l)) in *.
  destruct (Req_dec_T n 0) as [Hn0|Hn0].
  { destruct (Req_dec_T s 0); [done|lra]. }
  assert (Hinv : 0 < / n) by (apply Rinv_0_lt_compat; lra).
  destruct (Req_dec_T (s / n) 0) as [Hm0|Hm0].
  { destruct (Req_dec_T (255 ^ 2) 0); [lra|]. by destruct (Rlt_dec 0 _). }
  assert (Hm : 0 < s / n <= 255).
  { split.
    - assert (0 <= s / n) by (unfold Rdiv; nra). lra.
    - apply Rmult_le_reg_r with n; [lra|].
      unfold Rdiv. rewrite Rmult_assoc, Rinv_l by lra. lra. }
  assert (Hq : 255 <= 255 ^ 2 / (s / n)).
  { set (m := s / n) in *.
    assert (Hmi : m * / m = 1) by (field; lra).
    assert (0 < / m) by (apply Rinv_0_lt_compat; lra).
    unfold Rdiv. nra. }
  cbn [np_log10 scale].
  destruct (Req_dec_T (255 ^ 2 / (s / n)) 0); [lra|].
  destruct (Rlt_dec (255 ^ 2 / (s / n)) 0); [lra|].
  cbn [scale]. intros [= <-].
  change (255 * (255 * 1)) with (255 ^ 2).
  destruct (Req_dec (255 ^ 2 / (s / n)) 255) as [Heq|Hne];
    [rewrite Heq; lra|].
  pose proof (log10_increasing 255 (255 ^ 2 / (s / n))). lra.
Qed.

Lemma psnr_alternative_uint8_floor_witness :
  10 * log10 255 <= 10 * log10 (255 ^ 2 / (1 / 2)).
Proof.
  apply (psnr_alternative_uint8_floor [[0%Z; 10%Z]] [[1%Z; 10%Z]]).
  unfold calculate_psnr_alternative. cbn -[np_div np_div_by np_log10 scale].
  unfold mean. cbn -[np_div np_div_by np_log10 scale]. eval_uint8.
  unfold np_div_by. rewrite np_div_finite by lra.
  replace ((1 + (0 + 0)) / (1 + 1)) with (1 / 2) by lra.
  rewrite np_div_finite by lra. unfold np_log10.
  destruct (Req_dec_T _ 0); [lra|]. destruct (Rlt_dec _ 0); [lra|done].
Defined.

End PsnrMore.

Section PsnrOrder.
Import Num Np Lab04 More CorrelationFacts PsnrFacts BlockFacts PsnrMoreFacts.
Local Open Scope R_scope.
Context `{DTypeLaws A}.

(** X6: the value 100 that [calculate_psnr] returns for identical images is
    not an upper bound of the function: a mean squared error below
    65025e-10 gives more than 100, so a nearly identical image outranks an
    identical one. *)
Theorem calculate_psnr_exceeds_sentinel (original compressed : matrix A)
    (mse : R) :
  mean_squared_error original compressed = Ok (Finite mse) ->
  0 < mse -> mse < 65025 / 10 ^ 10 ->
  exists v, calculate_psnr original compressed = Ok (Finite v) /\ 100 < v.
Proof.
  unfold mean_squared_error, calculate_psnr.
  destruct (sub2 original compressed) as [diff|e];
    cbn [mbind result_bind]; [|done].
  intros [= Hmse] Hpos Hsmall. rewrite Hmse.
  pose proof (sqrt_lt_R0 mse Hpos) as Hroot.
  destruct (Req_dec_T mse 0); [lra|].
  unfold math_sqrt. destruct (Rlt_dec mse 0); [lra|].
  cbn [mbind result_bind pyfloat_div].
  destruct (Req_dec_T (sqrt mse) 0); [lra|].
  cbn [mbind result_bind math_log10].
  assert (Hroot' : sqrt mse < 255 / 10 ^ 5).
  { rewrite <- (sqrt_pow2 (255 / 10 ^ 5)) by lra.
    apply sqrt_lt_1; [lra|nra|].
    replace ((255 / 10 ^ 5) ^ 2) with (65025 / 10 ^ 10) by (field; lra).
    done. }
  assert (Hratio : 10 ^ 5 < 255 / sqrt mse).
  { assert (Hinv : 0 < / sqrt mse) by (by apply Rinv_0_lt_compat).
    assert (Hone : sqrt mse * / sqrt mse = 1) by (field; lra).
    unfold Rdiv in *. nra. }
  destruct (Rle_dec (255 / sqrt mse) 0); [lra|].
  eexists. split; [reflexivity|].
  pose proof (log10_increasing (10 ^ 5) (255 / sqrt mse)) as Hlog.
  rewrite log10_pow10 in Hlog. cbn [INR] in Hlog. lra.
Qed.

(** X7: [calculate_psnr_alternative], the function the alpha search
    compares candidates with, orders candidates by their error: of two
    candidates the one with the smaller mean squared error gets the
    strictly larger value under [>]; an error of 0 gives +inf. *)
Theorem psnr_alternative_orders_by_error (original c1 c2 : matrix A)
    (m1 m2 : R) :
  mean_squared_error original c1 = Ok (Finite m1) ->
  mean_squared_error original c2 = Ok (Finite m2) ->
  m1 < m2 ->
  exists r1 r2,
    calculate_psnr_alternative original c1 = Ok r1
    /\ calculate_psnr_alternative original c2 = Ok r2
    /\ np_gt r1 r2 = true.
Proof.
  unfold mean_squared_error, calculate_psnr_alternative.
  destruct (sub2 original c1) as [d1|e]; cbn [mbind result_bind]; [|done].
  destruct (sub2 original c2) as [d2|e]; cbn [mbind result_bind]; [|done].
  intros [= H1] [= H2] Hlt. rewrite H1, H2.
  pose proof (mean_square_nonneg d1 m1 H1) as Hm1.
  assert (Hm2 : 0 < m2) by lra.
  eexists _, _. split; [reflexivity|]. split; [reflexivity|].
  assert (Hq2 : 0 < 255 ^ 2 / m2) by (apply Rdiv_lt_0_compat; lra).
  unfold np_div_by. rewrite (np_div_finite _ m2) by lra.
  unfold np_log10 at 2.
  destruct (Req_dec_T (255 ^ 2 / m2) 0); [lra|].
  destruct (Rlt_dec (255 ^ 2 / m2) 0); [lra|].
  destruct (Req_dec m1 0) as [->|Hne].
  - unfold np_div. destruct (Req_dec_T 0 0); [|done].
    destruct (Req_dec_T (255 ^ 2) 0); [lra|].
    destruct (Rlt_dec 0 (255 ^ 2)); [done|lra].
  - assert (Hq1 : 255 ^ 2 / m2 < 255 ^ 2 / m1).
    { assert (0 < / m1) by (apply Rinv_0_lt_compat; lra).
      assert (0 < / m2) by (apply Rinv_0_lt_compat; lra).
      assert (/ m2 < / m1) by (apply Rinv_lt_contravar; nra).
      unfold Rdiv. nra. }
    rewrite np_div_finite by lra. unfold np_log10.
    destruct (Req_dec_T (255 ^ 2 / m1) 0); [lra|].
    destruct (Rlt_dec (255 ^ 2 / m1) 0); [lra|].
    cbn [scale np_gt].
    pose proof (log10_increasing _ _ Hq2 Hq1).
    destruct (Rlt_dec _ _); [done|lra].
Qed.

End PsnrOrder.

Section PsnrOrderWitnesses.
Import Num Np Lab04 More CorrelationFacts PsnrFacts BlockFacts PsnrMoreFacts.
Local Open Scope R_scope.

Lemma mse_float_example (x : R) :
  mean_squared_error [[0]] [[x]] = Ok (Finite (x ^ 2)).
Proof.
  unfold mean_squared_error, mean. cbn -[np_div].
  rewrite np_div_finite by lra. do 2 f_equal. field.
Qed.

Lemma calculate_psnr_exceeds_sentinel_witness :
  exists v, calculate_psnr [[0]] [[1 / 1000]] = Ok (Finite v) /\ 100 < v.
Proof.
  apply (calculate_psnr_exceeds_sentinel [[0]] [[1 / 1000]] ((1 / 1000) ^ 2)).
  - apply mse_float_example.
  - lra.
  - lra.
Defined.

Lemma psnr_alternative_orders_by_error_witness :
  exists r1 r2,
    calculate_psnr_alternative [[0]] [[1]] = Ok r1
    /\ calculate_psnr_alternative [[0]] [[2]] = Ok r2
    /\ np_gt r1 r2 = true.
Proof.
  apply (psnr_alternative_orders_by_error [[0]] [[1]] [[2]] (1 ^ 2) (2 ^ 2)).
  - apply mse_float_example.
  - apply mse_float_example.
  - lra.
Defined.

End PsnrOrderWitnesses.

(** ** The decoys *)

Module DecoyMoreFacts.
Import Num Np Random Lab04 CorrelationFacts PsnrFacts DecoyFacts.
Local Open Scope R_scope.

Lemma advance_advance (n m : nat) (g : rng) :
  advance m (advance n g) = advance (n + m) g.
Proof. unfold advance. cbn. f_equal. lia. Qed.

Lemma advance_0 (g : rng) : advance 0 g = g.
Proof. destruct g as [s c]. unfold advance. cbn. f_equal. lia. Qed.

(** The loop hands out consecutive blocks of the sample sequence. *)
Lemma draw_vectors_blocks (size : Z) (n : nat) (acc : list (vector R))
    (g : rng) :
  draw_vectors size n acc g
  = (acc ++ map (fun k => map (samples g)
                            (seq (cursor g + k * Z.to_nat size)
                                 (Z.to_nat size)))
                (seq 0 n),
     advance (n * Z.to_nat size) g).
Proof.
  set (N := Z.to_nat size).
  revert acc g; induction n as [|n IH]; intros acc g.
  - cbn [draw_vectors seq map Nat.mul]. by rewrite app_nil_r, advance_0.
  - cbn [draw_vectors]. rewrite IH. unfold normal1. cbn [fst snd].
    fold N. rewrite advance_advance. f_equal.
    rewrite <- app_assoc. f_equal. cbn [app seq map].
    f_equal; [f_equal; f_equal; cbn; lia|].
    rewrite <- seq_shift, map_map. apply map_ext. intros k.
    cbn [samples cursor advance]. f_equal. f_equal. lia.
Qed.

Lemma concat_blocks {A} (f : nat -> A) (c N n : nat) :
  concat (map (fun k => map f (seq (c + k * N) N)) (seq 0 n))
  = map f (seq c (n * N)).
Proof.
  induction n as [|n IH]; [done|].
  rewrite seq_S, map_app, concat_app, IH. cbn [map concat Nat.add].
  rewrite app_nil_r, <- map_app. f_equal.
  replace (S n * N)%nat with (n * N + N)%nat by lia.
  by rewrite seq_app.
Qed.

Lemma normal2_flatten (r c : Z) (g : rng) :
  flatten (normal2 r c g).1
  = map (samples g) (seq (cursor g) (Z.to_nat r * Z.to_nat c)).
Proof. unfold normal2, flatten. cbn [fst]. apply concat_blocks. Qed.

Lemma stage_generator (g : rng) :
  generator (run_false_positive_stage g)
  = (generate_false_detection_vectors 100 (normal2 256 256 g).2).2.
Proof. reflexivity. Qed.

(** A matrix followed by [n] vectors: together the next samples, in order. *)
Lemma drawn_samples_consecutive (r c size : Z) (n : nat) (g : rng) :
  flatten (normal2 r c g).1
  ++ concat (draw_vectors size n [] (normal2 r c g).2).1
  = map (samples g)
        (seq (cursor g) (Z.to_nat r * Z.to_nat c + n * Z.to_nat size))
  /\ (draw_vectors size n [] (normal2 r c g).2).2
     = advance (Z.to_nat r * Z.to_nat c + n * Z.to_nat size) g.
Proof.
  rewrite draw_vectors_blocks, normal2_flatten.
  generalize (Z.to_nat size) as N. intros N.
  unfold normal2. generalize (Z.to_nat r * Z.to_nat c)%nat as M. intros M.
  cbn [fst snd app]. rewrite concat_blocks.
  cbn [samples cursor advance]. split.
  - rewrite <- map_app. f_equal. by rewrite seq_app.
  - unfold advance. cbn [samples cursor]. f_equal. lia.
Qed.

(** A decoy of the reference's length or of length 1 gets a score; any
    other length makes the product fail. *)
Lemma calculate_proximity_fits (cvz d : vector R) :
  (2 <= length cvz)%nat ->
  length d = length cvz \/ length d = 1%nat ->
  exists x, calculate_proximity cvz d = Ok x.
Proof.
  intros Hcvz [Hd|Hd].
  - rewrite calculate_proximity_eq; [by eexists|done|].
    intros ->. cbn in Hcvz. lia.
  - destruct d as [|y [|y' d]]; try discriminate Hd.
    unfold calculate_proximity, mul1, broadcast.
    destruct (length cvz =? length [y])%nat eqn:Heq.
    { apply Nat.eqb_eq in Heq. cbn in Heq. lia. }
    destruct cvz as [|x [|x' cvz]]; try (cbn in Hcvz; lia).
    rewrite (mapM_ok _ (fun x => x * y)) by done.
    cbn [mbind result_bind map]. rewrite py_sum_cons.
    unfold py_div. cbn [is_np orb]. by eexists.
Qed.

Lemma calculate_proximity_misfit (cvz d : vector R) :
  (2 <= length cvz)%nat ->
  length d <> length cvz -> length d <> 1%nat ->
  calculate_proximity cvz d = Raise ValueError.
Proof.
  intros Hcvz Hd Hd1. unfold calculate_proximity, mul1, broadcast.
  destruct (length cvz =? length d)%nat eqn:Heq.
  { apply Nat.eqb_eq in Heq. lia. }
  destruct cvz as [|x [|x' cvz]]; try (cbn in Hcvz; lia).
  by destruct d as [|y [|y' d]].
Qed.

End DecoyMoreFacts.

Section DecoysMore.
Import Num Np Random Lab04 CorrelationFacts PsnrFacts DecoyFacts
  DecoyMoreFacts.
Local Open Scope R_scope.

(** X8: the watermark and the 100 decoys are cut from the sample sequence
    one after the other: read in order they are exactly the next
    256*256 + 100*65536 samples, so no sample is shared between two decoys or
    between a decoy and the watermark, and the generator ends past them. *)
Theorem stage_consumes_samples_once (g : rng) :
  let st := run_false_positive_stage g in
  let total := (Z.to_nat 256 * Z.to_nat 256
                + Z.to_nat 100 * Z.to_nat 65536)%nat in
  flatten (CVZ st) ++ concat (false_detection_cvz st)
  = map (samples g) (seq (cursor g) total)
  /\ generator st = advance total g.
Proof.
  intros st total. unfold st, total.
  rewrite stage_CVZ, stage_decoys, stage_generator.
  unfold generate_false_detection_vectors.
  exact (drawn_samples_consecutive 256 256 65536 (Z.to_nat 100) g).
Qed.

(** X9: [generate_false_detection_vectors] in closed form: decoy number
    [k] is the block of 65536 samples that starts [k] * 65536 samples after
    the generator's position, the generator ends [count] * 65536 samples
    further; a zero or negative count gives no decoy and leaves the
    generator where it was. *)
Theorem generate_false_detection_vectors_blocks (count : Z) (g : rng) :
  generate_false_detection_vectors count g
  = (map (fun k => map (samples g)
                     (seq (cursor g + k * Z.to_nat 65536) (Z.to_nat 65536)))
       (seq 0 (Z.to_nat count)),
     advance (Z.to_nat count * Z.to_nat 65536) g)
  /\ ((count <= 0)%Z -> generate_false_detection_vectors count g = ([], g)).
Proof.
  unfold generate_false_detection_vectors. split.
  - rewrite draw_vectors_blocks. cbn [app]. reflexivity.
  - intros Hc. replace (Z.to_nat count) with 0%nat by lia. reflexivity.
Qed.

Lemma generate_false_detection_vectors_blocks_witness :
  generate_false_detection_vectors (-3) {| samples := fun _ => 1; cursor := 5 |}
  = ([], {| samples := fun _ => 1; cursor := 5 |}).
Proof.
  destruct (generate_false_detection_vectors_blocks (-3)
              {| samples := fun _ => 1; cursor := 5 |}) as [_ Hnone].
  apply Hnone. lia.
Defined.

(** X10: against a reference of length at least 2, the analysis returns one
    score per decoy when every decoy has the reference's length or length 1
    (which numpy stretches), and a single decoy of any other length makes
    the whole call fail with [ValueError]. *)
Theorem detect_false_proximity_outcome (cvz : vector R)
    (decoys : list (vector R)) :
  (2 <= length cvz)%nat ->
  (Forall (fun d => length d = length cvz \/ length d = 1%nat) decoys ->
   exists scores,
     detect_false_proximity decoys cvz = Ok scores
     /\ length scores = length decoys)
  /\ (Exists (fun d => length d <> length cvz /\ length d <> 1%nat) decoys ->
      detect_false_proximity decoys cvz = Raise ValueError).
Proof.
  intros Hcvz. unfold detect_false_proximity. split.
  - induction 1 as [|d decoys Hd _ IH]; [by exists []|].
    destruct (calculate_proximity_fits cvz d Hcvz Hd) as [x Hx].
    destruct IH as (scores & Hs & Hlen).
    exists (x :: scores). cbn [mapM]. rewrite Hx. cbn [mbind result_bind].
    rewrite Hs. cbn. by rewrite Hlen.
  - induction decoys as [|d decoys IH]; intros Hbad; [by inversion Hbad|].
    cbn [mapM].
    destruct (Nat.eq_dec (length d) (length cvz)) as [Hfit|Hn].
    + destruct (calculate_proximity_fits cvz d Hcvz (or_introl Hfit))
        as [x ->].
      cbn [mbind result_bind]. rewrite IH; [done|].
      inversion Hbad as [? ? [Hd _]|]; [done|done].
    + destruct (Nat.eq_dec (length d) 1%nat) as [Hone|Hn1].
      * destruct (calculate_proximity_fits cvz d Hcvz (or_intror Hone))
          as [x ->].
        cbn [mbind result_bind]. rewrite IH; [done|].
        inversion Hbad as [? ? [_ Hd]|]; [done|done].
      * by rewrite calculate_proximity_misfit.
Qed.

Lemma detect_false_proximity_outcome_witness :
  (exists scores,
     detect_false_proximity [[1; 2]; [3]] [1; 1] = Ok scores
     /\ length scores = 2%nat)
  /\ detect_false_proximity [[1; 2]; [3; 4; 5]] [1; 1] = Raise ValueError.
Proof.
  destruct (detect_false_proximity_outcome [1; 1] [[1; 2]; [3]])
    as [Hok _]; [cbn; lia|].
  destruct (detect_false_proximity_outcome [1; 1] [[1; 2]; [3; 4; 5]])
    as [_ Hbad]; [cbn; lia|].
  split.
  - apply Hok.
    constructor; [by left|constructor; [by right|constructor]].
  - apply Hbad. apply Exists_cons_tl, Exists_cons_hd. cbn. lia.
Defined.

End DecoysMore.

(** ** The crop-replace attack at any proportion *)

Module CutMoreFacts.
Import Num Np Lab04 Attack Attacks SliceFacts AttackFacts BlockFacts.

Lemma clamp_index_bounded (n : nat) (k : Z) : (clamp_index n k <= n)%nat.
Proof. unfold clamp_index. destruct (k <? 0)%Z eqn:Hk; lia. Qed.

Lemma clamp_index_mono (n : nat) (k1 k2 : Z) :
  (0 <= k1 <= k2)%Z -> (clamp_index n k1 <= clamp_index n k2)%nat.
Proof.
  intros Hk. unfold clamp_index.
  destruct (k1 <? 0)%Z eqn:H1; [apply Z.ltb_lt in H1; lia|].
  destruct (k2 <? 0)%Z eqn:H2; [apply Z.ltb_lt in H2; lia|]. lia.
Qed.

Lemma slice_prefix {A} (k : Z) (l : list A) :
  slice 0 k l = take (clamp_index (length l) k) l.
Proof. unfold slice. by rewrite clamp_index_0, Nat.sub_0_r, drop_0. Qed.

Lemma setitem_prefix {A} (k : Z) (v l : list A) :
  length v = clamp_index (length l) k ->
  setitem 0 k v l = Ok (v ++ drop (clamp_index (length l) k) l).
Proof.
  intros Hv. unfold setitem.
  rewrite clamp_index_0, Nat.sub_0_r, stretch_same by done.
  reflexivity.
Qed.

Lemma mapM_setitem_prefix {A} (k : Z) (w : nat) (rows vs : matrix A) :
  Forall (fun row => length row = w) rows ->
  Forall (fun row => length row = w) vs ->
  mapM (fun '(row, vrow) => setitem 0 k vrow row)
       (zip rows (map (slice 0 k) vs))
  = Ok (zip_with (fun r i => take (clamp_index w k) i
                             ++ drop (clamp_index w k) r) rows vs).
Proof.
  intros Hrows. revert vs.
  induction Hrows as [|row rows Hrow _ IH]; intros vs Hvs; [done|].
  destruct Hvs as [|v vs Hv Hvs]; [done|].
  cbn [map zip zip_with mapM].
  rewrite slice_prefix, setitem_prefix.
  - cbn [mbind result_bind]. rewrite IH by done.
    cbn [mbind result_bind mret result_ret]. by rewrite Hrow, Hv.
  - pose proof (clamp_index_bounded w k).
    rewrite length_take, Hrow, Hv. lia.
Qed.

(** The array the assignment produces, in closed form. *)
Lemma cut_replace_at_closed (k : Z) (rev img : matrix Z) (h w : nat) :
  has_shape h w rev -> has_shape h w img ->
  cut_replace_at k k rev img
  = Ok (zip_with (fun r i => take (clamp_index w k) i
                             ++ drop (clamp_index w k) r)
          (take (clamp_index h k) rev) (take (clamp_index h k) img)
        ++ drop (clamp_index h k) rev).
Proof.
  intros [Hrh Hrw] [Hih Hiw]. unfold cut_replace_at.
  pose proof (clamp_index_bounded h k) as Ha.
  unfold slice2, setitem2.
  rewrite slice_prefix, clamp_index_0, Nat.sub_0_r, drop_0, Hrh, Hih.
  rewrite stretch_same by (rewrite length_map, !length_take; lia).
  cbn [mbind result_bind].
  rewrite (mapM_setitem_prefix k w)
    by (apply Forall_take; done).
  reflexivity.
Qed.

(** Arrays of one length get one bound. *)
Lemma cut_replace_as_at (p : Q) (rev img : matrix Z) :
  length rev = length img ->
  cut_replace p rev img
  = cut_replace_at (cut_bound p rev) (cut_bound p rev) rev img.
Proof.
  intros Hlen. unfold cut_replace, cut_replace_at, cut_bound.
  by rewrite Hlen.
Qed.

Lemma cut_replace_closed (p : Q) (rev img : matrix Z) (h w : nat) :
  has_shape h w rev -> has_shape h w img ->
  cut_replace p rev img
  = Ok (zip_with (fun r i => take (clamp_index w (cut_bound p rev)) i
                             ++ drop (clamp_index w (cut_bound p rev)) r)
          (take (clamp_index h (cut_bound p rev)) rev)
          (take (clamp_index h (cut_bound p rev)) img)
        ++ drop (clamp_index h (cut_bound p rev)) rev).
Proof.
  intros Hrev Himg.
  rewrite cut_replace_as_at
    by (destruct Hrev as [-> _]; by destruct Himg as [-> _]).
  by apply cut_replace_at_closed.
Qed.

(** Entry by entry: inside the top-left region the image, elsewhere the
    array as it was. *)
Lemma spliced_pixel (k : Z) (rev img : matrix Z) (h w i j : nat) :
  has_shape h w rev -> has_shape h w img ->
  pixel i j
    (zip_with (fun r i => take (clamp_index w k) i
                          ++ drop (clamp_index w k) r)
       (take (clamp_index h k) rev) (take (clamp_index h k) img)
     ++ drop (clamp_index h k) rev)
  = if (i <? clamp_index h k)%nat && (j <? clamp_index w k)%nat
    then pixel i j img else pixel i j rev.
Proof.
  intros Hrev Himg.
  pose proof (clamp_index_bounded h k) as Ha.
  pose proof (clamp_index_bounded w k) as Hb.
  set (a := clamp_index h k) in *. set (b := clamp_index w k) in *.
  pose proof Hrev as [Hrh _]. pose proof Himg as [Hih _].
  unfold pixel. rewrite !(nth_lookup _ i).
  destruct (Nat.ltb_spec i a) as [Hi|Hi].
  - rewrite lookup_app_l
      by (rewrite length_zip_with, !length_take; lia).
    rewrite lookup_zip_with, !lookup_take.
    destruct (decide (i < a)%nat); [|lia].
    destruct (lookup_lt_is_Some_2 rev i ltac:(lia)) as [r Hr].
    destruct (lookup_lt_is_Some_2 img i ltac:(lia)) as [im Him].
    rewrite Hr, Him. cbn [mbind option_bind]. cbn [default from_option Datatypes.id].
    pose proof (shape_row h w rev i r Hrev Hr) as Hlr.
    pose proof (shape_row h w img i im Himg Him) as Hlim.
    rewrite !nth_lookup.
    destruct (Nat.ltb_spec j b) as [Hj|Hj]; cbn [andb].
    + rewrite lookup_app_l by (rewrite length_take; lia).
      rewrite lookup_take. by destruct (decide (j < b)%nat); [|lia].
    + rewrite lookup_app_r by (rewrite length_take; lia).
      rewrite lookup_drop, length_take. do 2 f_equal. lia.
  - cbn [andb].
    rewrite lookup_app_r
      by (rewrite length_zip_with, !length_take; lia).
    rewrite lookup_drop, length_zip_with, !length_take.
    do 3 f_equal. lia.
Qed.

Lemma spliced_shape (k : Z) (rev img : matrix Z) (h w : nat) :
  has_shape h w rev -> has_shape h w img ->
  has_shape h w
    (zip_with (fun r i => take (clamp_index w k) i
                          ++ drop (clamp_index w k) r)
       (take (clamp_index h k) rev) (take (clamp_index h k) img)
     ++ drop (clamp_index h k) rev).
Proof.
  intros Hrev Himg.
  pose proof (clamp_index_bounded h k) as Ha.
  pose proof (clamp_index_bounded w k) as Hb.
  destruct Hrev as [Hrh Hrw]. destruct Himg as [Hih Hiw].
  split.
  - rewrite length_app, length_zip_with, !length_take, length_drop. lia.
  - apply Forall_app. split; [|by apply Forall_drop].
    assert (Hr : Forall (fun row : list Z => length row = w)
                   (take (clamp_index h k) rev)) by (by apply Forall_take).
    assert (Hi : Forall (fun row : list Z => length row = w)
                   (take (clamp_index h k) img)) by (by apply Forall_take).
    revert Hi. generalize (take (clamp_index h k) img) as vs.
    induction Hr as [|r rows Hr _ IH]; intros vs Hvs; [constructor|].
    destruct Hvs as [|v vs Hv Hvs]; [constructor|].
    cbn [zip_with]. constructor; [|by apply IH].
    rewrite length_app, length_take, length_drop. lia.
Qed.

Lemma cut_replace_pixel (p : Q) (rev img : matrix Z) (h w i j : nat) :
  has_shape h w rev -> has_shape h w img ->
  pixel i j (after_cut p rev img)
  = if (i <? clamp_index h (cut_bound p rev))%nat
       && (j <? clamp_index w (cut_bound p rev))%nat
    then pixel i j img else pixel i j rev.
Proof.
  intros Hrev Himg. unfold after_cut.
  rewrite (cut_replace_closed p rev img h w) by done.
  by apply spliced_pixel.
Qed.

Lemma cut_replace_shape (p : Q) (rev img : matrix Z) (h w : nat) :
  has_shape h w rev -> has_shape h w img ->
  has_shape h w (after_cut p rev img).
Proof.
  intros Hrev Himg. unfold after_cut.
  rewrite (cut_replace_closed p rev img h w) by done.
  by apply spliced_shape.
Qed.

(** Two arrays of one shape with the same entries are equal. *)
Lemma matrix_ext (h w : nat) (m1 m2 : matrix Z) :
  has_shape h w m1 -> has_shape h w m2 ->
  (forall i j, pixel i j m1 = pixel i j m2) -> m1 = m2.
Proof.
  intros [H1 W1] [H2 W2] Hpix.
  apply (List.nth_ext _ _ [] []); [lia|].
  intros i Hi.
  assert (L1 : length (nth i m1 []) = w).
  { rewrite List.Forall_forall in W1. apply W1, nth_In. lia. }
  assert (L2 : length (nth i m2 []) = w).
  { rewrite List.Forall_forall in W2. apply W2, nth_In. lia. }
  apply (List.nth_ext _ _ 0%Z 0%Z); [lia|].
  intros j _. apply Hpix.
Qed.

(** [int(p * n)] grows with [p]. *)
Lemma cut_bound_mono {A} (p1 p2 : Q) (a : matrix A) :
  (0 <= p1)%Q -> (p1 <= p2)%Q ->
  (0 <= cut_bound p1 a <= cut_bound p2 a)%Z.
Proof.
  intros H0 H12. unfold cut_bound, py_int.
  destruct p1 as [n1 d1], p2 as [n2 d2]. unfold Qle in *. cbn in *.
  set (n := Z.of_nat (length a)).
  assert (Hn : (0 <= n)%Z) by lia.
  rewrite !Pos.mul_1_r.
  assert (Hn1 : (0 <= n1)%Z) by lia.
  assert (Hn2 : (0 <= n2)%Z) by nia.
  rewrite !Z.quot_div_nonneg by nia.
  split; [apply Z.div_pos; nia|].
  apply Z.div_le_lower_bound; [lia|].
  pose proof (Z.mul_div_le (n1 * n) (Z.pos d1) ltac:(lia)) as Hx.
  set (x := (n1 * n / Z.pos d1)%Z) in *.
  assert (Hx0 : (0 <= x)%Z) by (apply Z.div_pos; nia).
  assert (Hn1n : (n1 * n * Z.pos d2 <= n2 * n * Z.pos d1)%Z) by nia.
  nia.
Qed.

(** On arrays of one shape the assignment goes through. *)
Lemma after_cut_ok (p : Q) (rev img : matrix Z) (h w : nat) :
  has_shape h w rev -> has_shape h w img ->
  cut_replace p rev img = Ok (after_cut p rev img).
Proof.
  intros Hrev Himg. unfold after_cut.
  by rewrite (cut_replace_closed p rev img h w).
Qed.

(** A region covers the regions of smaller proportions. *)
Lemma after_cut_ascending (p1 p2 : Q) (rev img : matrix Z) (h w : nat) :
  (0 <= p1)%Q -> (p1 <= p2)%Q ->
  has_shape h w rev -> has_shape h w img ->
  after_cut p2 (after_cut p1 rev img) img = after_cut p2 rev img.
Proof.
  intros H0 H12 Hrev Himg.
  pose proof (cut_replace_shape p1 rev img h w Hrev Himg) as Hs1.
  apply (matrix_ext h w); try (by apply cut_replace_shape).
  intros i j.
  rewrite (cut_replace_pixel p2 _ img h w) by done.
  rewrite (cut_replace_pixel p1 rev img h w) by done.
  rewrite (cut_replace_pixel p2 rev img h w) by done.
  assert (Hk : cut_bound p2 (after_cut p1 rev img) = cut_bound p2 rev).
  { unfold cut_bound. destruct Hs1 as [-> _]. by destruct Hrev as [-> _]. }
  rewrite Hk.
  pose proof (cut_bound_mono p1 p2 rev H0 H12) as Hm.
  pose proof (clamp_index_mono h _ _ Hm) as Ha.
  pose proof (clamp_index_mono w _ _ Hm) as Hb.
  repeat match goal with
         | |- context [(?x <? ?y)%nat] => destruct (Nat.ltb_spec x y)
         end; cbn [andb]; try reflexivity; lia.
Qed.

(** With a proportion of at least 1 nothing of the previous content is
    left. *)
Lemma after_cut_whole (p : Q) (rev img : matrix Z) (h w : nat) :
  (1 <= p)%Q -> (w <= h)%nat ->
  has_shape h w rev -> has_shape h w img ->
  after_cut p rev img = img.
Proof.
  intros Hp Hwh Hrev Himg. unfold after_cut, cut_replace.
  pose proof (cut_bound_ge p rev Hp) as Hkr.
  pose proof (cut_bound_ge p img Hp) as Hki.
  destruct Hrev as [Hrh Hrw]. destruct Himg as [Hih Hiw].
  rewrite (slice2_all _ _ h w) by (try split; try done; lia).
  by rewrite (setitem2_all _ _ _ h w) by (try split; try done; lia).
Qed.

(** A call, run: the score of the array it leaves, and the globals with
    that array stored. *)
Lemma apply_cut_run (lib : externals) (p : Q) (g : globals) (h w : nat) :
  has_shape h w (reverse_array g) -> has_shape h w (image_array g) ->
  apply_cut_and_calculate_proximity lib p g
  = (extract_and_correlate lib (CVZ g) (phase_array g)
       (original_abs_spectrum g)
       (as_float (after_cut p (reverse_array g) (image_array g))),
     set_reverse_array (after_cut p (reverse_array g) (image_array g)) g).
Proof.
  intros Hrev Himg. unfold apply_cut_and_calculate_proximity.
  by rewrite (after_cut_ok p _ _ h w).
Qed.

Lemma apply_cut_ascending (lib : externals) (p1 p2 : Q) (g : globals)
    (h w : nat) :
  (0 <= p1)%Q -> (p1 <= p2)%Q ->
  has_shape h w (reverse_array g) -> has_shape h w (image_array g) ->
  apply_cut_and_calculate_proximity lib p2
    (apply_cut_and_calculate_proximity lib p1 g).2
  = apply_cut_and_calculate_proximity lib p2 g.
Proof.
  intros H0 H12 Hrev Himg.
  rewrite (apply_cut_run lib p1 g h w) by done. cbn [snd].
  rewrite (apply_cut_run lib p2 _ h w)
    by (cbn [set_reverse_array reverse_array image_array];
        first [by apply cut_replace_shape|done]).
  rewrite (apply_cut_run lib p2 g h w) by done.
  cbn [set_reverse_array reverse_array image_array CVZ phase_array
       original_abs_spectrum].
  by rewrite (after_cut_ascending p1 p2 _ _ h w).
Qed.

End CutMoreFacts.

Section CropReplaceMore.
Import Num Np Lab04 Attack Attacks SliceFacts AttackFacts CutMoreFacts.

(** X11: the slice assignment of the crop-replace attack, for whatever
    integer [k] the bound [int(replacement_proportion * len)] came out as
    (one value for two arrays of one length; negative, zero or beyond the
    array): on two arrays of one shape it never fails and keeps the shape,
    and the array it leaves holds the original image in the top-left region
    bounded on both axes by [k] clamped as a slice bound, and the previous
    content everywhere else.  [cut_replace] is this assignment at the bound
    [cut_bound]. *)
Theorem cut_replace_region (k : Z) (rev img : matrix Z) (h w : nat) :
  has_shape h w rev -> has_shape h w img ->
  (exists out,
     cut_replace_at k k rev img = Ok out
     /\ has_shape h w out
     /\ forall i j,
          pixel i j out
          = if (i <? clamp_index h k)%nat && (j <? clamp_index w k)%nat
            then pixel i j img else pixel i j rev)
  /\ forall p,
       cut_replace p rev img
       = cut_replace_at (cut_bound p rev) (cut_bound p rev) rev img.
Proof.
  intros Hrev Himg. split.
  - eexists. split; [by apply (cut_replace_at_closed k rev img h w)|].
    split; [by apply spliced_shape|].
    intros i j. by apply spliced_pixel.
  - intros p. apply cut_replace_as_at.
    destruct Hrev as [-> _]. by destruct Himg as [-> _].
Qed.

Lemma cut_replace_region_witness :
  (exists out,
     cut_replace_at 281 281 watermarked0 carrier0 = Ok out
     /\ has_shape 512 512 out
     /\ forall i j,
          pixel i j out
          = if (i <? clamp_index 512 281)%nat && (j <? clamp_index 512 281)%nat
            then pixel i j carrier0 else pixel i j watermarked0)
  /\ forall p,
       cut_replace p watermarked0 carrier0
       = cut_replace_at (cut_bound p watermarked0) (cut_bound p watermarked0)
           watermarked0 carrier0.
Proof.
  apply (cut_replace_region 281 watermarked0 carrier0 512 512);
    apply has_shape_repeat.
Defined.

(** X12: in ascending order of (non-negative) proportions the regions are
    nested, so a call made after a call with a smaller proportion leaves the
    same stored array and returns the same score as the same call on the
    untouched array. *)
Theorem ascending_cuts_compose (lib : externals) (p1 p2 : Q) (g : globals)
    (h w : nat) :
  (0 <= p1)%Q -> (p1 <= p2)%Q ->
  has_shape h w (reverse_array g) -> has_shape h w (image_array g) ->
  apply_cut_and_calculate_proximity lib p2
    (apply_cut_and_calculate_proximity lib p1 g).2
  = apply_cut_and_calculate_proximity lib p2 g.
Proof.
  intros H0 H12 Hrev Himg.
  by apply (apply_cut_ascending lib p1 p2 g h w).
Qed.

End CropReplaceMore.

Section CropReplaceMoreWitnesses.
Import Num Np Lab04 Attack SliceFacts AttackFacts CutMoreFacts.

Lemma ascending_cuts_compose_witness :
  let g := {| CVZ := []; image_array := carrier0; phase_array := [];
              original_abs_spectrum := []; reverse_array := watermarked0 |} in
  apply_cut_and_calculate_proximity Embedder.toy_lib (70 # 100)
    (apply_cut_and_calculate_proximity Embedder.toy_lib (55 # 100) g).2
  = apply_cut_and_calculate_proximity Embedder.toy_lib (70 # 100) g.
Proof.
  intros g.
  apply (ascending_cuts_compose Embedder.toy_lib (55 # 100) (70 # 100) g
           512 512).
  - vm_compute. discriminate.
  - vm_compute. discriminate.
  - apply has_shape_repeat.
  - apply has_shape_repeat.
Defined.

End CropReplaceMoreWitnesses.

(** ** What the extraction reads *)

Module ExtractionFacts.
Import Num Np Lab04 Heap Embedder CorrelationFacts BlockFacts HeapFacts
  EmbedFacts TrialFacts.
Local Open Scope R_scope.

(** Dividing by a unit phasor does not change the magnitude. *)
Lemma Cabs_Cdiv_Cexp_i (z : C) (t : R) :
  Cabs (Cdiv z (Cexp_i t)) = Cabs z.
Proof.
  destruct z as [x y]. unfold Cabs, Cdiv, Cexp_i. cbn [fst snd].
  pose proof (sin2_cos2 t) as Hsc. unfold Rsqr in Hsc.
  assert (Hd : cos t ^ 2 + sin t ^ 2 = 1) by lra.
  rewrite Hd. f_equal. unfold Rdiv. rewrite Rinv_1, !Rmult_1_r.
  replace ((x * cos t + y * sin t) ^ 2 + (y * cos t - x * sin t) ^ 2)
    with ((x ^ 2 + y ^ 2) * (cos t ^ 2 + sin t ^ 2)) by ring.
  rewrite Hd. ring.
Qed.

Lemma unphase_row (zs : list C) (ts : list R) :
  length zs = length ts ->
  map Cabs (zip_with Cdiv zs (map Cexp_i ts)) = map Cabs zs.
Proof.
  revert ts; induction zs as [|z zs IH]; intros [|t ts] Hlen;
    try discriminate Hlen; [done|].
  cbn [map zip_with]. rewrite Cabs_Cdiv_Cexp_i. f_equal.
  apply IH. by injection Hlen.
Qed.

Lemma unphase_matrix (h w : nat) (spec : matrix C) (ph : matrix R) :
  has_shape h w spec -> has_shape h w ph ->
  map (map Cabs) (zip_with (zip_with Cdiv) spec (map (map Cexp_i) ph))
  = map (map Cabs) spec.
Proof.
  intros [Hs Hsw] [Hp Hpw].
  pose proof (Forall2_same_width w spec ph ltac:(lia) Hsw Hpw) as Hrows.
  clear -Hrows. induction Hrows as [|row prow m ph Hrow _ IH]; [done|].
  cbn [map zip_with]. by rewrite unphase_row, IH.
Qed.

Lemma divide_by_ALPHA (m : matrix R) :
  map (map (fun x => x / ALPHA)) m = m.
Proof.
  induction m as [|row m IH]; [done|]. cbn [map]. rewrite IH. f_equal.
  induction row as [|x row IHrow]; [done|]. cbn [map]. rewrite IHrow.
  f_equal. unfold ALPHA. field.
Qed.

(** The extraction, with the phase divided out and [ALPHA = 1]. *)
Lemma extract_cvz_magnitudes (lib : externals)
    (phase_array original_abs_spectrum candidate : matrix R) (h w : nat) :
  has_shape h w (fft2 lib candidate) -> has_shape h w phase_array ->
  extract_cvz lib phase_array original_abs_spectrum candidate
  = zip2 Rminus
      (slice2 128 384 128 384 (map (map Cabs) (fft2 lib candidate)))
      (slice2 128 384 128 384 original_abs_spectrum).
Proof.
  intros Hspec Hph. unfold extract_cvz. cbv zeta.
  rewrite (zip2_same_shape _ h w) by (done || by apply has_shape_map).
  cbn [mbind result_bind]. rewrite (unphase_matrix h w) by done.
  destruct (zip2 Rminus _ _) as [diff|e]; [|done].
  cbn [mbind result_bind]. by rewrite divide_by_ALPHA.
Qed.

End ExtractionFacts.

Section Extraction.
Import Num Np Lab04 Heap Embedder CorrelationFacts BlockFacts HeapFacts
  EmbedFacts TrialFacts ExtractionFacts.
Local Open Scope R_scope.



End Extraction.

(** ** What the search over strengths can return *)

Module SearchMoreFacts.
Import Num Np Lab04 Heap Embedder CorrelationFacts BlockFacts HeapFacts
  EmbedFacts TrialFacts.
Local Open Scope R_scope.

(** A trial, run: its value is a pure function of the library, the
    watermark and the image; the loop variable and the incoming heap only
    show in the heap that comes out. *)
Lemma alpha_trial_run (lib : externals) (CVZ : matrix R) (image : matrix Z)
    (alpha : Z) (h w : nat) (hp : heap) :
  (384 <= h)%nat -> (384 <= w)%nat ->
  has_shape h w (fft2 lib (as_float image)) -> has_shape 256 256 CVZ ->
  let spec := fft2 lib (as_float image) in
  let ms := zip_with (zip_with Cscale)
              (embedded_magnitude lib ALPHA CVZ (as_float image))
              (map (map Cexp_i) (map (map (phase lib)) spec)) in
  let reverse := save_and_reload lib (map (map Cabs) (ifft2 lib ms)) in
  (alpha_trial lib CVZ image alpha hp).1
  = (p ← extract_and_correlate lib CVZ (map (map (phase lib)) spec)
           (map (map Cabs) spec) (as_float reverse);
     if (process_threshold p =? 0)%Z then Ok (p, None)
     else new_psnr ← calculate_psnr_alternative image reverse;
          Ok (p, Some new_psnr)).
Proof.
  intros Hh Hw Hspec Hcvz spec ms reverse.
  unfold alpha_trial. cbv zeta.
  pose proof (embed_run lib ALPHA CVZ (as_float image) h w hp
                Hh Hw Hspec Hcvz) as Hrun.
  cbv zeta in Hrun.
  unfold mbind at 1. unfold prog_bind, bind. rewrite Hrun.
  cbn [phase_array original_abs_spectrum reverse_array].
  erewrite run_load; [|heap_lookup].
  erewrite run_load; [|heap_lookup].
  rewrite run_lift_any. fold spec. fold ms. fold reverse.
  destruct (extract_and_correlate _ _ _ _ _) as [p|e]; [|done].
  cbn [mbind result_bind].
  destruct (process_threshold p =? 0)%Z; [done|].
  rewrite run_lift_any.
  by destruct (calculate_psnr_alternative _ _).
Qed.

(** Seeing the same trial value again changes nothing. *)
Lemma update_best_again (a a0 : Z) (t : npfloat * option npfloat)
    (best : Z * npfloat * npfloat) :
  update_best a t (update_best a0 t best) = update_best a0 t best.
Proof.
  destruct best as [[b s] q], t as [p [n|]]; cbn; [|done].
  destruct (np_gt n s) eqn:Hgt; cbn; [by rewrite np_gt_irrefl|].
  by rewrite Hgt.
Qed.

(** A loop over trials of one value keeps what the first pass made. *)
Lemma search_constant_trial (trial : Z -> prog (npfloat * option npfloat))
    (r : result (npfloat * option npfloat)) (a0 : Z) (rest : list Z)
    (best : Z * npfloat * npfloat) (hp : heap) :
  (forall alpha hp0, (trial alpha hp0).1 = r) ->
  (search trial (a0 :: rest) best hp).1
  = (t ← r; Ok (update_best a0 t best)).
Proof.
  intros Hr. rewrite search_cons.
  pose proof (Hr a0 hp) as H0.
  destruct (trial a0 hp) as [[t|e] hp1]; cbn [fst] in H0; subst r; [|done].
  cbn [mbind result_bind].
  assert (Hrest : forall l b hp0,
            update_best a0 t b = b ->
            (forall a, update_best a t b = b) ->
            (search trial l b hp0).1 = Ok b).
  { induction l as [|a l IH]; intros b hp0 Hb Hall; [done|].
    rewrite search_cons. pose proof (Hr a hp0) as Ha.
    destruct (trial a hp0) as [[t'|e'] hp2]; cbn [fst] in Ha;
      [|discriminate Ha].
    injection Ha as ->. rewrite Hall. by apply IH. }
  apply Hrest; [apply update_best_again|].
  intros a. apply update_best_again.
Qed.

End SearchMoreFacts.

Section AlphaSearchMore.
Import Num Np Lab04 Heap Embedder BlockFacts HeapFacts EmbedFacts TrialFacts
  SearchMoreFacts.
Local Open Scope R_scope.

(** X14: on shapes that fit, every pass of the loop of [select_best_alpha]
    computes the same value, whatever the grid point and the heap it starts
    from; so the function returns what the first pass (grid point 1) made of
    the initial triple, or fails as that pass fails, and the strength it
    returns is 0 or 1, never a later grid point. *)
Theorem select_best_alpha_first_pass_decides (lib : externals)
    (CVZ : matrix R) (image : matrix Z) (h w : nat) (hp : heap) :
  (384 <= h)%nat -> (384 <= w)%nat ->
  has_shape h w (fft2 lib (as_float image)) -> has_shape 256 256 CVZ ->
  (forall alpha hp0,
     (alpha_trial lib CVZ image alpha hp0).1
     = (alpha_trial lib CVZ image 1 hp).1)
  /\ (select_best_alpha lib CVZ image hp).1
     = (t ← (alpha_trial lib CVZ image 1 hp).1;
        Ok (update_best 1 t (0%Z, Finite 0, Finite 0)))
  /\ forall b, (select_best_alpha lib CVZ image hp).1 = Ok b ->
               best_alpha_of b = 0%Z \/ best_alpha_of b = 1%Z.
Proof.
  intros Hh Hw Hspec Hcvz.
  assert (Hsame : forall alpha hp0,
            (alpha_trial lib CVZ image alpha hp0).1
            = (alpha_trial lib CVZ image 1 hp).1).
  { intros alpha hp0.
    rewrite (alpha_trial_run lib CVZ image alpha h w hp0) by done.
    by rewrite (alpha_trial_run lib CVZ image 1 h w hp) by done. }
  assert (Hsel : (select_best_alpha lib CVZ image hp).1
                 = (t ← (alpha_trial lib CVZ image 1 hp).1;
                    Ok (update_best 1 t (0%Z, Finite 0, Finite 0)))).
  { unfold select_best_alpha.
    change (py_range 1 1001 100)
      with [1; 101; 201; 301; 401; 501; 601; 701; 801; 901]%Z.
    by apply search_constant_trial. }
  split; [exact Hsame|]. split; [exact Hsel|].
  intros b Hb. rewrite Hsel in Hb.
  destruct (alpha_trial lib CVZ image 1 hp).1 as [t|e]; [|discriminate Hb].
  assert (Hb' : b = update_best 1 t (0%Z, Finite 0, Finite 0))
    by (symmetry; exact (f_equal (fun r => match r with
                                           | Ok x => x
                                           | Raise _ => b
                                           end) Hb)).
  rewrite Hb'.
  destruct (update_best_alpha 1 t (0%Z, Finite 0, Finite 0)) as [Hu|Hu].
  - left. by rewrite Hu.
  - by right.
Qed.

Lemma select_best_alpha_first_pass_decides_witness :
  let lib := toy_lib in
  let CVZ := flat_watermark 1 in
  let image := flat_image 128 in
  (forall alpha hp0,
     (alpha_trial lib CVZ image alpha hp0).1
     = (alpha_trial lib CVZ image 1 Heap.empty).1)
  /\ (select_best_alpha lib CVZ image Heap.empty).1
     = (t ← (alpha_trial lib CVZ image 1 Heap.empty).1;
        Ok (update_best 1 t (0%Z, Finite 0, Finite 0)))
  /\ forall b, (select_best_alpha lib CVZ image Heap.empty).1 = Ok b ->
               best_alpha_of b = 0%Z \/ best_alpha_of b = 1%Z.
Proof.
  intros lib CVZ image.
  apply (select_best_alpha_first_pass_decides lib CVZ image 512 512
           Heap.empty).
  - lia.
  - lia.
  - apply has_shape_map, has_shape_map, AttackFacts.has_shape_repeat.
  - apply AttackFacts.has_shape_repeat.
Defined.

End AlphaSearchMore.

(** ** The sweep over crop proportions and the other attacks *)

Module SweepFacts.
Import Num Np Lab04 Embedder Attack Attacks CorrelationFacts SliceFacts
  AttackFacts BlockFacts TrialFacts CutMoreFacts ExtractionFacts.
Local Open Scope R_scope.

(** On shapes that fit no step of the scoring raises. *)
Lemma extract_and_correlate_ok (lib : externals)
    (CVZ phase_array original_abs_spectrum candidate : matrix R)
    (h w : nat) :
  (384 <= h)%nat -> (384 <= w)%nat ->
  has_shape h w (fft2 lib candidate) ->
  has_shape h w phase_array -> has_shape h w original_abs_spectrum ->
  has_shape 256 256 CVZ ->
  exists p,
    extract_and_correlate lib CVZ phase_array original_abs_spectrum candidate
    = Ok p.
Proof.
  intros Hh Hw Hspec Hph Horig Hcvz.
  destruct (extract_cvz_ok lib phase_array original_abs_spectrum candidate
              h w Hh Hw Hspec Hph Horig) as (incl & Hincl & Hshape).
  unfold extract_and_correlate. rewrite Hincl. cbn [mbind result_bind].
  rewrite calculate_proximity_eq; [by eexists| |].
  - rewrite (has_shape_flatten_length 256 256 CVZ Hcvz).
    by rewrite (has_shape_flatten_length 256 256 incl Hshape).
  - intros Hnil.
    pose proof (has_shape_flatten_length 256 256 CVZ Hcvz) as Hlen.
    rewrite Hnil in Hlen. cbn [length] in Hlen. lia.
Qed.

Lemma apply_cut_ok (lib : externals) (p : Q) (g : globals) (h w : nat) :
  shape_preserving lib ->
  (384 <= h)%nat -> (384 <= w)%nat ->
  has_shape h w (reverse_array g) -> has_shape h w (image_array g) ->
  has_shape h w (phase_array g) -> has_shape h w (original_abs_spectrum g) ->
  has_shape 256 256 (CVZ g) ->
  exists s, (apply_cut_and_calculate_proximity lib p g).1 = Ok s.
Proof.
  intros (Hfft & _ & _) Hh Hw Hrev Himg Hph Horig Hcvz.
  rewrite (apply_cut_run lib p g h w) by done. cbn [fst].
  apply (extract_and_correlate_ok _ _ _ _ _ h w); try done.
  by apply Hfft, has_shape_map, cut_replace_shape.
Qed.

Lemma last_cons {A} (x d : A) (l : list A) :
  List.last (x :: l) d = List.last l x.
Proof.
  revert x d; induction l as [|y l IH]; intros x d; [done|].
  change (List.last (x :: y :: l) d) with (List.last (y :: l) d).
  by rewrite !IH.
Qed.

(** The loop, started after a call at [p0], on proportions from [p0] up. *)
Lemma cut_loop_from (lib : externals) (g : globals) (h w : nat)
    (params : list Q) (p0 : Q) (acc : list npfloat) :
  has_shape h w (reverse_array g) -> has_shape h w (image_array g) ->
  (0 <= p0)%Q -> Forall (Qle p0) params -> StronglySorted Qle params ->
  (cut_loop lib params acc (apply_cut_and_calculate_proximity lib p0 g).2).1
  = (l ← mapM (fun q => (apply_cut_and_calculate_proximity lib q g).1) params;
     Ok (acc ++ l))
  /\ (forall scores,
        (cut_loop lib params acc
           (apply_cut_and_calculate_proximity lib p0 g).2).1 = Ok scores ->
        reverse_array
          (cut_loop lib params acc
             (apply_cut_and_calculate_proximity lib p0 g).2).2
        = after_cut (List.last params p0) (reverse_array g) (image_array g)).
Proof.
  intros Hrev Himg. revert p0 acc.
  induction params as [|p rest IH]; intros p0 acc H0 Hge Hsorted.
  - cbn [cut_loop mapM fst snd List.last]. cbn [mbind result_bind mret result_ret].
    rewrite app_nil_r. split; [done|]. intros _ _.
    apply apply_cut_reverse_array.
  - inversion Hge as [|? ? Hp0p Hge']; subst.
    inversion Hsorted as [|? ? Hsorted' Hrest]; subst.
    cbn [cut_loop mapM].
    rewrite (apply_cut_ascending lib p0 p g h w) by done.
    assert (Hp : (0 <= p)%Q) by (by apply (Qle_trans _ p0)).
    destruct (apply_cut_and_calculate_proximity lib p g) as [[s|e] g1] eqn:Hrun.
    + cbn [fst mbind result_bind].
      assert (Hg1 : g1 = (apply_cut_and_calculate_proximity lib p g).2)
        by (by rewrite Hrun).
      rewrite Hg1.
      destruct (IH p (acc ++ [s]) Hp Hrest Hsorted') as [Hscores Hfinal].
      split.
      * rewrite Hscores.
        destruct (mapM _ rest) as [l|e]; [|done].
        cbn [mbind result_bind mret result_ret]. by rewrite <- app_assoc.
      * intros scores Hs. rewrite (Hfinal scores Hs).
        by rewrite last_cons.
    + cbn [fst snd mbind result_bind]. split; [done|]. by intros scores.
Qed.

Lemma sorted_from_head (p : Q) (rest : list Q) :
  StronglySorted Qle (p :: rest) ->
  Forall (Qle p) rest /\ StronglySorted Qle rest.
Proof. intros H. by inversion H; subst. Qed.

Lemma length_mapM_ok {A B} (f : A -> result B) (l : list A) (k : list B) :
  mapM f l = Ok k -> length k = length l.
Proof.
  revert k; induction l as [|x l IH]; intros k; cbn [mapM].
  - by intros [= <-].
  - destruct (f x) as [y|e]; [|done]. cbn [mbind result_bind].
    destruct (mapM f l) as [k'|e]; [|done].
    cbn [mbind result_bind mret result_ret]. intros [= <-].
    cbn [length]. f_equal. by apply IH.
Qed.

Lemma mapM_all_ok {A B} (f : A -> result B) (l : list A) :
  (forall x, exists y, f x = Ok y) -> exists k, mapM f l = Ok k.
Proof.
  intros Hf. induction l as [|x l [k Hk]]; [by exists []|].
  destruct (Hf x) as [y Hy]. exists (y :: k).
  cbn [mapM]. by rewrite Hy, Hk.
Qed.



Lemma sum_repeat (x : R) (n : nat) :
  fold_left Rplus (repeat x n) 0 = INR n * x.
Proof.
  induction n as [|n IH]; [cbn; lra|].
  cbn [repeat]. cbn [fold_left]. rewrite fold_left_Rplus_acc, IH, S_INR. lra.
Qed.

Lemma flatten_repeat {A} (x : A) (h w : nat) :
  flatten (repeat (repeat x w) h) = repeat x (h * w).
Proof.
  unfold flatten. induction h as [|h IH]; [done|].
  cbn [repeat concat Nat.mul]. by rewrite IH, repeat_app.
Qed.

End SweepFacts.

Section Sweeps.
Import Num Np Lab04 Embedder Attack Attacks CorrelationFacts SliceFacts
  AttackFacts BlockFacts TrialFacts CutMoreFacts ExtractionFacts SweepFacts.
Local Open Scope R_scope.

(** X15: the loop over crop proportions, on shapes that fit and for any
    ascending list of non-negative proportions (as the script's
    0.55, 0.70, ..., 1.30): it returns one score per proportion, each the
    score the call would give on the untouched watermarked array, although
    every call writes into the stored array; and when the last proportion
    is at least 1 the stored array ends as the original image. *)
Theorem cut_sweep_scores (lib : externals) (g : globals) (h w : nat)
    (params : list Q) :
  shape_preserving lib ->
  (384 <= h)%nat -> (384 <= w)%nat -> (w <= h)%nat ->
  has_shape h w (reverse_array g) -> has_shape h w (image_array g) ->
  has_shape h w (phase_array g) -> has_shape h w (original_abs_spectrum g) ->
  has_shape 256 256 (CVZ g) ->
  Forall (Qle 0) params -> StronglySorted Qle params ->
  exists scores,
    (cut_loop lib params [] g).1 = Ok scores
    /\ mapM (fun q => (apply_cut_and_calculate_proximity lib q g).1) params
       = Ok scores
    /\ length scores = length params
    /\ ((1 <= List.last params 0)%Q ->
        reverse_array (cut_loop lib params [] g).2 = image_array g).
Proof.
  intros Hlib Hh Hw Hwh Hrev Himg Hph Horig Hcvz Hpos Hsorted.
  destruct (mapM_all_ok
              (fun q => (apply_cut_and_calculate_proximity lib q g).1) params)
    as [scores Hscores].
  { intros q. by apply (apply_cut_ok lib q g h w). }
  exists scores.
  assert (Hloop : (cut_loop lib params [] g).1 = Ok scores
                  /\ ((1 <= List.last params 0)%Q ->
                      reverse_array (cut_loop lib params [] g).2
                      = image_array g)).
  { destruct params as [|p rest].
    - cbn [mapM mret result_ret] in Hscores. cbn [cut_loop fst snd List.last].
      split; [done|]. intros H1. exfalso. revert H1. vm_compute. tauto.
    - inversion Hpos as [|? ? Hp Hpos']; subst.
      destruct (sorted_from_head p rest Hsorted) as [Hge Hsorted'].
      cbn [cut_loop app]. cbn [mapM] in Hscores.
      destruct (apply_cut_and_calculate_proximity lib p g) as [[s|e] g1]
        eqn:Hrun; [|done].
      cbn [fst mbind result_bind] in Hscores.
      assert (Hg1 : g1 = (apply_cut_and_calculate_proximity lib p g).2)
        by (by rewrite Hrun).
      rewrite Hg1.
      destruct (cut_loop_from lib g h w rest p [s] Hrev Himg Hp Hge Hsorted')
        as [Hs Hfinal].
      destruct (mapM _ rest) as [l|e] eqn:Hrest; [|done].
      cbn [mbind result_bind mret result_ret] in Hscores, Hs.
      cbn [app] in Hs.
      split; [by rewrite Hs|].
      intros H1. rewrite (Hfinal _ Hs).
      rewrite last_cons in H1.
      by apply (after_cut_whole _ _ _ h w). }
  destruct Hloop as [Hl Hfinal].
  split; [exact Hl|]. split; [exact Hscores|].
  split; [by apply length_mapM_ok in Hscores|exact Hfinal].
Qed.

Lemma cut_sweep_scores_witness :
  let g := {| CVZ := flat_watermark 1; image_array := carrier0;
              phase_array := repeat (repeat 0 512) 512;
              original_abs_spectrum := repeat (repeat 0 512) 512;
              reverse_array := watermarked0 |} in
  let params := [55 # 100; 70 # 100; 85 # 100; 1; 115 # 100; 130 # 100]%Q in
  exists scores,
    (cut_loop toy_lib params [] g).1 = Ok scores
    /\ mapM (fun q => (apply_cut_and_calculate_proximity toy_lib q g).1)
         params
       = Ok scores
    /\ length scores = length params
    /\ ((1 <= List.last params 0)%Q ->
        reverse_array (cut_loop toy_lib params [] g).2 = image_array g).
Proof.
  intros g params.
  apply (cut_sweep_scores toy_lib g 512 512 params).
  - apply toy_lib_shape_preserving.
  - lia.
  - lia.
  - lia.
  - apply has_shape_repeat.
  - apply has_shape_repeat.
  - apply has_shape_repeat.
  - apply has_shape_repeat.
  - apply has_shape_repeat.
  - repeat (constructor; [vm_compute; discriminate|]). constructor.
  - repeat (constructor;
            [|repeat (constructor; [vm_compute; discriminate|]);
              constructor]).
    constructor.
Defined.





End Sweeps.

(** ** Images without pixels *)

Section PsnrEmpty.
Import Num Np Lab04 More CorrelationFacts PsnrFacts BlockFacts PsnrMoreFacts.
Local Open Scope R_scope.

(** X18: on two arrays of one shape that hold no element (no rows, or rows
    of width 0) the mean of the squared differences is nan; neither function
    raises, and neither returns its value for identical images (100, +inf):
    both return nan. *)
Theorem psnr_of_empty_images `{DType A} (a b : matrix A) :
  Forall2 (fun x y => length x = length y) a b ->
  flatten a = [] ->
  calculate_psnr a b = Ok NaN /\ calculate_psnr_alternative a b = Ok NaN.
Proof.
  intros Hrows Hempty.
  unfold calculate_psnr, calculate_psnr_alternative.
  change (sub2 a b) with (zip2 dt_sub a b).
  rewrite zip2_rows by done. cbn [mbind result_bind].
  rewrite mean_squared_differences.
  pose proof (squared_differences_length a b Hrows) as Hlen.
  rewrite Hempty in Hlen. cbn [length] in Hlen.
  destruct (squared_differences a b) as [|x l]; [|discriminate Hlen].
  cbn [fold_right length INR]. rewrite np_div_zero_zero.
  split; reflexivity.
Qed.

Lemma psnr_of_empty_images_witness :
  calculate_psnr (A := Z) [[]; []] [[]; []] = Ok NaN
  /\ calculate_psnr_alternative (A := Z) [[]; []] [[]; []] = Ok NaN.
Proof.
  apply psnr_of_empty_images; [repeat constructor|reflexivity].
Defined.

End PsnrEmpty.

(** ** Runs on the stand-in library *)

Module StandInFacts.
Import Num Np Random Lab04 Heap Embedder CorrelationFacts PsnrFacts DecoyFacts
  SliceFacts AttackFacts BlockFacts HeapFacts EmbedFacts TrialFacts
  PsnrMoreFacts DecoyMoreFacts ExtractionFacts SearchMoreFacts SweepFacts.
Import More.
Local Open Scope R_scope.

Lemma take_repeat {A} (x : A) (n m : nat) :
  take n (repeat x m) = repeat x (n `min` m).
Proof.
  revert m; induction n as [|n IH]; intros [|m]; try done.
  cbn [repeat take Nat.min]. by rewrite IH.
Qed.

Lemma drop_repeat {A} (x : A) (n m : nat) :
  drop n (repeat x m) = repeat x (m - n).
Proof.
  revert m; induction n as [|n IH]; intros [|m]; try done.
  cbn [repeat drop Nat.sub]. by rewrite IH.
Qed.

Lemma zip_with_repeat {A B D} (f : A -> B -> D) (x : A) (y : B) (n : nat) :
  zip_with f (repeat x n) (repeat y n) = repeat (f x y) n.
Proof. induction n as [|n IH]; [done|]. cbn [repeat zip_with]. by rewrite IH. Qed.

Lemma map_const_shape {A B} (c : B) (h w : nat) (m : matrix A) :
  has_shape h w m -> map (map (fun _ => c)) m = repeat (repeat c w) h.
Proof.
  intros [Hh Hw]. subst h.
  induction Hw as [|row m Hrow _ IH]; [done|].
  cbn [map length repeat]. rewrite IH. f_equal.
  subst w. clear. induction row as [|x row IH]; [done|].
  cbn [map length repeat]. by rewrite IH.
Qed.

(** Rows and columns 128 to 383 of a constant array. *)
Lemma slice2_block_repeat {A} (x : A) (h w : nat) :
  (384 <= h)%nat -> (384 <= w)%nat ->
  slice2 128 384 128 384 (repeat (repeat x w) h) = repeat (repeat x 256) 256.
Proof.
  intros Hh Hw.
  rewrite (slice2_block h w) by (done || apply has_shape_repeat).
  rewrite drop_repeat, take_repeat, map_repeat, drop_repeat, take_repeat.
  replace (256 `min` (h - 128))%nat with 256%nat by lia.
  by replace (256 `min` (w - 128))%nat with 256%nat by lia.
Qed.

Lemma map_seq_const {A} (f : nat -> A) (v : A) (c n : nat) :
  (forall k, (c <= k < c + n)%nat -> f k = v) ->
  map f (seq c n) = repeat v n.
Proof.
  revert c; induction n as [|n IH]; intros c Hf; [done|].
  cbn [seq map repeat]. rewrite Hf by lia. f_equal.
  apply IH. intros k Hk. apply Hf. lia.
Qed.

Lemma mapM_repeat {A B} (f : A -> result B) (x : A) (y : B) (n : nat) :
  f x = Ok y -> mapM f (repeat x n) = Ok (repeat y n).
Proof.
  intros Hf. induction n as [|n IH]; [done|].
  cbn [repeat mapM]. by rewrite Hf, IH.
Qed.

Lemma repeat_inj {A} (x y : A) (n : nat) :
  n <> 0%nat -> repeat x n = repeat y n -> x = y.
Proof. destruct n as [|n]; [done|]. intros _ H. by injection H. Qed.

Lemma Forall2_repeat {A B} (P : A -> B -> Prop) (x : A) (y : B) (n : nat) :
  P x y -> Forall2 P (repeat x n) (repeat y n).
Proof. intros H. induction n; cbn [repeat]; by constructor. Qed.

Lemma Cabs_of_real (x : R) : 0 <= x -> Cabs (x, 0) = x.
Proof.
  intros Hx. unfold Cabs. cbn [fst snd].
  replace (x ^ 2 + 0 ^ 2) with (Rsqr x) by (unfold Rsqr; ring).
  by apply sqrt_Rsqr.
Qed.

Lemma dot_repeat (a b : R) (n : nat) :
  dot (repeat a n) (repeat b n) = INR n * (a * b).
Proof. unfold dot. by rewrite zip_with_repeat, sum_repeat. Qed.

Lemma sumsq_repeat (a : R) (n : nat) :
  sumsq (repeat a n) = INR n * (a * a).
Proof.
  rewrite <- dot_self. apply dot_repeat.
Qed.

Lemma repeat_not_zero (a : R) (n : nat) :
  n <> 0%nat -> a <> 0 -> ~ is_zero_vector (repeat a n).
Proof.
  destruct n as [|n]; [done|]. intros _ Ha H.
  cbn [repeat] in H. by inversion H.
Qed.

(** Two constant vectors of one length are parallel: their correlation is
    the sign of the product of their entries. *)
Lemma proximity_of_constants (a b : R) (n : nat) :
  n <> 0%nat -> a * b <> 0 ->
  calculate_proximity (repeat a n) (repeat b n)
  = Ok (Finite (if Rlt_dec 0 (a * b) then 1 else -1)).
Proof.
  intros Hn Hab.
  assert (Ha : a <> 0) by (intros ->; lra).
  assert (Hb : b <> 0) by (intros ->; lra).
  rewrite calculate_proximity_nonzero
    by (rewrite ?repeat_length; try done; by apply repeat_not_zero).
  rewrite dot_repeat, !sumsq_repeat.
  assert (HN : 0 < INR n) by (apply lt_0_INR; lia).
  rewrite <- sqrt_mult by nra.
  replace (INR n * (a * a) * (INR n * (b * b)))
    with (Rsqr (INR n * (a * b))) by (unfold Rsqr; ring).
  rewrite sqrt_Rsqr_abs. do 2 f_equal.
  destruct (Rlt_dec 0 (a * b)) as [Hpos|Hneg].
  - rewrite Rabs_pos_eq by nra. field. nra.
  - rewrite <- Rabs_Ropp, Rabs_pos_eq by nra. field. nra.
Qed.

(** The stand-in codec stores zeros, so on a 512x512 image of grey level 128
    the extraction returns minus the original magnitude everywhere,
    whatever was embedded. *)
Lemma toy_extract_cvz (X : matrix R) :
  has_shape 512 512 X ->
  let spec := fft2 toy_lib (as_float (flat_image 128)) in
  extract_cvz toy_lib (map (map (phase toy_lib)) spec) (map (map Cabs) spec)
    (as_float (save_and_reload toy_lib X))
  = Ok (repeat (repeat (0 - 128) 256) 256).
Proof.
  intros HX spec.
  assert (Hcand : has_shape 512 512
            (fft2 toy_lib (as_float (save_and_reload toy_lib X)))).
  { cbn [fft2 save_and_reload toy_lib]. by do 3 apply has_shape_map. }
  assert (Hspec : has_shape 512 512 spec).
  { unfold spec. cbn [fft2 toy_lib]. apply has_shape_map, has_shape_map.
    apply has_shape_repeat. }
  rewrite (extract_cvz_magnitudes _ _ _ _ 512 512)
    by (done || by apply has_shape_map).
  unfold spec. cbn [fft2 save_and_reload toy_lib].
  rewrite (map_const_shape 0%Z 512 512 X HX).
  unfold as_float, flat_image. rewrite !map_repeat.
  rewrite !slice2_block_repeat by lia.
  rewrite (zip2_same_shape _ 256 256) by apply has_shape_repeat.
  rewrite !zip_with_repeat, !Cabs_of_real by (apply IZR_le; lia).
  reflexivity.
Qed.

(** On uint8 arrays whose differences are all multiples of 16 the mean is 0
    and the alternative PSNR is +inf. *)
Lemma psnr_alternative_wrapped (a b : matrix Z) :
  Forall2 (Forall2 (fun x y => ((x - y) mod 16 = 0)%Z)) a b ->
  flatten a <> [] ->
  calculate_psnr_alternative a b = Ok PInf.
Proof.
  intros H16 Hne.
  assert (Hrows : Forall2 (fun x y : list Z => length x = length y) a b).
  { eapply Forall2_impl; [exact H16|]. intros x y Hxy.
    by apply Forall2_length in Hxy. }
  unfold calculate_psnr_alternative.
  change (sub2 a b) with (zip2 dt_sub a b).
  rewrite zip2_rows by done. cbn [mbind result_bind].
  rewrite mean_squared_differences.
  rewrite (sum_zero _ (squared_differences_multiples_of_16 a b H16)).
  rewrite squared_differences_length by done.
  pose proof (INR_length_pos _ Hne) as Hn.
  rewrite np_div_finite by lra.
  replace (0 / INR (length (flatten a))) with 0 by (unfold Rdiv; lra).
  unfold np_div_by, np_div.
  destruct (Req_dec_T 0 0); [|done].
  destruct (Req_dec_T _ 0); [lra|].
  destruct (Rlt_dec 0 _); [done|lra].
Qed.

End StandInFacts.

(** ** The false-positive analysis *)

Module StageFacts.
Import Num Np Random Lab04 Heap Embedder CorrelationFacts PsnrFacts DecoyFacts
  SliceFacts AttackFacts BlockFacts HeapFacts EmbedFacts TrialFacts
  DecoyMoreFacts ExtractionFacts SweepFacts StandInFacts.
Local Open Scope R_scope.

(** The decoys of the stage, each its own block of the sample sequence,
    after the block the watermark was drawn from. *)
Lemma stage_decoys_blocks (g : rng) :
  false_detection_cvz (run_false_positive_stage g)
  = map (fun k => map (samples g)
                    (seq (cursor g + Z.to_nat 65536 + k * Z.to_nat 65536)
                         (Z.to_nat 65536)))
        (seq 0 (Z.to_nat 100)).
Proof.
  rewrite stage_decoys. unfold generate_false_detection_vectors.
  rewrite draw_vectors_blocks. cbn [fst app].
  unfold normal2. cbn [snd samples cursor advance].
  by rewrite watermark_size.
Qed.

Lemma stage_CVZ_samples (g : rng) :
  flatten (CVZ (run_false_positive_stage g))
  = map (samples g) (seq (cursor g) (Z.to_nat 65536)).
Proof.
  rewrite stage_CVZ, normal2_flatten. by rewrite watermark_size.
Qed.

(** A generator that is constant over the watermark's block gives a
    constant watermark; one that is constant after it gives constant
    decoys. *)
Lemma stage_CVZ_const (g : rng) (v : R) :
  (forall k, (cursor g <= k < cursor g + Z.to_nat 65536)%nat ->
             samples g k = v) ->
  CVZ (run_false_positive_stage g) = repeat (repeat v 256) 256.
Proof.
  intros Hv. rewrite stage_CVZ. unfold normal2. cbn [fst].
  change (Z.to_nat 256) with 256%nat.
  apply map_seq_const. intros i Hi.
  apply map_seq_const. intros k Hk. apply Hv. lia.
Qed.

Lemma stage_decoys_const (g : rng) (v : R) :
  (forall k, (cursor g + Z.to_nat 65536 <= k)%nat -> samples g k = v) ->
  false_detection_cvz (run_false_positive_stage g)
  = repeat (repeat v (Z.to_nat 65536)) (Z.to_nat 100).
Proof.
  intros Hv. rewrite stage_decoys_blocks.
  apply map_seq_const. intros i Hi.
  apply map_seq_const. intros k Hk. apply Hv. lia.
Qed.

(** Embedding into the 512x512 image of grey level 128 with the stand-in
    library, then extracting from what its codec stored. *)
Lemma toy_embed_extract (CVZ : matrix R) (hp : heap) :
  has_shape 256 256 CVZ ->
  exists e hp' ph orig,
    embed toy_lib ALPHA CVZ (as_float (flat_image 128)) hp = (Ok e, hp')
    /\ cells hp' !! phase_array e = Some ph
    /\ cells hp' !! original_abs_spectrum e = Some orig
    /\ extract_cvz toy_lib ph orig
         (as_float (save_and_reload toy_lib (reverse_array e)))
       = Ok (repeat (repeat (0 - 128) 256) 256).
Proof.
  intros Hcvz.
  assert (Hspec : has_shape 512 512
                    (fft2 toy_lib (as_float (flat_image 128)))).
  { cbn [fft2 toy_lib]. apply has_shape_map, has_shape_map.
    apply has_shape_repeat. }
  pose proof (embed_run toy_lib ALPHA CVZ (as_float (flat_image 128))
                512 512 hp ltac:(lia) ltac:(lia) Hspec Hcvz) as Hrun.
  cbv zeta in Hrun.
  eexists _, _, _, _. split; [exact Hrun|].
  cbn [phase_array original_abs_spectrum reverse_array cells].
  split; [heap_lookup|]. split; [heap_lookup|].
  apply toy_extract_cvz.
  cbn [ifft2 toy_lib]. apply has_shape_map, has_shape_zip_with.
  - apply has_shape_with_block; [lia|lia|by apply has_shape_map|].
    apply has_shape_zip_with; [|by apply has_shape_map].
    apply (has_shape_slice2_block 512 512); [lia|lia|].
    by apply has_shape_map.
  - by apply has_shape_map, has_shape_map.
Qed.

End StageFacts.

Section FalsePositive.
Import Num Np Random Lab04 Heap Embedder CorrelationFacts PsnrFacts DecoyFacts
  AttackFacts DecoyMoreFacts SweepFacts StandInFacts StageFacts.
Local Open Scope R_scope.

(** C2, as the code has it: the stage draws exactly 100 decoys of length
    65536, independently of each other and of the watermark (decoy number
    [k] is its own draw: the block of 65536 samples that starts
    [65536 + k * 65536] samples after the generator's position, the
    watermark being the first 65536), and returns one score per decoy; each
    score is the correlation of the decoy with the flattened reference
    watermark [CVZ] of line 16, not with a watermark extracted from an
    image. *)
Theorem false_positive_scores (g : rng) :
  let st := run_false_positive_stage g in
  length (false_detection_cvz st) = 100%nat
  /\ Forall (fun v => length v = Z.to_nat 65536) (false_detection_cvz st)
  /\ flatten (CVZ st) = map (samples g) (seq (cursor g) (Z.to_nat 65536))
  /\ false_detection_cvz st
     = map (fun k => map (samples g)
                       (seq (cursor g + Z.to_nat 65536 + k * Z.to_nat 65536)
                            (Z.to_nat 65536)))
           (seq 0 (Z.to_nat 100))
  /\ false_detection_proximity_array st
     = scores_against (flatten (CVZ st)) (false_detection_cvz st)
  /\ exists scores,
       false_detection_proximity_array st = Ok scores
       /\ length scores = 100%nat.
Proof.
  intros st. unfold st.
  split; [|split; [|split; [exact (stage_CVZ_samples g)|
                            split; [exact (stage_decoys_blocks g)|]]]].
  - rewrite stage_decoys.
    by destruct (generate_false_detection_vectors_spec 100
                   (normal2 256 256 g).2) as [-> _].
  - rewrite stage_decoys.
    by destruct (generate_false_detection_vectors_spec 100
                   (normal2 256 256 g).2) as [_ H].
  - rewrite stage_scores, stage_decoys, stage_CVZ.
    pose proof (generate_false_detection_vectors_spec 100
                  (normal2 256 256 g).2) as [Hlen Hall].
    pose proof (normal2_flatten_length 256 256 g) as Hflat.
    rewrite watermark_size in Hflat.
    split; [apply detect_false_proximity_eq|].
    eexists. split.
    + rewrite detect_false_proximity_eq. apply scores_against_ok.
      * apply (length_pos_nonempty _ _ Hflat), decoy_size_pos.
      * rewrite Hflat. exact Hall.
    + rewrite length_map, Hlen. reflexivity.
Qed.

(** C2 as stated fails.  Take a generator whose first 65536 samples are 1
    and whose later samples are -1, embed the watermark it gives into the
    512x512 image of grey level 128 with the stand-in library, and extract
    from the stored image as the script does: the extracted block is -128
    everywhere.  Every score the analysis reports is -1, the correlation of
    the decoy with the reference watermark; against the extracted watermark
    every score would be 1. *)
Lemma false_positive_not_against_extracted :
  let g := {| samples := fun k => if (k <? Z.to_nat 65536)%nat then 1 else -1;
              cursor := 0 |} in
  let st := run_false_positive_stage g in
  exists e hp' ph orig included_cvz,
    embed toy_lib ALPHA (CVZ st) (as_float (flat_image 128)) Heap.empty
    = (Ok e, hp')
    /\ cells hp' !! phase_array e = Some ph
    /\ cells hp' !! original_abs_spectrum e = Some orig
    /\ extract_cvz toy_lib ph orig
         (as_float (save_and_reload toy_lib (reverse_array e)))
       = Ok included_cvz
    /\ false_detection_proximity_array st
       = Ok (repeat (Finite (-1)) (Z.to_nat 100))
    /\ scores_against (flatten included_cvz) (false_detection_cvz st)
       = Ok (repeat (Finite 1) (Z.to_nat 100))
    /\ false_detection_proximity_array st
       <> scores_against (flatten included_cvz) (false_detection_cvz st).
Proof.
  intros g st.
  assert (Hcvz : CVZ st = repeat (repeat 1 256) 256).
  { apply stage_CVZ_const. intros k Hk. unfold g in *. cbn [samples cursor] in *.
    destruct (Nat.ltb_spec k (Z.to_nat 65536)); [done|lia]. }
  assert (Hdec : false_detection_cvz st
                 = repeat (repeat (-1) (Z.to_nat 65536)) (Z.to_nat 100)).
  { apply stage_decoys_const. intros k Hk. unfold g in *.
    cbn [samples cursor] in *.
    destruct (Nat.ltb_spec k (Z.to_nat 65536)); [lia|done]. }
  assert (Hn : Z.to_nat 65536 <> 0%nat) by apply decoy_size_pos.
  assert (Hsize : (256 * 256)%nat = Z.to_nat 65536) by lia.
  assert (H1 : false_detection_proximity_array st
               = Ok (repeat (Finite (-1)) (Z.to_nat 100))).
  { unfold st. rewrite stage_scores, detect_false_proximity_eq.
    fold st. rewrite Hcvz, Hdec, flatten_repeat, Hsize.
    unfold scores_against. apply mapM_repeat.
    rewrite (proximity_of_constants 1 (-1) (Z.to_nat 65536) Hn) by lra.
    destruct (Rlt_dec 0 (1 * -1)); [lra|reflexivity]. }
  assert (H2 : scores_against (flatten (repeat (repeat (0 - 128) 256) 256))
                 (false_detection_cvz st)
               = Ok (repeat (Finite 1) (Z.to_nat 100))).
  { rewrite Hdec, flatten_repeat, Hsize.
    unfold scores_against. apply mapM_repeat.
    rewrite (proximity_of_constants (0 - 128) (-1) (Z.to_nat 65536) Hn)
      by lra.
    destruct (Rlt_dec 0 ((0 - 128) * -1)); [reflexivity|lra]. }
  destruct (toy_embed_extract (CVZ st) Heap.empty)
    as (e & hp' & ph & orig & Hrun & Hph & Horig & Hext).
  { rewrite Hcvz. apply has_shape_repeat. }
  exists e, hp', ph, orig, (repeat (repeat (0 - 128) 256) 256).
  split; [exact Hrun|]. split; [exact Hph|]. split; [exact Horig|].
  split; [exact Hext|]. split; [exact H1|]. split; [exact H2|].
  rewrite H1, H2. intros Heq.
  assert (Hrep : repeat (Finite (-1)) (Z.to_nat 100)
                 = repeat (Finite 1) (Z.to_nat 100))
    by exact (f_equal (fun r => match r with Ok l => l | Raise _ => [] end)
                Heq).
  apply repeat_inj in Hrep; [|lia].
  assert (Hr : -1 = 1)
    by exact (f_equal (fun x => match x with Finite r => r | _ => 0 end)
                Hrep).
  lra.
Qed.

End FalsePositive.

(** ** Which grid point the search returns *)

Module ArgmaxFacts.
Import Num Np Lab04 Heap Embedder CorrelationFacts PsnrFacts AttackFacts
  BlockFacts HeapFacts EmbedFacts TrialFacts SearchMoreFacts SweepFacts
  StandInFacts.
Local Open Scope R_scope.

(** When every trial returns, and returns a value that does not depend on
    the heap it starts from, the loop folds [update_best] over the grid. *)
Lemma search_values (trial : Z -> prog (npfloat * option npfloat))
    (tv : Z -> npfloat * option npfloat) (grid : list Z)
    (best : Z * npfloat * npfloat) (hp : heap) :
  (forall a hp0, In a grid -> exists hp1, trial a hp0 = (Ok (tv a), hp1)) ->
  exists hp',
    search trial grid best hp
    = (Ok (fold_left (fun b a => update_best a (tv a) b) grid best), hp').
Proof.
  revert best hp; induction grid as [|a grid IH]; intros best hp Htv.
  - by exists hp.
  - rewrite search_cons.
    destruct (Htv a hp (or_introl eq_refl)) as [hp1 ->].
    cbn [fold_left]. apply IH. intros a' hp0 Hin. apply Htv. by right.
Qed.

(** Candidates that do not strictly beat the PSNR kept leave the triple
    alone. *)
Lemma fold_keeps (tv : Z -> npfloat * option npfloat) (post : list Z)
    (b : Z * npfloat * npfloat) :
  (forall a q n, In a post -> tv a = (q, Some n) ->
                 np_gt n (psnr_of b) = false) ->
  fold_left (fun b a => update_best a (tv a) b) post b = b.
Proof.
  induction post as [|a post IH]; intros Hpost; [done|].
  cbn [fold_left].
  assert (Ha : update_best a (tv a) b = b).
  { destruct (tv a) as [q [n|]] eqn:Hta.
    - apply update_best_no_improvement.
      by apply (Hpost a q n (or_introl eq_refl)).
    - by destruct b as [[x y] z]. }
  rewrite Ha. apply IH. intros a' q n Hin. apply Hpost. by right.
Qed.

(** A PSNR that strictly beats the one kept and every one seen still beats
    the one kept afterwards. *)
Lemma fold_beaten (tv : Z -> npfloat * option npfloat) (pre : list Z)
    (best : Z * npfloat * npfloat) (s : npfloat) :
  np_gt s (psnr_of best) = true ->
  (forall a q n, In a pre -> tv a = (q, Some n) -> np_gt s n = true) ->
  np_gt s (psnr_of (fold_left (fun b a => update_best a (tv a) b) pre best))
  = true.
Proof.
  revert best; induction pre as [|a pre IH]; intros best Hbest Hpre;
    [done|].
  cbn [fold_left]. apply IH; [|intros a' q n Hin; apply Hpre; by right].
  destruct (tv a) as [q [n|]] eqn:Hta.
  - destruct best as [[x y] z]. cbn [update_best].
    destruct (np_gt n y); [|exact Hbest].
    cbn [psnr_of fst snd]. by apply (Hpre a q n (or_introl eq_refl)).
  - by destruct best as [[x y] z].
Qed.

(** The loop returns the first grid point whose PSNR strictly beats the
    initial one and every earlier one and is not strictly beaten later. *)
Lemma search_first_maximum (trial : Z -> prog (npfloat * option npfloat))
    (tv : Z -> npfloat * option npfloat) (pre post : list Z) (a1 : Z)
    (p1 s : npfloat) (best : Z * npfloat * npfloat) (hp : heap) :
  (forall a hp0, In a (pre ++ a1 :: post) ->
                 exists hp1, trial a hp0 = (Ok (tv a), hp1)) ->
  tv a1 = (p1, Some s) ->
  np_gt s (psnr_of best) = true ->
  (forall a q n, In a pre -> tv a = (q, Some n) -> np_gt s n = true) ->
  (forall a q n, In a post -> tv a = (q, Some n) -> np_gt n s = false) ->
  exists hp',
    search trial (pre ++ a1 :: post) best hp = (Ok (a1, s, p1), hp').
Proof.
  intros Htv Ha1 Hbest Hpre Hpost.
  destruct (search_values trial tv (pre ++ a1 :: post) best hp Htv)
    as [hp' Hrun].
  exists hp'. rewrite Hrun. do 2 f_equal.
  rewrite fold_left_app. cbn [fold_left]. rewrite Ha1.
  pose proof (fold_beaten tv pre best s Hbest Hpre) as Hb0.
  destruct (fold_left _ pre best) as [[x y] z].
  cbn [psnr_of fst snd] in Hb0. cbn [update_best]. rewrite Hb0.
  apply fold_keeps. intros a q n Hin Hta. cbn [psnr_of fst snd].
  by apply (Hpost a q n).
Qed.

(** With the stand-in library, the watermark of entries -1 and the image of
    grey level 128, every trial detects the watermark with correlation 1
    and an infinite PSNR. *)
Lemma toy_trial_detects (alpha : Z) (hp : heap) :
  exists hp1,
    alpha_trial toy_lib (flat_watermark (-1)) (flat_image 128) alpha hp
    = (Ok (Finite 1, Some PInf), hp1).
Proof.
  assert (Hspec : has_shape 512 512
                    (fft2 toy_lib (as_float (flat_image 128)))).
  { cbn [fft2 toy_lib]. apply has_shape_map, has_shape_map.
    apply has_shape_repeat. }
  assert (Hcvz : has_shape 256 256 (flat_watermark (-1)))
    by apply has_shape_repeat.
  pose proof (alpha_trial_run toy_lib (flat_watermark (-1)) (flat_image 128)
                alpha 512 512 hp ltac:(lia) ltac:(lia) Hspec Hcvz) as Hrun.
  cbv zeta in Hrun.
  set (X := map (map Cabs) (ifft2 toy_lib _)) in Hrun.
  assert (HX : has_shape 512 512 X).
  { unfold X. cbn [ifft2 toy_lib].
    apply has_shape_map, has_shape_zip_with.
    - apply has_shape_with_block; [lia|lia|by apply has_shape_map|].
      apply has_shape_zip_with; [|by apply has_shape_map].
      apply (has_shape_slice2_block 512 512); [lia|lia|].
      by apply has_shape_map.
    - by apply has_shape_map, has_shape_map. }
  assert (Hn : (256 * 256)%nat <> 0%nat) by lia.
  assert (Hp : extract_and_correlate toy_lib (flat_watermark (-1))
                 (map (map (phase toy_lib))
                    (fft2 toy_lib (as_float (flat_image 128))))
                 (map (map Cabs) (fft2 toy_lib (as_float (flat_image 128))))
                 (as_float (save_and_reload toy_lib X))
               = Ok (Finite 1)).
  { unfold extract_and_correlate.
    pose proof (toy_extract_cvz X HX) as Hext. cbv zeta in Hext.
    rewrite Hext. cbn [mbind result_bind].
    unfold flat_watermark. rewrite !flatten_repeat.
    rewrite (proximity_of_constants (-1) (0 - 128) (256 * 256) Hn) by lra.
    destruct (Rlt_dec 0 (-1 * (0 - 128))); [reflexivity|lra]. }
  assert (Hpsnr : calculate_psnr_alternative (flat_image 128)
                    (save_and_reload toy_lib X) = Ok PInf).
  { cbn [save_and_reload toy_lib].
    rewrite (map_const_shape 0%Z 512 512 X HX). unfold flat_image.
    apply psnr_alternative_wrapped.
    - apply Forall2_repeat, Forall2_repeat. reflexivity.
    - rewrite flatten_repeat. intros Hnil.
      apply (f_equal length) in Hnil. rewrite repeat_length in Hnil.
      cbn [length] in Hnil. lia. }
  rewrite Hp in Hrun. cbn [mbind result_bind] in Hrun.
  assert (Hthr : (process_threshold (Finite 1) =? 0)%Z = false).
  { unfold process_threshold, np_gt.
    destruct (Rlt_dec 0.1 1); [reflexivity|lra]. }
  rewrite Hthr, Hpsnr in Hrun. cbn [mbind result_bind] in Hrun.
  exists (alpha_trial toy_lib (flat_watermark (-1)) (flat_image 128)
            alpha hp).2.
  rewrite <- Hrun. apply surjective_pairing.
Qed.

End ArgmaxFacts.

Section AlphaSearchResult.
Import Num Np Lab04 Heap Embedder BlockFacts HeapFacts EmbedFacts TrialFacts
  ArgmaxFacts.
Local Open Scope R_scope.

(** C9: when no grid point passes the threshold, [select_best_alpha]
    returns the initial triple (0, 0, 0).  A candidate replaces the best one
    only if its PSNR is strictly larger, so the loop (for any way of
    evaluating a candidate whose value does not depend on the heap) returns
    the first grid point whose PSNR strictly beats the initial one and
    every earlier one and is not strictly beaten by a later one: of grid
    points detected with the same, maximal PSNR the earliest is returned,
    with its PSNR and proximity.  [select_best_alpha] is this loop over
    1, 101, ..., 901 from (0, 0, 0). *)
Theorem select_best_alpha_defaults_and_ties (lib : externals)
    (CVZ : matrix R) (image : matrix Z) :
  (forall hp,
     (forall alpha hp0, In alpha (py_range 1 1001 100) ->
        exists p o hp1,
          alpha_trial lib CVZ image alpha hp0 = (Ok (p, o), hp1)
          /\ process_threshold p = 0%Z) ->
     exists hp',
       select_best_alpha lib CVZ image hp
       = (Ok (0%Z, Finite 0, Finite 0), hp'))
  /\ (forall trial tv pre a1 post p1 s best hp,
        (forall a hp0, In a (pre ++ a1 :: post) ->
                       exists hp1, trial a hp0 = (Ok (tv a), hp1)) ->
        tv a1 = (p1, Some s) ->
        np_gt s (psnr_of best) = true ->
        (forall a q n, In a pre -> tv a = (q, Some n) -> np_gt s n = true) ->
        (forall a q n, In a post -> tv a = (q, Some n) ->
                       np_gt n s = false) ->
        exists hp',
          search trial (pre ++ a1 :: post) best hp = (Ok (a1, s, p1), hp'))
  /\ (forall tv pre a1 post p1 s hp,
        py_range 1 1001 100 = pre ++ a1 :: post ->
        (forall a hp0, In a (py_range 1 1001 100) ->
           exists hp1, alpha_trial lib CVZ image a hp0 = (Ok (tv a), hp1)) ->
        tv a1 = (p1, Some s) ->
        np_gt s (Finite 0) = true ->
        (forall a q n, In a pre -> tv a = (q, Some n) -> np_gt s n = true) ->
        (forall a q n, In a post -> tv a = (q, Some n) ->
                       np_gt n s = false) ->
        exists hp',
          select_best_alpha lib CVZ image hp = (Ok (a1, s, p1), hp')).
Proof.
  split; [|split].
  - intros hp Hnone. unfold select_best_alpha.
    apply search_no_detection. intros alpha hp0 Hin.
    destruct (Hnone alpha hp0 Hin) as (p & o & hp1 & Hrun & Hp).
    exists p, hp1. rewrite Hrun.
    by rewrite (alpha_trial_detection _ _ _ _ _ _ _ _ Hrun Hp).
  - intros trial tv pre a1 post p1 s best hp.
    apply search_first_maximum.
  - intros tv pre a1 post p1 s hp Hgrid Htv Ha1 Hs Hpre Hpost.
    unfold select_best_alpha. rewrite Hgrid.
    apply (search_first_maximum _ tv); try done.
    intros a hp0 Hin. apply Htv. by rewrite Hgrid.
Qed.

Lemma select_best_alpha_defaults_and_ties_witness :
  (exists hp',
     select_best_alpha toy_lib (flat_watermark 0) (flat_image 128) Heap.empty
     = (Ok (0%Z, Finite 0, Finite 0), hp'))
  /\ (exists hp',
        search (fun _ => mret (Finite 0.5, Some (Finite 30))) [1%Z; 101%Z]
          (0%Z, Finite 0, Finite 0) Heap.empty
        = (Ok (1%Z, Finite 30, Finite 0.5), hp'))
  /\ (exists hp',
        select_best_alpha toy_lib (flat_watermark (-1)) (flat_image 128)
          Heap.empty
        = (Ok (1%Z, PInf, Finite 1), hp')).
Proof.
  split; [|split].
  - destruct (select_best_alpha_defaults_and_ties toy_lib (flat_watermark 0)
                (flat_image 128)) as (Hdefault & _ & _).
    apply Hdefault. intros alpha hp0 _.
    destruct (alpha_trial_zero_watermark toy_lib (flat_watermark 0)
                (flat_image 128) alpha 512 512 hp0) as (hp1 & Hrun).
    + apply toy_lib_shape_preserving.
    + lia.
    + lia.
    + apply AttackFacts.has_shape_repeat.
    + apply AttackFacts.has_shape_repeat.
    + apply flat_watermark_zero.
    + exists NaN, None, hp1. split; [exact Hrun|reflexivity].
  - destruct (select_best_alpha_defaults_and_ties toy_lib (flat_watermark 0)
                (flat_image 128)) as (_ & Hloop & _).
    apply (Hloop (fun _ => mret (Finite 0.5, Some (Finite 30)))
             (fun _ => (Finite 0.5, Some (Finite 30)))
             [] 1%Z [101%Z] (Finite 0.5) (Finite 30)).
    + intros a hp0 _. by exists hp0.
    + reflexivity.
    + cbn. destruct (Rlt_dec 0 30); [reflexivity|lra].
    + intros a q n [].
    + intros a q n _ [= _ <-]. cbn.
      destruct (Rlt_dec 30 30); [lra|reflexivity].
  - destruct (select_best_alpha_defaults_and_ties toy_lib
                (flat_watermark (-1)) (flat_image 128)) as (_ & _ & Hsel).
    apply (Hsel (fun _ => (Finite 1, Some PInf)) [] 1%Z
             [101; 201; 301; 401; 501; 601; 701; 801; 901]%Z).
    + reflexivity.
    + intros a hp0 _. apply toy_trial_detects.
    + reflexivity.
    + reflexivity.
    + intros a q n [].
    + intros a q n _ [= _ <-]. reflexivity.
Defined.

End AlphaSearchResult.
